(** * fast_shm_cache: the shared-memory slot table of [src/fast_shm_cache.cc]

    A shallow embedding of the hash-table engine of [FastShmCache]: the
    FNV-1a style [Hash], the fixed-size [CacheSlot] records with their
    NUL-terminated [char] buffers, and the operations [Set], [Get],
    [Delete], [Has], [Keys], [Entries], [Clear] and [Size], run by one
    caller at a time.

    Conventions of the embedding
    - a [std::string] is a [list byte]: its length is explicit and it may
      hold NUL bytes (a JavaScript string converted by [Utf8Value] keeps
      them);
    - a [char] array is a [list byte] of the declared size;
    - [size_t], [uint32_t] and [uint64_t] values are [Z], the wrap-around
      of the arithmetic written out; [size_t] is 64 bits wide, so that
      [start_index + i], the sum of two numbers below a capacity whose
      slot array fits in memory, does not wrap;
    - each operation returns an [outcome]: the returned value, the table
      afterwards and the indices of the slots whose mutex it locked, in
      order; [Undefined] stands for undefined behaviour of the C++ code
      (a remainder by zero, a slot access outside the array). *)

From Stdlib Require Import ZArith Lia Bool List.
From Stdlib Require Import Strings.Byte.
From stdpp Require Import base numbers list.

Local Open Scope Z_scope.

(** ** Bytes, strings and the C string primitives *)

Abbreviation byte := Byte.byte.

(** [std::string]. *)
Definition std_string : Type := list byte.

Definition is_nul (c : byte) : bool := Byte.eqb c x00.

(** [s.c_str()]: the bytes of [s] followed by the terminating NUL. *)
Definition c_str (s : std_string) : list byte := s ++ [x00].

(** [std::string(p)] and [Napi::String::New(env, p)] for a [const char*]:
    the bytes up to the first NUL. *)
Fixpoint string_of_chars (p : list byte) : std_string :=
  match p with
  | [] => []
  | c :: p' => if is_nul c then [] else c :: string_of_chars p'
  end.

(** [strncmp(s1, s2, n) == 0]: at most [n] positions are compared and the
    comparison stops after a NUL common to both.  Reading past the end
    of an array does not happen with the buffers of this program; the
    model answers [false] there. *)
Fixpoint strncmp_eq (s1 s2 : list byte) (n : nat) {struct n} : bool :=
  match n with
  | O => true
  | S n' =>
      match s1, s2 with
      | c1 :: s1', c2 :: s2' =>
          if Byte.eqb c1 c2
          then (if is_nul c1 then true else strncmp_eq s1' s2' n')
          else false
      | _, _ => false
      end
  end.

(** The [n] bytes that [strncpy(dest, src, n)] writes: the characters of
    [src] up to its NUL, then NUL padding. *)
Fixpoint strncpy_chars (src : list byte) (n : nat) {struct n}
    : list byte :=
  match n with
  | O => []
  | S n' =>
      match src with
      | c :: src' =>
          if is_nul c then replicate n x00 else c :: strncpy_chars src' n'
      | [] => replicate n x00
      end
  end.

Definition strncpy (dest src : list byte) (n : nat) : list byte :=
  strncpy_chars src n ++ drop n dest.

Definition memset (dest : list byte) (c : byte) (n : nat) : list byte :=
  replicate n c ++ drop n dest.

(** ** Constants *)

Definition MAX_KEY_SIZE : nat := 64.
Definition MAX_VALUE_SIZE : nat := 256.
Definition DEFAULT_MAX_KEYS : Z := 1024.

Definition UINT32_MOD : Z := 2 ^ 32.
Definition SIZE_MOD : Z := 2 ^ 64.

(** ** The hash function *)

Definition FNV_32_PRIME : Z := 0x01000193.
Definition FNV_OFFSET_BASIS : Z := 0x811c9dc5.

(** [static_cast<uint32_t>(c)] for [char c].  Whether plain [char] is
    signed is fixed by the platform ABI (signed on x86 and x86-64, on
    Windows and on Apple arm64; unsigned on Linux arm64), so it is a
    parameter: a signed [char] of 0x80 and above is negative and the
    conversion sign-extends it. *)
Definition static_cast_uint32 (char_signed : bool) (c : byte) : Z :=
  let u := Z.of_N (Byte.to_N c) in
  if char_signed && (128 <=? u) then (u - 256) mod UINT32_MOD else u.

(** One turn of the loop of [Hash]: [hash ^= c; hash *= FNV_32_PRIME]. *)
Definition Hash_step (char_signed : bool) (hash : Z) (c : byte) : Z :=
  let hash := Z.lxor hash (static_cast_uint32 char_signed c) in
  (hash * FNV_32_PRIME) mod UINT32_MOD.

Definition Hash (char_signed : bool) (key : std_string) : Z :=
  fold_left (Hash_step char_signed) key FNV_OFFSET_BASIS.

(** The reference the comment of [Hash] names: 32-bit FNV-1a over the
    octets of the input, as the specification words it. *)
Definition fnv1a_spec (key : std_string) : Z :=
  fold_left
    (fun h c => (Z.lxor h (Z.of_N (Byte.to_N c)) * 0x01000193) mod 2 ^ 32)
    key 0x811c9dc5.

(** ** The shared segment *)

(** [struct CacheSlot].  The mutex is left out: one caller runs at a
    time and the locks taken are reported by the operations. *)
Record CacheSlot : Type := mkSlot {
  occupied : bool;
  key : list byte;
  value : list byte;
  timestamp : Z
}.

(** [struct SharedMemoryHeader] followed by the slot array. *)
Record Table : Type := mkTable {
  max_keys : Z;
  num_entries : Z;
  slots : list CacheSlot
}.

(** The layout the structs declare: [max_keys] slots, each with a key
    buffer of [MAX_KEY_SIZE] and a value buffer of [MAX_VALUE_SIZE]
    bytes. *)
Definition slot_wf (slot : CacheSlot) : Prop :=
  length (key slot) = MAX_KEY_SIZE /\ length (value slot) = MAX_VALUE_SIZE.

Definition wf (t : Table) : Prop :=
  Z.of_nat (length (slots t)) = max_keys t /\ Forall slot_wf (slots t).

Inductive outcome (A : Type) : Type :=
| Done (ret : A) (table : Table) (locked : list Z)
| Undefined.

Arguments Done {A} ret table locked.
Arguments Undefined {A}.

(** The slot after the creator's [memset(shm_ptr_, 0, shm_size_)]. *)
Definition zero_slot : CacheSlot :=
  {| occupied := false;
     key := replicate MAX_KEY_SIZE x00;
     value := replicate MAX_VALUE_SIZE x00;
     timestamp := 0 |}.

(** [InitializeSharedMemory], on the path of the creating process with
    every system call succeeding. *)
Definition InitializeSharedMemory (maxkeys : Z) : Table :=
  {| max_keys := maxkeys;
     num_entries := 0;
     slots := replicate (Z.to_nat maxkeys) zero_slot |}.

(** The options object of the constructor; [maxKeys] is present when the
    property exists and is a number (taken integral here). *)
Record Options : Type := mkOptions {
  maxKeys : option Z;
  persist : option bool
}.

(** [Napi::Number::Uint32Value] of an integral number. *)
Definition Uint32Value (n : Z) : Z := n mod UINT32_MOD.

(** The constructor: the capacity is read from the options and handed
    to [InitializeSharedMemory] as it is. *)
Definition FastShmCache (options : Options) : Table :=
  let maxkeys :=
    match maxKeys options with
    | Some n => Uint32Value n
    | None => DEFAULT_MAX_KEYS
    end in
  InitializeSharedMemory maxkeys.

(** ** Linear probing *)

Inductive probe_result : Type :=
| Found (index : Z) (slot : CacheSlot)
| Exhausted
| OutOfBounds.

(** The loop shared by [Set], [Get], [Delete] and [Has]:
    [for (i = 0; i < max_keys; ++i) { index = (start_index + i) % max_keys;
    lock; if (hit(slots_[index])) { ...; return } unlock }].
    [fuel] counts the turns left, [i] is the loop variable; the result is
    the first slot on which the test of the operation holds, with the
    indices locked on the way. *)
Fixpoint probe (hit : CacheSlot -> bool) (t : Table) (start_index : Z)
    (fuel : nat) (i : Z) : list Z * probe_result :=
  match fuel with
  | O => ([], Exhausted)
  | S fuel' =>
      let index := (start_index + i) mod max_keys t in
      match slots t !! Z.to_nat index with
      | None => ([index], OutOfBounds)
      | Some slot =>
          if hit slot then ([index], Found index slot)
          else
            let (locked, r) := probe hit t start_index fuel' (i + 1) in
            (index :: locked, r)
      end
  end.

(** [memset] of both buffers and [occupied.store(false)], as [Delete] and
    [Clear] do. *)
Definition wipe_slot (slot : CacheSlot) : CacheSlot :=
  {| occupied := false;
     key := memset (key slot) x00 MAX_KEY_SIZE;
     value := memset (value slot) x00 MAX_VALUE_SIZE;
     timestamp := timestamp slot |}.

(** The writes of [Set] to the slot it chose. *)
Definition write_slot (now : Z) (k v : std_string) (slot : CacheSlot)
    : CacheSlot :=
  {| occupied := true;
     key := <[(MAX_KEY_SIZE - 1)%nat := x00]>
              (strncpy (key slot) (c_str k) (MAX_KEY_SIZE - 1));
     value := <[(MAX_VALUE_SIZE - 1)%nat := x00]>
                (strncpy (value slot) (c_str v) (MAX_VALUE_SIZE - 1));
     timestamp := now |}.

(** [strncmp(slot.key, key.c_str(), MAX_KEY_SIZE) == 0]. *)
Definition same_key (k : std_string) (slot : CacheSlot) : bool :=
  strncmp_eq (key slot) (c_str k) MAX_KEY_SIZE.

(** The test of [Set]: the slot is empty or has the same key. *)
Definition eligible (k : std_string) (slot : CacheSlot) : bool :=
  negb (occupied slot) || same_key k slot.

(** The test of [Get], [Delete] and [Has]. *)
Definition holds (k : std_string) (slot : CacheSlot) : bool :=
  occupied slot && same_key k slot.

(** [Keys]: every slot in index order. *)
Fixpoint Keys_loop (t : Table) (fuel : nat) (i : Z)
    : option (list std_string * list Z) :=
  match fuel with
  | O => Some ([], [])
  | S fuel' =>
      match slots t !! Z.to_nat i with
      | None => None
      | Some slot =>
          match Keys_loop t fuel' (i + 1) with
          | None => None
          | Some (keys, locked) =>
              Some (if occupied slot
                    then string_of_chars (key slot) :: keys
                    else keys,
                    i :: locked)
          end
      end
  end.

Definition Keys (t : Table) : outcome (list std_string) :=
  match Keys_loop t (Z.to_nat (max_keys t)) 0 with
  | Some (keys, locked) => Done keys t locked
  | None => Undefined
  end.

Fixpoint Entries_loop (t : Table) (fuel : nat) (i : Z)
    : option (list (std_string * std_string) * list Z) :=
  match fuel with
  | O => Some ([], [])
  | S fuel' =>
      match slots t !! Z.to_nat i with
      | None => None
      | Some slot =>
          match Entries_loop t fuel' (i + 1) with
          | None => None
          | Some (entries, locked) =>
              Some (if occupied slot
                    then (string_of_chars (key slot),
                          string_of_chars (value slot)) :: entries
                    else entries,
                    i :: locked)
          end
      end
  end.

Definition Entries (t : Table) : outcome (list (std_string * std_string)) :=
  match Entries_loop t (Z.to_nat (max_keys t)) 0 with
  | Some (entries, locked) => Done entries t locked
  | None => Undefined
  end.

(** The loop of [Clear]: occupied slots are wiped, the others are left
    as they are. *)
Fixpoint Clear_loop (sl : list CacheSlot) (fuel : nat) (i : Z)
    : option (list CacheSlot * list Z) :=
  match fuel with
  | O => Some (sl, [])
  | S fuel' =>
      match sl !! Z.to_nat i with
      | None => None
      | Some slot =>
          let slot' := if occupied slot then wipe_slot slot else slot in
          match Clear_loop (<[Z.to_nat i := slot']> sl) fuel' (i + 1) with
          | None => None
          | Some (sl', locked) => Some (sl', i :: locked)
          end
      end
  end.

(** [Clear]; the header mutex held around the loop is no slot lock and
    is not listed. *)
Definition Clear (t : Table) : outcome unit :=
  match Clear_loop (slots t) (Z.to_nat (max_keys t)) 0 with
  | Some (sl', locked) =>
      Done tt {| max_keys := max_keys t; num_entries := 0; slots := sl' |}
        locked
  | None => Undefined
  end.

(** [Size]: one atomic load, no lock. *)
Definition Size (t : Table) : Z := num_entries t.

Section Engine.

(** Signedness of plain [char] on the platform. *)
Variable char_signed : bool.

(** [Set(key, value)] at time [now]; the name carries an underscore
    because [Set] is a sort of Rocq. *)
Definition Set_ (now : Z) (k v : std_string) (t : Table) : outcome bool :=
  if (MAX_KEY_SIZE <=? length k)%nat || (MAX_VALUE_SIZE <=? length v)%nat
  then Done false t []
  else if max_keys t =? 0 then Undefined
  else
    let hash := Hash char_signed k in
    let start_index := hash mod max_keys t in
    match probe (eligible k) t start_index (Z.to_nat (max_keys t)) 0 with
    | (locked, Found index slot) =>
        let was_new := negb (occupied slot) in
        Done true
          {| max_keys := max_keys t;
             num_entries := if was_new
                            then (num_entries t + 1) mod SIZE_MOD
                            else num_entries t;
             slots := <[Z.to_nat index := write_slot now k v slot]>
                        (slots t) |}
          locked
    | (locked, Exhausted) => Done false t locked
    | (_, OutOfBounds) => Undefined
    end.

(** [Get(key)]: the value, or [None] for [undefined]. *)
Definition Get (k : std_string) (t : Table) : outcome (option std_string) :=
  if (MAX_KEY_SIZE <=? length k)%nat then Done None t []
  else if max_keys t =? 0 then Undefined
  else
    let hash := Hash char_signed k in
    let start_index := hash mod max_keys t in
    match probe (holds k) t start_index (Z.to_nat (max_keys t)) 0 with
    | (locked, Found index slot) =>
        Done (Some (string_of_chars (value slot))) t locked
    | (locked, Exhausted) => Done None t locked
    | (_, OutOfBounds) => Undefined
    end.

Definition Delete (k : std_string) (t : Table) : outcome bool :=
  if (MAX_KEY_SIZE <=? length k)%nat then Done false t []
  else if max_keys t =? 0 then Undefined
  else
    let hash := Hash char_signed k in
    let start_index := hash mod max_keys t in
    match probe (holds k) t start_index (Z.to_nat (max_keys t)) 0 with
    | (locked, Found index slot) =>
        Done true
          {| max_keys := max_keys t;
             num_entries := (num_entries t - 1) mod SIZE_MOD;
             slots := <[Z.to_nat index := wipe_slot slot]> (slots t) |}
          locked
    | (locked, Exhausted) => Done false t locked
    | (_, OutOfBounds) => Undefined
    end.

Definition Has (k : std_string) (t : Table) : outcome bool :=
  if (MAX_KEY_SIZE <=? length k)%nat then Done false t []
  else if max_keys t =? 0 then Undefined
  else
    let hash := Hash char_signed k in
    let start_index := hash mod max_keys t in
    match probe (holds k) t start_index (Z.to_nat (max_keys t)) 0 with
    | (locked, Found index slot) => Done true t locked
    | (locked, Exhausted) => Done false t locked
    | (_, OutOfBounds) => Undefined
    end.

(** Tables a process can meet: created by the constructor (whose
    capacity is a [uint32_t]) and changed by [Set], [Delete] and
    [Clear], one call at a time. *)
Inductive reachable : Table -> Prop :=
| reach_init (n : Z) :
    0 <= n < UINT32_MOD -> reachable (InitializeSharedMemory n)
| reach_Set t now k v b t' locked :
    reachable t -> Set_ now k v t = Done b t' locked -> reachable t'
| reach_Delete t k b t' locked :
    reachable t -> Delete k t = Done b t' locked -> reachable t'
| reach_Clear t t' locked :
    reachable t -> Clear t = Done tt t' locked -> reachable t'.

End Engine.

(** ** C strings in fixed buffers *)

(** A buffer of [n] bytes holding the C string of [s]: its bytes up to
    the first NUL, NUL-padded. *)
Definition padded (n : nat) (s : std_string) : list byte :=
  string_of_chars s ++ replicate (n - length (string_of_chars s)) x00.

Definition nul_free (s : list byte) : Prop :=
  Forall (fun c => is_nul c = false) s.

(** ** Predicates, drivers and concrete tables used by the theorems *)

(** The index the probe loop computes on turn [i]. *)
Definition probe_index (t : Table) (start_index i : Z) : Z :=
  (start_index + i) mod max_keys t.

(** Turn [j] of the probe loop looked at a slot and went on. *)
Definition passed (hit : CacheSlot -> bool) (t : Table) (start_index j : Z)
    : Prop :=
  exists s, slots t !! Z.to_nat (probe_index t start_index j) = Some s /\
            hit s = false.

(** The first [n] indices of the probe sequence that starts at
    [start_index]: [(start_index + i) mod max_keys] for [i = 0 .. n - 1]. *)
Definition probe_trace (t : Table) (start_index n : Z) : list Z :=
  probe_index t start_index <$> seqZ 0 n.

(** Number of slots with [occupied] set. *)
Fixpoint count_occupied (sl : list CacheSlot) : nat :=
  match sl with
  | [] => 0
  | s :: sl' => (if occupied s then 1 else 0) + count_occupied sl'
  end.

(** What a slot holds in a table built by the operations: an occupied
    slot holds the C strings of an accepted key and value, a free slot
    is zeroed. *)
Definition slot_ok (s : CacheSlot) : Prop :=
  if occupied s
  then exists k v, (length k < MAX_KEY_SIZE)%nat /\
                   (length v < MAX_VALUE_SIZE)%nat /\
                   key s = padded MAX_KEY_SIZE k /\
                   value s = padded MAX_VALUE_SIZE v
  else key s = replicate MAX_KEY_SIZE x00 /\
       value s = replicate MAX_VALUE_SIZE x00.

Definition table_inv (t : Table) : Prop :=
  0 <= max_keys t < UINT32_MOD /\
  Z.of_nat (length (slots t)) = max_keys t /\
  num_entries t = Z.of_nat (count_occupied (slots t)) /\
  Forall slot_ok (slots t).

(** The slot [Clear] leaves behind. *)
Definition cleared (slot : CacheSlot) : CacheSlot :=
  if occupied slot then wipe_slot slot else slot.

(** Every locked index addresses a slot of the array. *)
Definition in_bounds (t : Table) (locked : list Z) : Prop :=
  Forall (fun index => 0 <= index < max_keys t /\
                       is_Some (slots t !! Z.to_nat index)) locked.

(** The options [{ maxKeys: 0 }]. *)
Definition options_zero : Options := {| maxKeys := Some 0; persist := None |}.

(** The calls that change the table. *)
Inductive call : Type :=
| SetCall (now : Z) (k v : std_string)
| DeleteCall (k : std_string)
| ClearCall.

Definition step (sgn : bool) (c : call) (t : Table) : outcome bool :=
  match c with
  | SetCall now k v => Set_ sgn now k v t
  | DeleteCall k => Delete sgn k t
  | ClearCall =>
      match Clear t with
      | Done _ t' locked => Done true t' locked
      | Undefined => Undefined
      end
  end.

(** One caller issuing [calls] in order: the values returned, the last
    table and all the locks taken. *)
Fixpoint run (sgn : bool) (calls : list call) (t : Table)
    : outcome (list bool) :=
  match calls with
  | [] => Done [] t []
  | c :: calls' =>
      match step sgn c t with
      | Done b t' locked =>
          match run sgn calls' t' with
          | Done bs t'' locked' => Done (b :: bs) t'' (locked ++ locked')
          | Undefined => Undefined
          end
      | Undefined => Undefined
      end
  end.

(** The arguments of one [Set] call. *)
Record SetArgs : Type := mkSetArgs {
  arg_now : Z;
  arg_key : std_string;
  arg_value : std_string
}.

Definition set_call (a : SetArgs) : call :=
  SetCall (arg_now a) (arg_key a) (arg_value a).

(** The arguments pass the length guard of [Set]. *)
Definition accepted (a : SetArgs) : Prop :=
  (length (arg_key a) < MAX_KEY_SIZE)%nat /\
  (length (arg_value a) < MAX_VALUE_SIZE)%nat.

(** The key as the table sees it: the bytes before the first NUL. *)
Definition c_key (a : SetArgs) : std_string := string_of_chars (arg_key a).

(** Slot [s] is occupied by what [Set] wrote for [a]. *)
Definition stores (s : CacheSlot) (a : SetArgs) : Prop :=
  occupied s = true /\
  key s = padded MAX_KEY_SIZE (arg_key a) /\
  value s = padded MAX_VALUE_SIZE (arg_value a).

(** The occupied slots of [t] hold the entries [l], one slot each. *)
Definition holds_exactly (t : Table) (l : list SetArgs) : Prop :=
  table_inv t /\ Forall accepted l /\
  count_occupied (slots t) = length l /\
  (forall i s, slots t !! i = Some s -> occupied s = true ->
               exists a, a ∈ l /\ stores s a) /\
  (forall a, a ∈ l -> exists i s, slots t !! i = Some s /\ stores s a).

(** An occupied slot as [Set] leaves it. *)
Definition slot_of (k v : std_string) (ts : Z) : CacheSlot :=
  mkSlot true (padded MAX_KEY_SIZE k) (padded MAX_VALUE_SIZE v) ts.

(** A zeroed slot with the timestamp of its last write. *)
Definition free_slot (ts : Z) : CacheSlot :=
  mkSlot false (replicate MAX_KEY_SIZE x00) (replicate MAX_VALUE_SIZE x00) ts.

(** Capacity 1 after [set("a", "1")]. *)
Definition table_one : Table :=
  mkTable 1 1 [slot_of ["a"%byte] ["1"%byte] 1].

(** Capacity 2 after [set("a", "1")], [set("c", "2")], [delete("a")]: the
    keys "a" and "c" both start at index 0, so "c" lies in slot 1 behind
    the hole in slot 0. *)
Definition table_hole : Table :=
  mkTable 2 1 [free_slot 1; slot_of ["c"%byte] ["2"%byte] 2].

(** [table_hole] after [set("c", "4")]. *)
Definition table_dup : Table :=
  mkTable 2 2 [slot_of ["c"%byte] ["4"%byte] 4; slot_of ["c"%byte] ["2"%byte] 2].

(** [table_dup] after [delete("c")]. *)
Definition table_stale : Table :=
  mkTable 2 1 [free_slot 4; slot_of ["c"%byte] ["2"%byte] 2].

(** The scan as the specification words it: all [max_keys] candidate
    indices are visited. *)
Definition full_scan_as_claimed (sgn : bool) (k : std_string) (t : Table)
    (locked : list Z) : Prop :=
  locked = probe_trace t (Hash sgn k mod max_keys t) (max_keys t).

(** The round trip as the specification words it: [get] returns exactly
    the value given to [set]. *)
Definition get_after_set_as_claimed (sgn : bool) (now : Z) (k v : std_string)
    (t : Table) : Prop :=
  forall t' locked,
    Set_ sgn now k v t = Done true t' locked ->
    exists locked', Get sgn k t' = Done (Some v) t' locked'.

(** The table-full behaviour as the specification words it, with keys
    that are distinct as strings. *)
Definition table_full_as_claimed (sgn : bool) (C : Z)
    (entries : list SetArgs) (now : Z) (k v : std_string) : Prop :=
  exists t locked,
    run sgn (set_call <$> entries) (InitializeSharedMemory C)
    = Done (replicate (length entries) true) t locked /\
    (exists locked', Set_ sgn now k v t = Done false t locked') /\
    Forall (fun a => exists locked',
                Get sgn (arg_key a) t = Done (Some (arg_value a)) t locked')
      entries.

(** [size()] is the number of keys for which [has] is true, as the
    specification words it: the keys found are listed without repetition
    by a list of that length. *)
Definition size_is_key_count (sgn : bool) (t : Table) : Prop :=
  exists keys : list std_string,
    NoDup keys /\
    (forall k, k ∈ keys <-> exists locked, Has sgn k t = Done true t locked) /\
    Size t = Z.of_nat (length keys).

(** ** The life cycle of an instance (POSIX branch) *)

(** What matters of [shm_ptr_]: null, [MAP_FAILED], or the address of a
    mapping. *)
Inductive pointer : Type :=
| nullptr
| MAP_FAILED
| Mapped.

(** The system calls [InitializeSharedMemory] and [CleanupSharedMemory]
    issue, with the arguments that vary. *)
Inductive syscall : Type :=
| sys_shm_open (name : std_string)
| sys_fstat (fd : Z)
| sys_ftruncate (fd : Z) (length : Z)
| sys_mmap (length : Z) (fd : Z)
| sys_munmap (length : Z)
| sys_close (fd : Z)
| sys_shm_unlink (name : std_string).

(** What the system answers to one run of [InitializeSharedMemory]: the
    descriptor [shm_open] returns (-1 on failure), the result of [fstat]
    and the size it reports, the result of [ftruncate], whether [mmap]
    succeeds, and, read through the header and slot pointers, the
    contents of the region as it is found. *)
Record Answers : Type := mkAnswers {
  shm_open_fd : Z;
  fstat_result : Z;
  st_size : Z;
  ftruncate_result : Z;
  mmap_ok : bool;
  segment : Table
}.

(** The data members of [FastShmCache]; [table_] stands for the region
    that [header_] and [slots_] point into, once they are set. *)
Record Instance : Type := mkInstance {
  shm_ptr_ : pointer;
  shm_size_ : Z;
  shm_name_ : std_string;
  shm_fd_ : Z;
  is_creator_ : bool;
  persist_ : bool;
  table_ : option Table
}.

(** The members after the constructor's initializer list.  [shm_size_]
    is left indeterminate there; it is not read before it is assigned. *)
Definition initial_instance : Instance :=
  {| shm_ptr_ := nullptr; shm_size_ := 0; shm_name_ := []; shm_fd_ := -1;
     is_creator_ := false; persist_ := false; table_ := None |}.

(** The object is fresh: [fstat(...) == 0 && sb.st_size == 0]. *)
Definition found_fresh (env : Answers) : bool :=
  (fstat_result env =? 0) && (st_size env =? 0).

Section Lifecycle.

(** [sizeof(SharedMemoryHeader)] and [sizeof(CacheSlot)], fixed by the
    platform. *)
Variables (header_size slot_size : Z).

(** [InitializeSharedMemory] as a whole: the value returned, the members
    afterwards and the system calls issued, in order. *)
Definition InitializeSharedMemory_posix (env : Answers) (this : Instance)
    (name : std_string) (maxkeys : Z) (persist : bool)
    : bool * Instance * list syscall :=
  let shm_name := "/"%byte :: name in
  let shm_size := (header_size + maxkeys * slot_size) mod SIZE_MOD in
  let fd := shm_open_fd env in
  if fd =? -1 then
    (false,
     {| shm_ptr_ := shm_ptr_ this; shm_size_ := shm_size;
        shm_name_ := shm_name; shm_fd_ := fd;
        is_creator_ := is_creator_ this; persist_ := persist_ this;
        table_ := table_ this |},
     [sys_shm_open shm_name])
  else
    let is_creator := found_fresh env in
    if is_creator && (ftruncate_result env =? -1) then
      (false,
       {| shm_ptr_ := shm_ptr_ this; shm_size_ := shm_size;
          shm_name_ := shm_name; shm_fd_ := fd;
          is_creator_ := true; persist_ := persist_ this;
          table_ := table_ this |},
       [sys_shm_open shm_name; sys_fstat fd; sys_ftruncate fd shm_size;
        sys_close fd])
    else
      let before_mmap :=
        [sys_shm_open shm_name; sys_fstat fd]
        ++ (if is_creator then [sys_ftruncate fd shm_size] else []) in
      if mmap_ok env then
        (true,
         {| shm_ptr_ := Mapped; shm_size_ := shm_size;
            shm_name_ := shm_name; shm_fd_ := fd;
            is_creator_ := is_creator; persist_ := persist;
            table_ := Some (if is_creator
                            then InitializeSharedMemory maxkeys
                            else segment env) |},
         before_mmap ++ [sys_mmap shm_size fd])
      else
        (false,
         {| shm_ptr_ := MAP_FAILED; shm_size_ := shm_size;
            shm_name_ := shm_name; shm_fd_ := fd;
            is_creator_ := is_creator; persist_ := persist_ this;
            table_ := table_ this |},
         before_mmap ++ [sys_mmap shm_size fd; sys_close fd]).

(** [CleanupSharedMemory]: the system calls issued; the members are
    left as they are. *)
Definition CleanupSharedMemory (this : Instance) : list syscall :=
  (match shm_ptr_ this with
   | Mapped => [sys_munmap (shm_size_ this)]
   | nullptr | MAP_FAILED => []
   end)
  ++ (if shm_fd_ this =? -1 then [] else [sys_close (shm_fd_ this)])
  ++ (if is_creator_ this
         && negb (bool_decide (shm_name_ this = []))
         && negb (persist_ this)
      then [sys_shm_unlink (shm_name_ this)]
      else []).

(** How the constructor ends. *)
Inductive construction : Type :=
| Constructed
| TypeError
| Error.

(** The default of the [name] option. *)
Definition default_name : std_string :=
  ["n"; "o"; "d"; "e"; "_"; "c"; "a"; "c"; "h"; "e"]%byte.

(** The constructor.  [info] is [None] when no options object is
    passed; otherwise it carries the [name] option, present when it is a
    string, and the other options. *)
Definition construct (env : Answers)
    (info : option (option std_string * Options))
    : construction * Instance * list syscall :=
  match info with
  | None => (TypeError, initial_instance, [])
  | Some (name_option, options) =>
      let name :=
        match name_option with Some n => n | None => default_name end in
      let maxkeys :=
        match maxKeys options with
        | Some n => Uint32Value n
        | None => DEFAULT_MAX_KEYS
        end in
      let persist :=
        match persist options with Some b => b | None => false end in
      match InitializeSharedMemory_posix env initial_instance
              name maxkeys persist with
      | (true, this, calls) => (Constructed, this, calls)
      | (false, this, calls) => (Error, this, calls)
      end
  end.

(** The bytes from the start of the region to the end of the slot
    array of a table. *)
Definition table_span (t : Table) : Z :=
  header_size + max_keys t * slot_size.

End Lifecycle.

(** ** Tables without deleted keys *)

(** Every occupied slot is the one a [Set] of its own key would write:
    the scan of [Set] for the key the slot stores stops at this slot. *)
Definition at_home (sgn : bool) (t : Table) : Prop :=
  forall j s, slots t !! j = Some s -> occupied s = true ->
    exists locked,
      probe (eligible (string_of_chars (key s))) t
        (Hash sgn (string_of_chars (key s)) mod max_keys t)
        (Z.to_nat (max_keys t)) 0
      = (locked, Found (Z.of_nat j) s).

(** A call that deletes no key and passes no key with a NUL byte. *)
Definition keeps_keys (c : call) : Prop :=
  match c with
  | SetCall _ k _ => nul_free k
  | DeleteCall _ => False
  | ClearCall => True
  end.

(** A call on a key other than [k], as C strings; [Clear] is none. *)
Definition other_key (k : std_string) (c : call) : Prop :=
  match c with
  | SetCall _ k' _ => string_of_chars k <> string_of_chars k'
  | DeleteCall k' => string_of_chars k <> string_of_chars k'
  | ClearCall => False
  end.

(** ** Answers of the system used by the examples *)

(** [sizeof(SharedMemoryHeader)] and [sizeof(CacheSlot)] on x86-64
    Linux with glibc. *)
Definition header_size_x86_64 : Z := 56.
Definition slot_size_x86_64 : Z := 376.

(** Every call succeeds and the object is new. *)
Definition answers_fresh : Answers :=
  mkAnswers 3 0 0 0 true (InitializeSharedMemory 0).

(** Every call succeeds and the object exists, holding [table_dup]. *)
Definition answers_attach : Answers :=
  mkAnswers 3 0 808 0 true table_dup.

(** The object is new and [mmap] fails. *)
Definition answers_mmap_fails : Answers :=
  mkAnswers 3 0 0 0 false (InitializeSharedMemory 0).

(** The name of the examples. *)
Definition name_db : std_string := ["d"; "b"]%byte.

(** ** What an instance can address *)

(** The number of slots that lie wholly inside the [shm_size_] bytes the
    instance mapped: slot [i] spans the bytes from
    [header_size + i * slot_size] up to
    [header_size + (i + 1) * slot_size]. *)
Definition mapped_slots (header_size slot_size : Z) (this : Instance) : Z :=
  (shm_size_ this - header_size) / slot_size.

(** The table as the instance addresses it through [header_] and
    [slots_]: the header of the region and the slots inside its own
    mapping.  An access to a later slot leaves the mapping. *)
Definition addressable (header_size slot_size : Z) (this : Instance)
    : option Table :=
  match table_ this with
  | Some t =>
      Some {| max_keys := max_keys t;
              num_entries := num_entries t;
              slots := take (Z.to_nat (mapped_slots header_size slot_size this))
                         (slots t) |}
  | None => None
  end.

(** Every call succeeds and the object exists, created empty with
    capacity 100. *)
Definition answers_attach_100 : Answers :=
  mkAnswers 3 0 37656 0 true (InitializeSharedMemory 100).

(** * Theorems *)

(** ** C strings in fixed buffers: facts *)

Lemma is_nul_true c : is_nul c = true -> c = x00.
Proof. apply Byte.byte_dec_bl. Qed.

Lemma string_of_chars_nul_free s : nul_free (string_of_chars s).
Proof.
  induction s as [|c s IH]; simpl.
  - constructor.
  - destruct (is_nul c) eqn:E; constructor; auto.
Qed.

Lemma string_of_chars_length s :
  (length (string_of_chars s) <= length s)%nat.
Proof.
  induction s as [|c s IH]; simpl; [lia|].
  destruct (is_nul c); simpl; lia.
Qed.

Lemma string_of_chars_stop p r :
  nul_free p -> string_of_chars (p ++ x00 :: r) = p.
Proof.
  induction 1 as [|c p Hc _ IH]; simpl.
  - reflexivity.
  - rewrite Hc, IH. reflexivity.
Qed.

Lemma string_of_chars_id s : nul_free s -> string_of_chars s = s.
Proof.
  induction 1 as [|c p Hc _ IH]; simpl; [reflexivity|].
  rewrite Hc, IH. reflexivity.
Qed.

(** [c_str] begins with the C string of [s] and a NUL. *)
Lemma c_str_split s : exists r, c_str s = string_of_chars s ++ x00 :: r.
Proof.
  unfold c_str. induction s as [|c s [r IH]]; simpl.
  - exists []. reflexivity.
  - destruct (is_nul c) eqn:E.
    + apply is_nul_true in E. subst c. exists (s ++ [x00]). reflexivity.
    + exists r. simpl. rewrite IH. reflexivity.
Qed.

Lemma strncpy_chars_length src n : length (strncpy_chars src n) = n.
Proof.
  revert src. induction n as [|n IH]; intros src; [reflexivity|].
  destruct src as [|c src].
  - apply length_replicate.
  - cbn [strncpy_chars]. destruct (is_nul c).
    + apply length_replicate.
    + simpl. rewrite IH. reflexivity.
Qed.

Lemma strncpy_chars_stop p r n :
  nul_free p -> (length p <= n)%nat ->
  strncpy_chars (p ++ x00 :: r) n = p ++ replicate (n - length p) x00.
Proof.
  intros Hp. revert n. induction Hp as [|c p Hc _ IH]; intros n Hn.
  - simpl. destruct n; [reflexivity|]. reflexivity.
  - simpl in Hn. destruct n as [|n]; [lia|].
    cbn [strncpy_chars app]. rewrite Hc, IH by lia. reflexivity.
Qed.

(** What [Set] leaves in a buffer of [S n] bytes:
    [strncpy(buf, s.c_str(), n); buf[n] = 0]. *)
Lemma stored_padded buf s n :
  length buf = S n -> (length s <= n)%nat ->
  <[n := x00]> (strncpy buf (c_str s) n) = padded (S n) s.
Proof.
  intros Hbuf Hs. unfold strncpy, padded.
  destruct (c_str_split s) as [r ->].
  pose proof (string_of_chars_length s) as Hl.
  pose proof (string_of_chars_nul_free s) as Hf.
  rewrite strncpy_chars_stop by (auto; lia).
  set (p := string_of_chars s) in *.
  assert (Hd : exists c, drop n buf = [c]).
  { assert (length (drop n buf) = 1%nat) as H1 by (rewrite length_drop; lia).
    destruct (drop n buf) as [|c [|]]; simpl in H1; try lia. eauto. }
  destruct Hd as [c ->].
  rewrite insert_app_r_alt; rewrite !length_app, !length_replicate; [|lia].
  replace (n - (length p + (n - length p)))%nat with 0%nat by lia.
  simpl. rewrite <- app_assoc. f_equal.
  replace (S n - length p)%nat with ((n - length p) + 1)%nat by lia.
  rewrite replicate_add. reflexivity.
Qed.

Lemma padded_length n s :
  (length s <= n)%nat -> length (padded n s) = n.
Proof.
  intros H. unfold padded. pose proof (string_of_chars_length s).
  rewrite length_app, length_replicate. lia.
Qed.

Lemma padded_read n s :
  (length s < n)%nat -> string_of_chars (padded n s) = string_of_chars s.
Proof.
  intros H. unfold padded. pose proof (string_of_chars_length s).
  destruct (n - length (string_of_chars s))%nat as [|m] eqn:E; [lia|].
  simpl. apply string_of_chars_stop, string_of_chars_nul_free.
Qed.

(** Two C strings compare equal under [strncmp] exactly when they are
    the same, as long as one of them is shorter than the bound. *)
Lemma strncmp_eq_stop p q r1 r2 n :
  nul_free p -> nul_free q -> (length p < n)%nat ->
  strncmp_eq (p ++ x00 :: r1) (q ++ x00 :: r2) n = true <-> p = q.
Proof.
  intros Hp. revert q n. induction Hp as [|c p Hc _ IH]; intros q n Hq Hn.
  - destruct n as [|n]; [simpl in Hn; lia|].
    destruct Hq as [|d q Hd _]; simpl.
    + split; auto.
    + destruct (Byte.eqb x00 d) eqn:E.
      * apply Byte.byte_dec_bl in E. subst d. discriminate.
      * split; discriminate.
  - destruct n as [|n]; [simpl in Hn; lia|]. simpl in Hn.
    destruct Hq as [|d q Hd Hq]; cbn [strncmp_eq app].
    + destruct (Byte.eqb c x00) eqn:E.
      * apply Byte.byte_dec_bl in E. subst c. discriminate.
      * split; discriminate.
    + destruct (Byte.eqb c d) eqn:E.
      * apply Byte.byte_dec_bl in E. subst d. rewrite Hc.
        rewrite IH by (auto; lia). split; congruence.
      * apply Byte.eqb_false in E. split; [discriminate | congruence].
Qed.

Lemma same_key_padded k k' o v ts :
  (length k' < MAX_KEY_SIZE)%nat ->
  same_key k (mkSlot o (padded MAX_KEY_SIZE k') v ts) = true
  <-> string_of_chars k' = string_of_chars k.
Proof.
  intros Hk. unfold same_key, padded. cbn [key].
  pose proof (string_of_chars_length k') as Hl.
  destruct (c_str_split k) as [r ->].
  destruct (MAX_KEY_SIZE - length (string_of_chars k'))%nat as [|m] eqn:E;
    [lia|].
  cbn [replicate]. apply strncmp_eq_stop;
    auto using string_of_chars_nul_free. lia.
Qed.

(** ** The probe loop *)

Section Probe.

Variables (hit : CacheSlot -> bool) (t : Table) (start_index : Z).

Local Abbreviation pidx := (probe_index t start_index).
Local Abbreviation passed := (passed hit t start_index).

Lemma probe_Found fuel i locked index slot :
  probe hit t start_index fuel i = (locked, Found index slot) ->
  slots t !! Z.to_nat index = Some slot /\ hit slot = true /\
  exists j, i <= j < i + Z.of_nat fuel /\ index = pidx j /\
    locked = pidx <$> seqZ i (j - i + 1) /\
    forall j', i <= j' < j -> passed j'.
Proof.
  revert i locked. induction fuel as [|fuel IH]; intros i locked; simpl.
  - discriminate.
  - fold (pidx i).
    destruct (slots t !! Z.to_nat (pidx i)) as [s|] eqn:Hs;
      [|discriminate].
    destruct (hit s) eqn:Hh.
    + intros [= <- <- <-]. split; [auto|]. split; [auto|].
      exists i. split; [lia|]. split; [reflexivity|]. split.
      * replace (i - i + 1) with 1 by lia. reflexivity.
      * intros j' ?. lia.
    + destruct (probe hit t start_index fuel (i + 1)) as [l r] eqn:Hp.
      intros [= <- ->].
      destruct (IH _ _ Hp) as (Hslot & Hhit & j & Hj & Hidx & Hl & Hpass).
      split; [auto|]. split; [auto|].
      exists j. split; [lia|]. split; [auto|]. split.
      * rewrite (seqZ_cons i) by lia. rewrite fmap_cons. f_equal.
        rewrite Hl. do 2 f_equal; lia.
      * intros j' Hj'. destruct (decide (j' = i)) as [->|].
        -- exists s. auto.
        -- apply Hpass. lia.
Qed.

Lemma probe_Exhausted fuel i locked :
  probe hit t start_index fuel i = (locked, Exhausted) ->
  locked = pidx <$> seqZ i (Z.of_nat fuel) /\
  forall j, i <= j < i + Z.of_nat fuel -> passed j.
Proof.
  revert i locked. induction fuel as [|fuel IH]; intros i locked.
  - simpl. intros [= <-]. split; [reflexivity | intros; lia].
  - cbn [probe]. fold (pidx i).
    destruct (slots t !! Z.to_nat (pidx i)) as [s|] eqn:Hs;
      [|discriminate].
    destruct (hit s) eqn:Hh; [discriminate|].
    destruct (probe hit t start_index fuel (i + 1)) as [l r] eqn:Hp.
    intros [= <- ->]. destruct (IH _ _ Hp) as [Hl Hpass]. split.
    + rewrite (seqZ_cons i) by lia. rewrite fmap_cons. f_equal.
      rewrite Hl. do 2 f_equal; lia.
    + intros j Hj. destruct (decide (j = i)) as [->|].
      * exists s. auto.
      * apply Hpass. lia.
Qed.

Lemma probe_OutOfBounds fuel i locked :
  probe hit t start_index fuel i = (locked, OutOfBounds) ->
  exists j, i <= j < i + Z.of_nat fuel /\
    slots t !! Z.to_nat (pidx j) = None.
Proof.
  revert i locked. induction fuel as [|fuel IH]; intros i locked.
  - discriminate.
  - cbn [probe]. fold (pidx i).
    destruct (slots t !! Z.to_nat (pidx i)) as [s|] eqn:Hs.
    + destruct (hit s); [discriminate|].
      destruct (probe hit t start_index fuel (i + 1)) as [l r] eqn:Hp.
      intros [= <- ->]. destruct (IH _ _ Hp) as (j & Hj & Hn).
      exists j. split; [lia | auto].
    + intros _. exists i. split; [lia | auto].
Qed.

(** The indices locked are an initial part of the probe sequence. *)
Lemma probe_locked_prefix fuel i locked r :
  probe hit t start_index fuel i = (locked, r) ->
  exists n, 0 <= n <= Z.of_nat fuel /\ locked = pidx <$> seqZ i n.
Proof.
  revert i locked r. induction fuel as [|fuel IH]; intros i locked r.
  - intros [= <- <-]. exists 0. split; [lia | reflexivity].
  - cbn [probe]. fold (pidx i).
    destruct (slots t !! Z.to_nat (pidx i)) as [s|].
    + destruct (hit s).
      * intros [= <- <-]. exists 1. split; [lia | reflexivity].
      * destruct (probe hit t start_index fuel (i + 1)) as [l r'] eqn:Hp.
        intros [= <- <-]. destruct (IH _ _ _ Hp) as (n & Hn & ->).
        exists (n + 1). split; [lia|].
        rewrite (seqZ_cons i) by lia. rewrite fmap_cons.
        do 3 f_equal; lia.
    + intros [= <- <-]. exists 1. split; [lia | reflexivity].
Qed.

(** Every index the loop locks is a remainder modulo the capacity. *)
Lemma probe_locked_range fuel i locked r :
  0 < max_keys t ->
  probe hit t start_index fuel i = (locked, r) ->
  Forall (fun index => 0 <= index < max_keys t) locked.
Proof.
  intros Hcap. revert i locked r.
  induction fuel as [|fuel IH]; intros i locked r.
  - intros [= <- <-]. constructor.
  - cbn [probe].
    assert (0 <= (start_index + i) mod max_keys t < max_keys t)
      by (apply Z.mod_pos_bound; lia).
    destruct (slots t !! _) as [s|].
    + destruct (hit s).
      * intros [= <- <-]. repeat constructor; lia.
      * destruct (probe hit t start_index fuel (i + 1)) as [l r'] eqn:Hp.
        intros [= <- <-]. constructor; [lia | eauto].
    + intros [= <- <-]. repeat constructor; lia.
Qed.

(** The probe sequence reaches every index of the table. *)
Lemma probe_index_cover index :
  0 <= index < max_keys t ->
  exists j, 0 <= j < max_keys t /\ pidx j = index.
Proof.
  intros H. exists ((index - start_index) mod max_keys t). split.
  - apply Z.mod_pos_bound. lia.
  - unfold probe_index. rewrite Z.add_mod_idemp_r by lia.
    replace (start_index + (index - start_index)) with index by lia.
    apply Z.mod_small. lia.
Qed.

Hypothesis Hlen : Z.of_nat (length (slots t)) = max_keys t.
Hypothesis Hcap : 0 < max_keys t.

Lemma probe_in_bounds fuel i locked :
  probe hit t start_index fuel i <> (locked, OutOfBounds).
Proof.
  intros H. apply probe_OutOfBounds in H as (j & _ & Hn).
  apply lookup_ge_None in Hn.
  assert (0 <= pidx j < max_keys t)
    by (apply Z.mod_pos_bound; lia).
  lia.
Qed.

(** A full scan that finds nothing has seen every slot. *)
Lemma probe_Exhausted_all locked n (s : CacheSlot) :
  probe hit t start_index (Z.to_nat (max_keys t)) 0 = (locked, Exhausted) ->
  slots t !! n = Some s -> hit s = false.
Proof.
  intros H Hs. apply probe_Exhausted in H as [_ Hpass].
  assert (Hn : 0 <= Z.of_nat n < max_keys t).
  { apply lookup_lt_Some in Hs. lia. }
  destruct (probe_index_cover _ Hn) as (j & Hj & Hidx).
  destruct (Hpass j) as (s' & Hs' & Hh); [lia|].
  rewrite Hidx, Nat2Z.id in Hs'. congruence.
Qed.

(** The three ways a full scan ends. *)
Lemma probe_cases :
  (exists locked index slot,
      probe hit t start_index (Z.to_nat (max_keys t)) 0
      = (locked, Found index slot) /\
      0 <= index < max_keys t /\
      slots t !! Z.to_nat index = Some slot /\ hit slot = true) \/
  (exists locked,
      probe hit t start_index (Z.to_nat (max_keys t)) 0
      = (locked, Exhausted) /\
      locked = pidx <$> seqZ 0 (max_keys t) /\
      forall n s, slots t !! n = Some s -> hit s = false).
Proof.
  destruct (probe hit t start_index (Z.to_nat (max_keys t)) 0)
    as [locked [index slot| |]] eqn:Hp.
  - left. exists locked, index, slot. split; [reflexivity|].
    destruct (probe_Found _ _ _ _ _ Hp) as (Hs & Hh & j & _ & -> & _).
    split; [apply Z.mod_pos_bound; lia | auto].
  - right. exists locked. split; [reflexivity|]. split.
    + apply probe_Exhausted in Hp as [-> _]. rewrite Z2Nat.id by lia.
      reflexivity.
    + intros n s. eapply probe_Exhausted_all; eauto.
  - exfalso. eapply probe_in_bounds; eauto.
Qed.

(** A successful full scan stops at the first turn whose slot passes
    the test, having locked the probe indices up to that turn. *)
Lemma probe_Found_first locked index slot :
  probe hit t start_index (Z.to_nat (max_keys t)) 0
  = (locked, Found index slot) ->
  exists j, 0 <= j < max_keys t /\ index = pidx j /\
    locked = probe_trace t start_index (j + 1) /\
    forall j', 0 <= j' < j -> passed j'.
Proof.
  intros Hp. apply probe_Found in Hp as (_ & _ & j & Hj & -> & -> & Hpass).
  exists j. split; [lia|]. split; [reflexivity|]. split.
  - unfold probe_trace. do 2 f_equal. lia.
  - exact Hpass.
Qed.

End Probe.

(** After the slot a first scan chose is rewritten so that a second test
    holds on it, a scan for the second test stops at the same slot,
    provided the second test fails wherever the first one did. *)
Lemma probe_after_write hit1 hit2 t n start_index fuel i locked index slot new :
  (forall s, hit1 s = false -> hit2 s = false) ->
  hit2 new = true ->
  probe hit1 t start_index fuel i = (locked, Found index slot) ->
  probe hit2
    {| max_keys := max_keys t; num_entries := n;
       slots := <[Z.to_nat index := new]> (slots t) |}
    start_index fuel i
  = (locked, Found index new).
Proof.
  intros Himp Hnew. revert i locked.
  induction fuel as [|fuel IH]; intros i locked Hp; [discriminate|].
  pose proof (probe_Found _ _ _ _ _ _ _ _ Hp) as (Hslot & Hhit & _).
  cbn [probe max_keys slots] in *.
  destruct (slots t !! Z.to_nat ((start_index + i) mod max_keys t))
    as [s|] eqn:Hs; [|discriminate].
  destruct (hit1 s) eqn:Hh.
  - injection Hp as <- <- <-.
    rewrite list_lookup_insert_eq by (eapply lookup_lt_Some; eauto).
    rewrite Hnew. reflexivity.
  - destruct (probe hit1 t start_index fuel (i + 1)) as [l r] eqn:Hp'.
    injection Hp as <- ->.
    destruct (decide (Z.to_nat index
                      = Z.to_nat ((start_index + i) mod max_keys t)))
      as [E|E].
    + rewrite <- E in Hs. congruence.
    + rewrite list_lookup_insert_ne by auto. rewrite Hs.
      rewrite (Himp _ Hh). rewrite (IH _ _ Hp'). reflexivity.
Qed.

(** ** Slots and counting *)

Lemma slot_ok_wf s : slot_ok s -> slot_wf s.
Proof.
  unfold slot_ok, slot_wf. destruct (occupied s).
  - intros (k & v & Hk & Hv & -> & ->).
    rewrite !padded_length by lia. auto.
  - intros [-> ->]. rewrite !length_replicate. auto.
Qed.

Lemma table_inv_wf t : table_inv t -> wf t.
Proof.
  intros (_ & Hlen & _ & Hok). split; [exact Hlen|].
  eapply Forall_impl; [exact Hok | exact slot_ok_wf].
Qed.

Lemma write_slot_eq now k v slot :
  slot_wf slot ->
  (length k < MAX_KEY_SIZE)%nat -> (length v < MAX_VALUE_SIZE)%nat ->
  write_slot now k v slot
  = mkSlot true (padded MAX_KEY_SIZE k) (padded MAX_VALUE_SIZE v) now.
Proof.
  intros [Hkey Hval] Hk Hv. unfold write_slot. f_equal.
  - apply (stored_padded _ _ 63); [exact Hkey|]. unfold MAX_KEY_SIZE in Hk. lia.
  - apply (stored_padded _ _ 255); [exact Hval|].
    unfold MAX_VALUE_SIZE in Hv. lia.
Qed.

Lemma memset_all buf c n : length buf = n -> memset buf c n = replicate n c.
Proof.
  intros H. unfold memset. rewrite drop_ge by lia. apply app_nil_r.
Qed.

Lemma wipe_slot_eq slot :
  slot_wf slot ->
  wipe_slot slot
  = mkSlot false (replicate MAX_KEY_SIZE x00) (replicate MAX_VALUE_SIZE x00)
      (timestamp slot).
Proof.
  intros [Hkey Hval]. unfold wipe_slot. rewrite !memset_all by auto.
  reflexivity.
Qed.

Lemma write_slot_ok now k v slot :
  slot_wf slot ->
  (length k < MAX_KEY_SIZE)%nat -> (length v < MAX_VALUE_SIZE)%nat ->
  slot_ok (write_slot now k v slot).
Proof.
  intros. rewrite write_slot_eq by auto. exists k, v. auto.
Qed.

Lemma wipe_slot_ok slot : slot_wf slot -> slot_ok (wipe_slot slot).
Proof. intros. rewrite wipe_slot_eq by auto. split; reflexivity. Qed.

Lemma holds_write_slot now k v slot :
  slot_wf slot ->
  (length k < MAX_KEY_SIZE)%nat -> (length v < MAX_VALUE_SIZE)%nat ->
  holds k (write_slot now k v slot) = true.
Proof.
  intros. rewrite write_slot_eq by auto. unfold holds. cbn [occupied andb].
  apply same_key_padded; auto.
Qed.

Lemma not_eligible_not_holds k s : eligible k s = false -> holds k s = false.
Proof.
  unfold eligible, holds. destruct (occupied s), (same_key k s); auto.
Qed.

Lemma holds_occupied k s : holds k s = true -> occupied s = true.
Proof. unfold holds. destruct (occupied s); auto. Qed.

Lemma count_occupied_le sl : (count_occupied sl <= length sl)%nat.
Proof.
  induction sl as [|s sl IH]; simpl; [lia|]. destruct (occupied s); lia.
Qed.

Lemma count_occupied_insert sl i s s' :
  sl !! i = Some s ->
  (count_occupied (<[i := s']> sl) + (if occupied s then 1 else 0)
   = count_occupied sl + (if occupied s' then 1 else 0))%nat.
Proof.
  revert i. induction sl as [|x sl IH]; intros [|i] H; try discriminate.
  - injection H as ->. simpl. lia.
  - simpl in *. specialize (IH _ H). lia.
Qed.

Lemma count_occupied_free sl :
  (count_occupied sl < length sl)%nat ->
  exists i s, sl !! i = Some s /\ occupied s = false.
Proof.
  induction sl as [|x sl IH]; simpl; [lia|].
  destruct (occupied x) eqn:E.
  - intros H. destruct IH as (i & s & Hs & Ho); [lia|].
    exists (S i), s. auto.
  - intros _. exists 0%nat, x. auto.
Qed.

Lemma count_occupied_full sl i s :
  count_occupied sl = length sl -> sl !! i = Some s -> occupied s = true.
Proof.
  revert i. induction sl as [|x sl IH]; intros i Hc Hs; [discriminate|].
  simpl in Hc. pose proof (count_occupied_le sl).
  destruct (occupied x) eqn:E; [|lia].
  destruct i as [|i]; simpl in Hs.
  - congruence.
  - apply (IH i); [lia | auto].
Qed.

Lemma count_occupied_none sl :
  Forall (fun s => occupied s = false) sl -> count_occupied sl = 0%nat.
Proof. induction 1 as [|s sl Hs _ IH]; simpl; [|rewrite Hs]; auto. Qed.

Lemma Clear_loop_spec fuel sl i :
  0 <= i -> (Z.to_nat i + fuel <= length sl)%nat ->
  exists sl',
    Clear_loop sl fuel i = Some (sl', seqZ i (Z.of_nat fuel)) /\
    length sl' = length sl /\
    forall j, sl' !! j
              = if decide (Z.to_nat i <= j < Z.to_nat i + fuel)%nat
                then cleared <$> sl !! j else sl !! j.
Proof.
  revert sl i. induction fuel as [|fuel IH]; intros sl i Hi Hlen.
  - exists sl. split; [reflexivity|]. split; [reflexivity|].
    intros j. case_decide; [lia | reflexivity].
  - cbn [Clear_loop].
    destruct (sl !! Z.to_nat i) as [s|] eqn:Hs.
    2:{ apply lookup_ge_None in Hs. lia. }
    fold (cleared s).
    destruct (IH (<[Z.to_nat i := cleared s]> sl) (i + 1))
      as (sl' & -> & Hl & Hj).
    { lia. } { rewrite length_insert. lia. }
    exists sl'. split.
    { rewrite (seqZ_cons i) by lia. repeat f_equal; lia. }
    split; [rewrite Hl; apply length_insert|].
    intros j. rewrite Hj.
    replace (Z.to_nat (i + 1)) with (S (Z.to_nat i)) by lia.
    destruct (decide (j = Z.to_nat i)) as [->|Hne].
    + rewrite list_lookup_insert_eq by (apply lookup_lt_Some in Hs; lia).
      rewrite Hs. repeat case_decide; try lia. reflexivity.
    + rewrite list_lookup_insert_ne by auto.
      repeat case_decide; try lia; reflexivity.
Qed.

(** On a table of the declared layout [Clear] returns, having visited
    every slot once in index order. *)
Lemma Clear_spec t :
  0 <= max_keys t -> Z.of_nat (length (slots t)) = max_keys t ->
  Clear t
  = Done tt {| max_keys := max_keys t; num_entries := 0;
               slots := cleared <$> slots t |}
      (seqZ 0 (max_keys t)).
Proof.
  intros Hcap Hlen. unfold Clear.
  destruct (Clear_loop_spec (Z.to_nat (max_keys t)) (slots t) 0)
    as (sl' & -> & Hl & Hj); [lia | lia |].
  rewrite Z2Nat.id by lia. do 2 f_equal.
  apply list_eq. intros j. rewrite Hj, list_lookup_fmap.
  case_decide; [reflexivity|].
  rewrite lookup_ge_None_2 by lia. reflexivity.
Qed.

Lemma cleared_ok s :
  slot_wf s -> slot_ok s ->
  slot_ok (cleared s) /\ occupied (cleared s) = false.
Proof.
  intros Hwf Hok. unfold cleared. destruct (occupied s) eqn:E.
  - split; [apply wipe_slot_ok; auto | reflexivity].
  - auto.
Qed.

(** ** The operations on tables of the declared layout *)

Section EngineFacts.

(** Signedness of plain [char]; the facts below hold for either. *)
Variable cs : bool.

Lemma key_guard_false (k : std_string) :
  (length k < MAX_KEY_SIZE)%nat -> (MAX_KEY_SIZE <=? length k)%nat = false.
Proof. intros. apply Nat.leb_gt. lia. Qed.

Lemma value_guard_false (v : std_string) :
  (length v < MAX_VALUE_SIZE)%nat ->
  (MAX_VALUE_SIZE <=? length v)%nat = false.
Proof. intros. apply Nat.leb_gt. lia. Qed.

Lemma Set_rejects now k v t :
  (MAX_KEY_SIZE <= length k)%nat \/ (MAX_VALUE_SIZE <= length v)%nat ->
  Set_ cs now k v t = Done false t [].
Proof.
  intros H. unfold Set_.
  destruct H as [H|H]; apply Nat.leb_le in H; rewrite H;
    [|rewrite orb_true_r]; reflexivity.
Qed.

(** A [Set] that returned [true] got past the length guard. *)
Lemma Set_true_lengths now k v t t' locked :
  Set_ cs now k v t = Done true t' locked ->
  (length k < MAX_KEY_SIZE)%nat /\ (length v < MAX_VALUE_SIZE)%nat.
Proof.
  unfold Set_.
  destruct (MAX_KEY_SIZE <=? length k)%nat eqn:Ek;
    [discriminate|].
  destruct (MAX_VALUE_SIZE <=? length v)%nat eqn:Ev;
    [discriminate|].
  apply Nat.leb_gt in Ek, Ev. auto.
Qed.

Lemma Set_scan now k v t :
  (length k < MAX_KEY_SIZE)%nat -> (length v < MAX_VALUE_SIZE)%nat ->
  max_keys t <> 0 ->
  Set_ cs now k v t
  = match probe (eligible k) t (Hash cs k mod max_keys t)
            (Z.to_nat (max_keys t)) 0 with
    | (locked, Found index slot) =>
        Done true
          {| max_keys := max_keys t;
             num_entries := if negb (occupied slot)
                            then (num_entries t + 1) mod SIZE_MOD
                            else num_entries t;
             slots := <[Z.to_nat index := write_slot now k v slot]>
                        (slots t) |}
          locked
    | (locked, Exhausted) => Done false t locked
    | (_, OutOfBounds) => Undefined
    end.
Proof.
  intros Hk Hv Hc. unfold Set_.
  rewrite key_guard_false, value_guard_false by auto.
  apply Z.eqb_neq in Hc. rewrite Hc. reflexivity.
Qed.

Lemma Get_scan k t :
  (length k < MAX_KEY_SIZE)%nat -> max_keys t <> 0 ->
  Get cs k t
  = match probe (holds k) t (Hash cs k mod max_keys t)
            (Z.to_nat (max_keys t)) 0 with
    | (locked, Found index slot) =>
        Done (Some (string_of_chars (value slot))) t locked
    | (locked, Exhausted) => Done None t locked
    | (_, OutOfBounds) => Undefined
    end.
Proof.
  intros Hk Hc. unfold Get. rewrite key_guard_false by auto.
  apply Z.eqb_neq in Hc. rewrite Hc. reflexivity.
Qed.

Lemma Delete_scan k t :
  (length k < MAX_KEY_SIZE)%nat -> max_keys t <> 0 ->
  Delete cs k t
  = match probe (holds k) t (Hash cs k mod max_keys t)
            (Z.to_nat (max_keys t)) 0 with
    | (locked, Found index slot) =>
        Done true
          {| max_keys := max_keys t;
             num_entries := (num_entries t - 1) mod SIZE_MOD;
             slots := <[Z.to_nat index := wipe_slot slot]> (slots t) |}
          locked
    | (locked, Exhausted) => Done false t locked
    | (_, OutOfBounds) => Undefined
    end.
Proof.
  intros Hk Hc. unfold Delete. rewrite key_guard_false by auto.
  apply Z.eqb_neq in Hc. rewrite Hc. reflexivity.
Qed.

Lemma Has_scan k t :
  (length k < MAX_KEY_SIZE)%nat -> max_keys t <> 0 ->
  Has cs k t
  = match probe (holds k) t (Hash cs k mod max_keys t)
            (Z.to_nat (max_keys t)) 0 with
    | (locked, Found index slot) => Done true t locked
    | (locked, Exhausted) => Done false t locked
    | (_, OutOfBounds) => Undefined
    end.
Proof.
  intros Hk Hc. unfold Has. rewrite key_guard_false by auto.
  apply Z.eqb_neq in Hc. rewrite Hc. reflexivity.
Qed.

(** *** Invariants of reachable tables *)

Lemma InitializeSharedMemory_inv n :
  0 <= n < UINT32_MOD -> table_inv (InitializeSharedMemory n).
Proof.
  intros Hn. unfold table_inv, InitializeSharedMemory.
  cbn [max_keys num_entries slots].
  split; [exact Hn|]. split; [rewrite length_replicate; lia|]. split.
  - rewrite count_occupied_none; [reflexivity|].
    apply Forall_replicate. reflexivity.
  - apply Forall_replicate. split; reflexivity.
Qed.

Lemma Set_inv now k v t b t' locked :
  table_inv t -> Set_ cs now k v t = Done b t' locked -> table_inv t'.
Proof.
  intros Hinv. pose proof Hinv as (Hcap & Hlen & Hnum & Hok).
  unfold Set_.
  destruct (MAX_KEY_SIZE <=? length k)%nat eqn:Ek;
    [intros [= <- <- <-]; exact Hinv|].
  destruct (MAX_VALUE_SIZE <=? length v)%nat eqn:Ev;
    [intros [= <- <- <-]; exact Hinv|].
  apply Nat.leb_gt in Ek, Ev. cbn [orb].
  destruct (max_keys t =? 0); [discriminate|].
  destruct (probe _ t _ _ 0) as [l [index slot| |]] eqn:Hp;
    [|intros [= <- <- <-]; exact Hinv|discriminate].
  intros [= <- <- <-].
  apply probe_Found in Hp as (Hslot & _ & _).
  pose proof (Forall_lookup_1 _ _ _ _ Hok Hslot) as Hsok.
  pose proof (count_occupied_insert _ _ _ (write_slot now k v slot) Hslot)
    as Hcount.
  pose proof (count_occupied_le
                (<[Z.to_nat index := write_slot now k v slot]> (slots t)))
    as Hle.
  rewrite length_insert in Hle.
  unfold table_inv. cbn [max_keys num_entries slots occupied write_slot] in *.
  split; [exact Hcap|]. split; [rewrite length_insert; exact Hlen|]. split.
  - destruct (occupied slot); cbn [negb].
    + lia.
    + unfold SIZE_MOD, UINT32_MOD in *. rewrite Z.mod_small; lia.
  - apply Forall_insert; [exact Hok|].
    apply write_slot_ok; auto using slot_ok_wf; lia.
Qed.

Lemma Delete_inv k t b t' locked :
  table_inv t -> Delete cs k t = Done b t' locked -> table_inv t'.
Proof.
  intros Hinv. pose proof Hinv as (Hcap & Hlen & Hnum & Hok).
  unfold Delete.
  destruct (MAX_KEY_SIZE <=? length k)%nat;
    [intros [= <- <- <-]; exact Hinv|].
  destruct (max_keys t =? 0); [discriminate|].
  destruct (probe _ t _ _ 0) as [l [index slot| |]] eqn:Hp;
    [|intros [= <- <- <-]; exact Hinv|discriminate].
  intros [= <- <- <-].
  apply probe_Found in Hp as (Hslot & Hhit & _).
  apply holds_occupied in Hhit.
  pose proof (Forall_lookup_1 _ _ _ _ Hok Hslot) as Hsok.
  pose proof (count_occupied_insert _ _ _ (wipe_slot slot) Hslot) as Hcount.
  pose proof (count_occupied_le (slots t)) as Hle.
  rewrite Hhit in Hcount.
  unfold table_inv. cbn [max_keys num_entries slots occupied wipe_slot] in *.
  split; [exact Hcap|]. split; [rewrite length_insert; exact Hlen|]. split.
  - unfold SIZE_MOD, UINT32_MOD in *. rewrite Z.mod_small; lia.
  - apply Forall_insert; [exact Hok|].
    apply wipe_slot_ok; auto using slot_ok_wf.
Qed.

Lemma Clear_inv t t' locked :
  table_inv t -> Clear t = Done tt t' locked ->
  table_inv t' /\ Forall (fun s => occupied s = false) (slots t').
Proof.
  intros (Hcap & Hlen & Hnum & Hok).
  rewrite Clear_spec by (auto; lia). intros [= <- <-].
  assert (Hall : Forall (fun s => slot_ok s /\ occupied s = false)
                   (cleared <$> slots t)).
  { apply Forall_fmap. eapply Forall_impl; [exact Hok|].
    intros s Hs. apply cleared_ok; auto using slot_ok_wf. }
  split.
  - unfold table_inv. cbn [max_keys num_entries slots].
    split; [exact Hcap|]. split; [rewrite length_fmap; exact Hlen|]. split.
    + rewrite count_occupied_none; [reflexivity|].
      eapply Forall_impl; [exact Hall|]. intros s [_ H]. exact H.
    + eapply Forall_impl; [exact Hall|]. intros s [H _]. exact H.
  - cbn [slots]. eapply Forall_impl; [exact Hall|]. intros s [_ H]. exact H.
Qed.

Lemma reachable_inv t : reachable cs t -> table_inv t.
Proof.
  induction 1 as [n Hn|t now k v b t' l _ IH H|t k b t' l _ IH H
                 |t t' l _ IH H].
  - apply InitializeSharedMemory_inv. exact Hn.
  - eapply Set_inv; eauto.
  - eapply Delete_inv; eauto.
  - eapply Clear_inv; eauto.
Qed.

(** *** Reading back what [Set] wrote *)

(** After a successful [Set], [Get] of the same key stops at the slot
    that was written. *)
Lemma Set_then_Get now k v t t' locked :
  wf t ->
  Set_ cs now k v t = Done true t' locked ->
  Get cs k t' = Done (Some (string_of_chars v)) t' locked.
Proof.
  intros [_ Hwf] HSet.
  destruct (Set_true_lengths _ _ _ _ _ _ HSet) as [Hk Hv].
  assert (Hc : max_keys t <> 0).
  { intros E. unfold Set_ in HSet.
    rewrite key_guard_false, value_guard_false, E in HSet by auto.
    discriminate. }
  rewrite Set_scan in HSet by auto.
  destruct (probe _ t _ _ 0) as [l [index slot| |]] eqn:Hp;
    try discriminate.
  injection HSet as <- <-.
  pose proof (probe_Found _ _ _ _ _ _ _ _ Hp) as (Hslot & _ & _).
  pose proof (Forall_lookup_1 _ _ _ _ Hwf Hslot) as Hswf.
  rewrite Get_scan by auto. cbn [max_keys].
  rewrite (probe_after_write (eligible k) (holds k) t _ _ _ _ _ _ _
             (write_slot now k v slot)
             (not_eligible_not_holds k)
             (holds_write_slot now k v slot Hswf Hk Hv) Hp).
  rewrite write_slot_eq by auto. cbn [value].
  rewrite padded_read by auto. reflexivity.
Qed.

(** C4, as the code has it: after a [Set] that returned [true], a [Get]
    of the same key on the resulting table stops at the slot [Set]
    wrote (it locks the same slots) and returns the stored value, which
    is [v] up to its first NUL byte; this is [v] itself when [v] holds
    no NUL byte. *)
Theorem Get_after_Set now k v t t' locked :
  wf t ->
  Set_ cs now k v t = Done true t' locked ->
  Get cs k t' = Done (Some (string_of_chars v)) t' locked /\
  (nul_free v -> Get cs k t' = Done (Some v) t' locked).
Proof.
  intros Hwf HSet. pose proof (Set_then_Get _ _ _ _ _ _ Hwf HSet) as HGet.
  split; [exact HGet|].
  intros Hv. rewrite HGet, (string_of_chars_id v Hv). reflexivity.
Qed.

(** *** The length guard of [Set] *)

(** C5: a key of [MAX_KEY_SIZE] bytes or more, or a value of
    [MAX_VALUE_SIZE] bytes or more, makes [Set] return [false] with the
    table (every slot and the counter) as it was and no slot locked; a
    key of exactly [MAX_KEY_SIZE - 1] bytes with a value of exactly
    [MAX_VALUE_SIZE - 1] bytes passes the guard: on every table that has
    a free slot [Set] returns [true], and the key and the value are
    stored whole ([Get] reads the value back, all of its 255 bytes when
    it holds no NUL byte). *)
Theorem Set_length_guard :
  (forall now k v t,
      (MAX_KEY_SIZE <= length k)%nat \/ (MAX_VALUE_SIZE <= length v)%nat ->
      Set_ cs now k v t = Done false t []) /\
  (forall now k v t,
      length k = (MAX_KEY_SIZE - 1)%nat ->
      length v = (MAX_VALUE_SIZE - 1)%nat ->
      wf t -> 0 < max_keys t ->
      (exists i s, slots t !! i = Some s /\ occupied s = false) ->
      exists t' locked,
        Set_ cs now k v t = Done true t' locked /\
        Get cs k t' = Done (Some (string_of_chars v)) t' locked /\
        (nul_free v -> string_of_chars v = v)).
Proof.
  split; [exact Set_rejects|].
  intros now k v t Hk Hv Hwf Hcap (i & s & Hs & Hfree).
  pose proof Hwf as [Hlen _].
  assert (exists t' locked, Set_ cs now k v t = Done true t' locked)
    as (t' & locked & HSet).
  { rewrite Set_scan by (unfold MAX_KEY_SIZE, MAX_VALUE_SIZE in *; lia).
    destruct (probe_cases (eligible k) t (Hash cs k mod max_keys t) Hlen Hcap)
      as [(l & index & slot & -> & _)|(l & _ & _ & Hnone)].
    - eauto.
    - specialize (Hnone _ _ Hs). unfold eligible in Hnone.
      rewrite Hfree in Hnone. discriminate. }
  exists t', locked. split; [exact HSet|]. split.
  - eapply Set_then_Get; eauto.
  - apply string_of_chars_id.
Qed.

(** *** Clear *)

(** A table without occupied slots holds no key. *)
Lemma Has_all_free k t :
  table_inv t -> Forall (fun s => occupied s = false) (slots t) ->
  0 < max_keys t ->
  exists locked, Has cs k t = Done false t locked.
Proof.
  intros (_ & Hlen & _ & _) Hfree Hcap.
  destruct (le_lt_dec MAX_KEY_SIZE (length k)) as [Hk|Hk].
  - unfold Has. apply Nat.leb_le in Hk. rewrite Hk. eauto.
  - rewrite Has_scan by (auto; lia).
    destruct (probe_cases (holds k) t (Hash cs k mod max_keys t) Hlen Hcap)
      as [(l & index & slot & -> & _ & Hs & Hh)|(l & -> & _)].
    + apply holds_occupied in Hh.
      pose proof (Forall_lookup_1 _ _ _ _ Hfree Hs) as Hf. cbn in Hf.
      congruence.
    + eauto.
Qed.

(** A key that is found lives in a table with at least one slot. *)
Lemma Has_true_capacity k t locked :
  table_inv t -> Has cs k t = Done true t locked -> 0 < max_keys t.
Proof.
  intros (Hcap & _) H. unfold Has in H.
  destruct (MAX_KEY_SIZE <=? length k)%nat; [discriminate|].
  destruct (max_keys t =? 0) eqn:E; [discriminate|].
  apply Z.eqb_neq in E. lia.
Qed.

(** C9: on a reachable table [Clear] returns, having locked every slot
    once in index order; the table it leaves has the capacity and the
    number of slots of the table before, and in it [Size] is 0 and every
    slot of the table before is, at its index, unoccupied with an
    all-zero key buffer and an all-zero value buffer (its timestamp is
    kept); so every slot is unoccupied and zeroed, and [Has] returns
    [false] for every key that [Has] found before the call. *)
Theorem Clear_empties t :
  reachable cs t ->
  exists t' locked,
    Clear t = Done tt t' locked /\
    locked = seqZ 0 (max_keys t) /\
    max_keys t' = max_keys t /\
    length (slots t') = length (slots t) /\
    Size t' = 0 /\
    (forall i s, slots t !! i = Some s ->
       exists s', slots t' !! i = Some s' /\
                  occupied s' = false /\
                  key s' = replicate MAX_KEY_SIZE x00 /\
                  value s' = replicate MAX_VALUE_SIZE x00 /\
                  timestamp s' = timestamp s) /\
    Forall (fun s => occupied s = false /\
                     key s = replicate MAX_KEY_SIZE x00 /\
                     value s = replicate MAX_VALUE_SIZE x00) (slots t') /\
    forall k locked0,
      Has cs k t = Done true t locked0 ->
      exists locked1, Has cs k t' = Done false t' locked1.
Proof.
  intros Hr. pose proof (reachable_inv _ Hr) as Hinv.
  pose proof Hinv as (Hcap & Hlen & _ & _).
  pose proof (Clear_spec t (proj1 Hcap) Hlen) as HC.
  destruct (Clear_inv _ _ _ Hinv HC) as [Hinv' Hfree].
  assert (Hzero :
    Forall (fun s => occupied s = false /\
                     key s = replicate MAX_KEY_SIZE x00 /\
                     value s = replicate MAX_VALUE_SIZE x00)
      (cleared <$> slots t)).
  { destruct Hinv' as (_ & _ & _ & Hok).
    apply Forall_forall. intros s Hs.
    pose proof (proj1 (Forall_forall _ _) Hok s Hs) as Hsok.
    pose proof (proj1 (Forall_forall _ _) Hfree s Hs) as Hsfree.
    cbn in Hsfree. unfold slot_ok in Hsok. rewrite Hsfree in Hsok. tauto. }
  eexists _, _. split; [exact HC|]. split; [reflexivity|].
  split; [reflexivity|]. cbn [slots].
  split; [apply length_fmap|]. split; [reflexivity|]. split; [|split].
  - intros i s Hs. exists (cleared s).
    assert (Hs' : (cleared <$> slots t) !! i = Some (cleared s))
      by (rewrite list_lookup_fmap, Hs; reflexivity).
    split; [exact Hs'|].
    destruct (Forall_lookup_1 _ _ _ _ Hzero Hs') as (Ho & Hk & Hv).
    split; [exact Ho|]. split; [exact Hk|]. split; [exact Hv|].
    unfold cleared, wipe_slot. destruct (occupied s); reflexivity.
  - exact Hzero.
  - intros k l0 HH. apply Has_all_free; auto.
    cbn [max_keys]. eapply Has_true_capacity; eauto.
Qed.

(** *** Slot indices *)

Lemma in_bounds_range t locked :
  Z.of_nat (length (slots t)) = max_keys t ->
  Forall (fun index => 0 <= index < max_keys t) locked ->
  in_bounds t locked.
Proof.
  intros Hlen H. eapply Forall_impl; [exact H|].
  intros index Hi. cbn beta in Hi. split; [exact Hi|].
  apply lookup_lt_is_Some. lia.
Qed.

Lemma seqZ_range n : Forall (fun index => 0 <= index < n) (seqZ 0 n).
Proof. apply Forall_forall. intros x Hx. apply elem_of_seqZ in Hx. lia. Qed.

Lemma Keys_loop_total t fuel i :
  0 <= i -> (Z.to_nat i + fuel <= length (slots t))%nat ->
  exists keys, Keys_loop t fuel i = Some (keys, seqZ i (Z.of_nat fuel)).
Proof.
  revert i. induction fuel as [|fuel IH]; intros i Hi Hlen.
  - exists []. reflexivity.
  - cbn [Keys_loop].
    destruct (slots t !! Z.to_nat i) as [s|] eqn:Hs.
    2:{ apply lookup_ge_None in Hs. lia. }
    destruct (IH (i + 1)) as [keys ->]; [lia | lia |].
    eexists. rewrite (seqZ_cons i) by lia. repeat f_equal; lia.
Qed.

Lemma Entries_loop_total t fuel i :
  0 <= i -> (Z.to_nat i + fuel <= length (slots t))%nat ->
  exists entries,
    Entries_loop t fuel i = Some (entries, seqZ i (Z.of_nat fuel)).
Proof.
  revert i. induction fuel as [|fuel IH]; intros i Hi Hlen.
  - exists []. reflexivity.
  - cbn [Entries_loop].
    destruct (slots t !! Z.to_nat i) as [s|] eqn:Hs.
    2:{ apply lookup_ge_None in Hs. lia. }
    destruct (IH (i + 1)) as [entries ->]; [lia | lia |].
    eexists. rewrite (seqZ_cons i) by lia. repeat f_equal; lia.
Qed.

(** The common end of the four proofs below: the operation has been
    unfolded and its guard passed. *)
Ltac scan_defined Hlen Hcap :=
  destruct (max_keys _ =? 0) eqn:?E; [apply Z.eqb_eq in E; lia|];
  match goal with
  | |- context [probe ?hit ?t ?s ?fuel 0] =>
      let Hp := fresh "Hp" in
      let Hb := fresh "Hb" in
      let l := fresh "l" in
      let r := fresh "r" in
      let n := fresh "n" in
      let Hn := fresh "Hn" in
      destruct (probe hit t s fuel 0) as [l r] eqn:Hp;
      pose proof (in_bounds_range _ _ Hlen
                    (probe_locked_range _ _ _ _ _ _ _ Hcap Hp)) as Hb;
      destruct (probe_locked_prefix _ _ _ _ _ _ _ Hp) as (n & Hn & ->);
      destruct r;
      [ | | exfalso; eapply probe_in_bounds; eauto ];
      eexists _, _, n; (split; [lia|]); (split; [reflexivity | exact Hb])
  end.

Lemma Set_defined now k v t :
  wf t -> 0 < max_keys t ->
  exists b t' n, 0 <= n <= max_keys t /\
    Set_ cs now k v t
    = Done b t' (probe_trace t (Hash cs k mod max_keys t) n) /\
    in_bounds t (probe_trace t (Hash cs k mod max_keys t) n).
Proof.
  intros [Hlen _] Hcap. unfold Set_.
  destruct (_ || _).
  { exists false, t, 0. split; [lia|]. split; [reflexivity | constructor]. }
  scan_defined Hlen Hcap.
Qed.

Lemma Get_defined k t :
  wf t -> 0 < max_keys t ->
  exists r t' n, 0 <= n <= max_keys t /\
    Get cs k t = Done r t' (probe_trace t (Hash cs k mod max_keys t) n) /\
    in_bounds t (probe_trace t (Hash cs k mod max_keys t) n).
Proof.
  intros [Hlen _] Hcap. unfold Get.
  destruct (_ <=? _)%nat.
  { exists None, t, 0. split; [lia|]. split; [reflexivity | constructor]. }
  scan_defined Hlen Hcap.
Qed.

Lemma Delete_defined k t :
  wf t -> 0 < max_keys t ->
  exists b t' n, 0 <= n <= max_keys t /\
    Delete cs k t = Done b t' (probe_trace t (Hash cs k mod max_keys t) n) /\
    in_bounds t (probe_trace t (Hash cs k mod max_keys t) n).
Proof.
  intros [Hlen _] Hcap. unfold Delete.
  destruct (_ <=? _)%nat.
  { exists false, t, 0. split; [lia|]. split; [reflexivity | constructor]. }
  scan_defined Hlen Hcap.
Qed.

Lemma Has_defined k t :
  wf t -> 0 < max_keys t ->
  exists b t' n, 0 <= n <= max_keys t /\
    Has cs k t = Done b t' (probe_trace t (Hash cs k mod max_keys t) n) /\
    in_bounds t (probe_trace t (Hash cs k mod max_keys t) n).
Proof.
  intros [Hlen _] Hcap. unfold Has.
  destruct (_ <=? _)%nat.
  { exists false, t, 0. split; [lia|]. split; [reflexivity | constructor]. }
  scan_defined Hlen Hcap.
Qed.

(** X27: on a table whose slot array holds exactly [max_keys] slots
    (as the creator's does) and whose stored capacity [max_keys] is at
    least 1, the start index [hash mod max_keys] is below [max_keys]; [Set], [Get], [Delete] and [Has] are defined (no
    remainder by zero) and the indices they lock are the first [n] of
    the probe sequence [(start_index + i) mod max_keys], [n <= max_keys],
    each below [max_keys] and addressing a slot of the array; [Keys],
    [Entries] and [Clear] lock exactly the loop indices
    [0 .. max_keys - 1], all of them in the array.  The constructor does
    not enforce the precondition: with [maxKeys = 0] it builds a table
    of capacity 0, on which [Set], [Get], [Delete] and [Has] of an
    accepted key compute a remainder by zero. *)
Theorem slot_indices_in_bounds :
  (forall t, wf t -> 1 <= max_keys t ->
     (forall k, 0 <= Hash cs k mod max_keys t < max_keys t) /\
     (forall now k v, exists b t' n, 0 <= n <= max_keys t /\
         Set_ cs now k v t
         = Done b t' (probe_trace t (Hash cs k mod max_keys t) n) /\
         in_bounds t (probe_trace t (Hash cs k mod max_keys t) n)) /\
     (forall k, exists r t' n, 0 <= n <= max_keys t /\
         Get cs k t = Done r t' (probe_trace t (Hash cs k mod max_keys t) n) /\
         in_bounds t (probe_trace t (Hash cs k mod max_keys t) n)) /\
     (forall k, exists b t' n, 0 <= n <= max_keys t /\
         Delete cs k t
         = Done b t' (probe_trace t (Hash cs k mod max_keys t) n) /\
         in_bounds t (probe_trace t (Hash cs k mod max_keys t) n)) /\
     (forall k, exists b t' n, 0 <= n <= max_keys t /\
         Has cs k t = Done b t' (probe_trace t (Hash cs k mod max_keys t) n) /\
         in_bounds t (probe_trace t (Hash cs k mod max_keys t) n)) /\
     (exists keys, Keys t = Done keys t (seqZ 0 (max_keys t))) /\
     (exists entries, Entries t = Done entries t (seqZ 0 (max_keys t))) /\
     (exists t', Clear t = Done tt t' (seqZ 0 (max_keys t))) /\
     in_bounds t (seqZ 0 (max_keys t))) /\
  (wf (FastShmCache options_zero) /\
   max_keys (FastShmCache options_zero) = 0 /\
   forall now k v,
     (length k < MAX_KEY_SIZE)%nat -> (length v < MAX_VALUE_SIZE)%nat ->
     Set_ cs now k v (FastShmCache options_zero) = Undefined /\
     Get cs k (FastShmCache options_zero) = Undefined /\
     Delete cs k (FastShmCache options_zero) = Undefined /\
     Has cs k (FastShmCache options_zero) = Undefined).
Proof.
  split.
  - intros t Hwf Hcap. pose proof Hwf as [Hlen _].
    split; [intros; apply Z.mod_pos_bound; lia|].
    split; [intros; apply Set_defined; auto; lia|].
    split; [intros; apply Get_defined; auto; lia|].
    split; [intros; apply Delete_defined; auto; lia|].
    split; [intros; apply Has_defined; auto; lia|].
    split.
    { unfold Keys.
      destruct (Keys_loop_total t (Z.to_nat (max_keys t)) 0) as [keys ->];
        [lia | lia |].
      rewrite Z2Nat.id by lia. eauto. }
    split.
    { unfold Entries.
      destruct (Entries_loop_total t (Z.to_nat (max_keys t)) 0)
        as [entries ->]; [lia | lia |].
      rewrite Z2Nat.id by lia. eauto. }
    split.
    { rewrite Clear_spec by (auto; lia). eauto. }
    apply in_bounds_range; [exact Hlen | apply seqZ_range].
  - split; [split; [reflexivity | constructor]|].
    split; [reflexivity|].
    intros now k v Hk Hv. unfold Set_, Get, Delete, Has.
    rewrite key_guard_false, value_guard_false by auto.
    repeat split; reflexivity.
Qed.

(** *** Size *)

Lemma same_key_ok k s :
  slot_ok s -> occupied s = true ->
  same_key k s = true <-> string_of_chars (key s) = string_of_chars k.
Proof.
  intros Hok Ho. unfold slot_ok in Hok. rewrite Ho in Hok.
  destruct Hok as (k' & v' & Hk' & _ & Hkey & _).
  destruct s as [o ky vl ts]. cbn [key] in *. subst ky.
  rewrite padded_read by auto. apply same_key_padded. exact Hk'.
Qed.

(** [Has] finds a key exactly when an occupied slot holds its C string,
    wherever that slot lies in the probe sequence. *)
Lemma Has_true_iff k t :
  table_inv t -> (length k < MAX_KEY_SIZE)%nat ->
  (exists locked, Has cs k t = Done true t locked) <->
  (exists i s, slots t !! i = Some s /\ occupied s = true /\
               string_of_chars (key s) = string_of_chars k).
Proof.
  intros (Hcap & Hlen & _ & Hok) Hk. split.
  - intros [locked HH].
    assert (Hc : max_keys t <> 0).
    { intros E. unfold Has in HH.
      rewrite key_guard_false, E in HH by auto. discriminate. }
    rewrite Has_scan in HH by auto.
    destruct (probe _ t _ _ 0) as [l [index slot| |]] eqn:Hp;
      try discriminate.
    apply probe_Found in Hp as (Hs & Hh & _).
    pose proof (holds_occupied _ _ Hh) as Ho.
    exists (Z.to_nat index), slot. split; [exact Hs|]. split; [exact Ho|].
    apply same_key_ok; [eapply Forall_lookup_1; eauto | exact Ho |].
    unfold holds in Hh. rewrite Ho in Hh. exact Hh.
  - intros (i & s & Hs & Ho & Hkey).
    assert (Hpos : 0 < max_keys t).
    { apply lookup_lt_Some in Hs. lia. }
    rewrite Has_scan by (auto; lia).
    destruct (probe_cases (holds k) t (Hash cs k mod max_keys t) Hlen Hpos)
      as [(l & index & slot & -> & _)|(l & _ & _ & Hnone)].
    + eauto.
    + specialize (Hnone _ _ Hs). unfold holds in Hnone.
      rewrite Ho in Hnone. cbn [andb] in Hnone.
      apply (same_key_ok k) in Hkey;
        [congruence | eapply Forall_lookup_1; eauto | exact Ho].
Qed.

(** C7, as the code has it: on every reachable table [Size] is the number
    of occupied slots and lies between 0 and the capacity, and [Has]
    answers [true] exactly for the keys whose C string an occupied slot
    holds. *)
Theorem Size_counts_occupied t :
  reachable cs t ->
  Size t = Z.of_nat (count_occupied (slots t)) /\
  0 <= Size t <= max_keys t /\
  forall k, (length k < MAX_KEY_SIZE)%nat ->
    ((exists locked, Has cs k t = Done true t locked) <->
     (exists i s, slots t !! i = Some s /\ occupied s = true /\
                  string_of_chars (key s) = string_of_chars k)).
Proof.
  intros Hr. pose proof (reachable_inv _ Hr) as Hinv.
  pose proof Hinv as (Hcap & Hlen & Hnum & _).
  pose proof (count_occupied_le (slots t)).
  unfold Size. split; [exact Hnum|]. split; [lia|].
  intros k Hk. apply Has_true_iff; auto.
Qed.

(** *** Sequences of calls *)

Lemma run_reachable calls t bs t' locked :
  reachable cs t -> run cs calls t = Done bs t' locked -> reachable cs t'.
Proof.
  revert t bs locked. induction calls as [|c calls IH]; intros t bs locked Hr.
  - intros [= <- <- <-]. exact Hr.
  - cbn [run]. destruct (step cs c t) as [b t1 l1|] eqn:Hs; [|discriminate].
    destruct (run cs calls t1) as [bs' t2 l2|] eqn:Hrun; [|discriminate].
    intros [= <- <- <-]. eapply IH; [|exact Hrun].
    destruct c as [now k v|k|]; cbn [step] in Hs.
    + eapply reach_Set; eauto.
    + eapply reach_Delete; eauto.
    + destruct (Clear t) as [[] t1' l1'|] eqn:HC; [|discriminate].
      injection Hs as <- <- <-. eapply reach_Clear; eauto.
Qed.

Lemma NoDup_fmap_elem {A B} (f : A -> B) (l : list A) x y :
  NoDup (f <$> l) -> x ∈ l -> y ∈ l -> f x = f y -> x = y.
Proof.
  induction l as [|z l IH]; intros Hnd Hx Hy Hf.
  - inversion Hx.
  - rewrite fmap_cons in Hnd. apply NoDup_cons in Hnd as [Hz Hnd].
    apply elem_of_cons in Hx as [->|Hx]; apply elem_of_cons in Hy as [->|Hy];
      auto.
    + exfalso. apply Hz. rewrite Hf. apply list_elem_of_fmap_2. exact Hy.
    + exfalso. apply Hz. rewrite <- Hf. apply list_elem_of_fmap_2. exact Hx.
Qed.

Lemma same_key_stores k s a :
  accepted a -> stores s a ->
  same_key k s = true <-> c_key a = string_of_chars k.
Proof.
  intros [Hk _] (_ & Hkey & _). destruct s as [o ky vl ts].
  cbn [key] in Hkey. subst ky. apply same_key_padded. exact Hk.
Qed.

Lemma holds_exactly_init n :
  0 <= n < UINT32_MOD -> holds_exactly (InitializeSharedMemory n) [].
Proof.
  intros Hn. pose proof (InitializeSharedMemory_inv n Hn) as Hinv.
  assert (Hfree : Forall (fun s => occupied s = false)
                    (slots (InitializeSharedMemory n))).
  { apply Forall_replicate. reflexivity. }
  split; [exact Hinv|]. split; [constructor|]. split.
  - apply count_occupied_none. exact Hfree.
  - split.
    + intros i s Hs Ho. pose proof (Forall_lookup_1 _ _ _ _ Hfree Hs) as Hf.
      cbn in Hf. congruence.
    + intros a Ha. inversion Ha.
Qed.

(** With room left, [Set] of a key no slot holds takes a free slot. *)
Lemma Set_fresh t l a :
  holds_exactly t l -> accepted a -> c_key a ∉ c_key <$> l ->
  Z.of_nat (length l) < max_keys t ->
  exists t' locked,
    Set_ cs (arg_now a) (arg_key a) (arg_value a) t = Done true t' locked /\
    max_keys t' = max_keys t /\ holds_exactly t' (l ++ [a]).
Proof.
  intros (Hinv & Hacc & Hcount & Hocc & Hin) Ha Hfresh Hroom.
  pose proof Hinv as (Hcap & Hlen & Hnum & Hok). destruct Ha as [Hk Hv].
  assert (Hpos : 0 < max_keys t) by lia.
  destruct (count_occupied_free (slots t)) as (i0 & s0 & Hs0 & Ho0); [lia|].
  destruct (Set_ cs (arg_now a) (arg_key a) (arg_value a) t)
    as [b t' locked|] eqn:HSet.
  2:{ destruct (Set_defined (arg_now a) (arg_key a) (arg_value a) t)
        as (? & ? & ? & _ & HS & _); [apply table_inv_wf; auto | auto |].
      congruence. }
  pose proof (Set_inv _ _ _ _ _ _ _ Hinv HSet) as Hinv'.
  rewrite Set_scan in HSet by (auto; lia).
  destruct (probe_cases (eligible (arg_key a)) t
              (Hash cs (arg_key a) mod max_keys t) Hlen Hpos)
    as [(lk & index & slot & Hp & Hidx & Hslot & Hel)|(lk & Hp & _ & Hnone)];
    rewrite Hp in HSet.
  2:{ specialize (Hnone _ _ Hs0). unfold eligible in Hnone.
      rewrite Ho0 in Hnone. discriminate. }
  assert (Hfree : occupied slot = false).
  { destruct (occupied slot) eqn:Ho; [|reflexivity]. exfalso.
    destruct (Hocc _ _ Hslot Ho) as (a' & Ha' & Hst).
    unfold eligible in Hel. rewrite Ho in Hel. cbn [negb orb] in Hel.
    apply (same_key_stores _ _ a') in Hel;
      [|eapply (proj1 (Forall_forall _ _)); eauto | exact Hst].
    apply Hfresh. unfold c_key at 1. rewrite <- Hel.
    apply list_elem_of_fmap_2. exact Ha'. }
  injection HSet as <- <- <-. eexists _, lk.
  split; [reflexivity|]. split; [reflexivity|].
  pose proof (Forall_lookup_1 _ _ _ _ Hok Hslot) as Hsok.
  set (new := write_slot (arg_now a) (arg_key a) (arg_value a) slot) in *.
  assert (Hnew : stores new a).
  { unfold new. rewrite write_slot_eq by auto using slot_ok_wf.
    repeat split. }
  pose proof (count_occupied_insert _ _ _ new Hslot) as Hc.
  rewrite Hfree, (proj1 Hnew) in Hc.
  split; [exact Hinv'|]. split.
  { apply Forall_app. split; [exact Hacc|]. apply Forall_cons.
    split; [split; assumption | constructor]. }
  cbn [slots]. split.
  { rewrite length_app. cbn [length]. lia. }
  split.
  - intros i s Hs Ho.
    destruct (decide (i = Z.to_nat index)) as [->|Hne].
    + rewrite list_lookup_insert_eq in Hs
        by (eapply lookup_lt_Some; eauto).
      injection Hs as <-. exists a. split; [|exact Hnew].
      apply elem_of_app. right. apply list_elem_of_singleton. reflexivity.
    + rewrite list_lookup_insert_ne in Hs by auto.
      destruct (Hocc _ _ Hs Ho) as (a' & Ha' & Hst). exists a'.
      split; [apply elem_of_app; auto | exact Hst].
  - intros a' Ha'. apply elem_of_app in Ha' as [Ha'|Ha'].
    + destruct (Hin _ Ha') as (i & s & Hs & Hst). exists i, s.
      split; [|exact Hst].
      rewrite list_lookup_insert_ne; [exact Hs|].
      intros <-. destruct Hst as [Ho _]. congruence.
    + apply list_elem_of_singleton in Ha' as ->.
      exists (Z.to_nat index), new. split; [|exact Hnew].
      apply list_lookup_insert_eq. eapply lookup_lt_Some; eauto.
Qed.

(** On a full table [Set] of a key no slot holds scans every slot,
    returns [false] and changes nothing. *)
Lemma Set_full t l now k v :
  holds_exactly t l -> Z.of_nat (length l) = max_keys t -> 0 < max_keys t ->
  (length k < MAX_KEY_SIZE)%nat -> (length v < MAX_VALUE_SIZE)%nat ->
  string_of_chars k ∉ c_key <$> l ->
  Set_ cs now k v t
  = Done false t ((fun i => (Hash cs k mod max_keys t + i) mod max_keys t)
                    <$> seqZ 0 (max_keys t)).
Proof.
  intros (Hinv & Hacc & Hcount & Hocc & Hin) Hfull Hpos Hk Hv Hfresh.
  pose proof Hinv as (Hcap & Hlen & Hnum & Hok).
  rewrite Set_scan by (auto; lia).
  destruct (probe_cases (eligible k) t (Hash cs k mod max_keys t) Hlen Hpos)
    as [(lk & index & slot & Hp & Hidx & Hslot & Hel)|(lk & -> & -> & _)];
    [|reflexivity].
  exfalso.
  assert (Ho : occupied slot = true).
  { eapply count_occupied_full; [|exact Hslot]. lia. }
  destruct (Hocc _ _ Hslot Ho) as (a' & Ha' & Hst).
  unfold eligible in Hel. rewrite Ho in Hel. cbn [negb orb] in Hel.
  apply (same_key_stores _ _ a') in Hel;
    [|eapply (proj1 (Forall_forall _ _)); eauto | exact Hst].
  apply Hfresh. rewrite <- Hel. apply list_elem_of_fmap_2. exact Ha'.
Qed.

(** Every entry is read back when no two entries share a C-string key. *)
Lemma Get_stored t l a :
  holds_exactly t l -> NoDup (c_key <$> l) -> a ∈ l ->
  exists locked,
    Get cs (arg_key a) t
    = Done (Some (string_of_chars (arg_value a))) t locked.
Proof.
  intros (Hinv & Hacc & Hcount & Hocc & Hin) Hnd Ha.
  pose proof Hinv as (Hcap & Hlen & Hnum & Hok).
  pose proof (proj1 (Forall_forall _ _) Hacc _ Ha) as Haa.
  destruct (Hin _ Ha) as (i & s & Hs & Hst).
  assert (Hpos : 0 < max_keys t).
  { apply lookup_lt_Some in Hs. lia. }
  rewrite Get_scan by (try apply Haa; lia).
  destruct (probe_cases (holds (arg_key a)) t
              (Hash cs (arg_key a) mod max_keys t) Hlen Hpos)
    as [(lk & index & slot & -> & Hidx & Hslot & Hh)|(lk & _ & _ & Hnone)].
  - exists lk. do 2 f_equal.
    pose proof (holds_occupied _ _ Hh) as Ho.
    destruct (Hocc _ _ Hslot Ho) as (a' & Ha' & Hst').
    unfold holds in Hh. rewrite Ho in Hh. cbn [andb] in Hh.
    apply (same_key_stores _ _ a') in Hh;
      [|eapply (proj1 (Forall_forall _ _)); eauto | exact Hst'].
    assert (a' = a) as -> by (eapply (NoDup_fmap_elem c_key); eauto).
    destruct Hst' as (_ & _ & ->). apply padded_read. apply Haa.
  - exfalso. specialize (Hnone _ _ Hs). unfold holds in Hnone.
    destruct Hst as (Ho & Hst). rewrite Ho in Hnone. cbn [andb] in Hnone.
    assert (same_key (arg_key a) s = true); [|congruence].
    apply (same_key_stores _ _ a); [exact Haa | split; auto | reflexivity].
Qed.

Lemma run_sets rest : forall t l,
  holds_exactly t l ->
  Z.of_nat (length l + length rest) <= max_keys t ->
  Forall accepted rest -> NoDup (c_key <$> rest) ->
  (forall a, a ∈ rest -> c_key a ∉ c_key <$> l) ->
  exists t' locked,
    run cs (set_call <$> rest) t
    = Done (replicate (length rest) true) t' locked /\
    max_keys t' = max_keys t /\ holds_exactly t' (l ++ rest).
Proof.
  induction rest as [|a rest IH]; intros t l Hh Hroom Hacc Hnd Hfresh.
  - exists t, []. rewrite app_nil_r. auto.
  - apply Forall_cons in Hacc as [Ha Hacc].
    rewrite fmap_cons in Hnd. apply NoDup_cons in Hnd as [Hna Hnd].
    cbn [length] in Hroom.
    destruct (Set_fresh t l a) as (t1 & l1 & HSet & Hcap1 & Hh1); auto.
    { apply Hfresh. left. }
    { lia. }
    destruct (IH t1 (l ++ [a])) as (t2 & l2 & Hrun & Hcap2 & Hh2); auto.
    { rewrite length_app, Hcap1. cbn [length]. lia. }
    { intros a' Ha'. rewrite fmap_app. intros Hin.
      apply elem_of_app in Hin as [Hin|Hin].
      - eapply Hfresh; [right; exact Ha' | exact Hin].
      - apply list_elem_of_singleton in Hin. apply Hna. rewrite <- Hin.
        apply list_elem_of_fmap_2. exact Ha'. }
    exists t2, (l1 ++ l2). rewrite fmap_cons. cbn [run step set_call].
    rewrite HSet, Hrun. rewrite <- app_assoc in Hh2.
    split; [reflexivity|]. split; [congruence | exact Hh2].
Qed.

(** C6, as the code has it: starting from the empty table of capacity
    [C >= 1], [C] accepted [Set] calls whose keys differ as C strings
    (up to the first NUL byte) all return [true]; a further [Set] of an
    accepted key that differs from all of them as a C string returns
    [false] and leaves the table as it was; and [Get] of each of the [C]
    keys then returns its value as stored, that is up to its first NUL
    byte (the value itself when it holds none). *)
Theorem table_full_keeps_entries (C : Z) (entries : list SetArgs) now k v :
  1 <= C < UINT32_MOD ->
  Z.of_nat (length entries) = C ->
  Forall accepted entries ->
  NoDup (c_key <$> entries) ->
  (length k < MAX_KEY_SIZE)%nat -> (length v < MAX_VALUE_SIZE)%nat ->
  string_of_chars k ∉ c_key <$> entries ->
  exists t locked,
    run cs (set_call <$> entries) (InitializeSharedMemory C)
    = Done (replicate (length entries) true) t locked /\
    (exists locked', Set_ cs now k v t = Done false t locked') /\
    Forall (fun a =>
              (exists locked',
                  Get cs (arg_key a) t
                  = Done (Some (string_of_chars (arg_value a))) t locked') /\
              (nul_free (arg_value a) ->
               string_of_chars (arg_value a) = arg_value a))
      entries.
Proof.
  intros HC Hlen Hacc Hnd Hk Hv Hfresh.
  destruct (run_sets entries (InitializeSharedMemory C) [])
    as (t & locked & Hrun & Hcap & Hh); auto.
  - apply holds_exactly_init. lia.
  - cbn [length max_keys InitializeSharedMemory]. lia.
  - intros a _ Hin. inversion Hin.
  - cbn [app max_keys InitializeSharedMemory] in *.
    exists t, locked. split; [exact Hrun|]. split.
    + eexists. eapply Set_full; eauto; lia.
    + apply Forall_forall. intros a Ha. split.
      * eapply Get_stored; eauto.
      * apply string_of_chars_id.
Qed.

(** *** Delete after Set *)

(** When the key written by a successful [Set] sits in one slot only, the
    [Delete] that follows removes it: it stops at the slot [Set] wrote,
    and afterwards [Has] and [Get] scan the whole table and find
    nothing.  (The proviso can fail on a reachable table, see
    [table_dup].) *)
Lemma Delete_after_Set_unique now k v t t' locked :
  wf t ->
  Set_ cs now k v t = Done true t' locked ->
  (forall i j si sj,
      slots t' !! i = Some si -> slots t' !! j = Some sj ->
      holds k si = true -> holds k sj = true -> i = j) ->
  exists t'',
    Delete cs k t' = Done true t'' locked /\
    (exists locked', Has cs k t'' = Done false t'' locked') /\
    (exists locked', Get cs k t'' = Done None t'' locked').
Proof.
  intros [Hlen Hwf] HSet Huniq.
  destruct (Set_true_lengths _ _ _ _ _ _ HSet) as [Hk Hv].
  assert (Hc : max_keys t <> 0).
  { intros E. unfold Set_ in HSet.
    rewrite key_guard_false, value_guard_false, E in HSet by auto.
    discriminate. }
  rewrite Set_scan in HSet by auto.
  destruct (probe _ t _ _ 0) as [l [index slot| |]] eqn:Hp;
    try discriminate.
  injection HSet as <- <-.
  pose proof (probe_Found _ _ _ _ _ _ _ _ Hp) as (Hslot & _ & _).
  pose proof (Forall_lookup_1 _ _ _ _ Hwf Hslot) as Hswf.
  pose proof (holds_write_slot now k v slot Hswf Hk Hv) as Hnew.
  set (new := write_slot now k v slot) in *.
  assert (Hin : (Z.to_nat index < length (slots t))%nat)
    by (eapply lookup_lt_Some; eauto).
  rewrite Delete_scan by auto. cbn [max_keys slots] in *.
  rewrite (probe_after_write (eligible k) (holds k) t _ _ _ _ _ _ _ new
             (not_eligible_not_holds k) Hnew Hp).
  eexists. split; [reflexivity|].
  rewrite Has_scan, Get_scan by auto. cbn [max_keys].
  match goal with
  | |- context [probe (holds k) ?t2 ?s ?f 0] =>
      destruct (probe_cases (holds k) t2 s) as
        [(l' & i' & s' & _ & _ & Hs' & Hh')|(l' & Hp' & _ & _)]
  end.
  - cbn [slots]. rewrite !length_insert. exact Hlen.
  - cbn [max_keys]. lia.
  - exfalso. cbn [slots] in Hs'.
    destruct (decide (Z.to_nat i' = Z.to_nat index)) as [E|E].
    + rewrite E, list_lookup_insert_eq in Hs'
        by (rewrite length_insert; exact Hin).
      injection Hs' as <-. discriminate.
    + rewrite list_lookup_insert_ne in Hs' by auto.
      apply E. eapply Huniq; [exact Hs' | | exact Hh' | exact Hnew].
      apply list_lookup_insert_eq. exact Hin.
  - cbn [max_keys] in Hp'. rewrite Hp'. split; eexists; reflexivity.
Qed.

(** *** Holes *)

(** C3, as the code has it, for a key that passes the length guard on a
    table of capacity at least 1.  The scan of [Get], [Has] and [Delete]
    goes through the probe indices [(start_index + i) mod max_keys],
    [i = 0, 1, ...], with [start_index = hash mod max_keys], and ends
    early only at an occupied slot that holds the key, never at an
    unoccupied one: when no slot holds the key all [max_keys] indices
    are visited (and a [Set] that finds no slot to write visits all of
    them too); when some slot holds the key, wherever it lies, the three
    operations find it at the first such slot of the probe sequence,
    having passed the unoccupied slots before it. *)
Theorem scan_skips_holes k t :
  Z.of_nat (length (slots t)) = max_keys t -> 0 < max_keys t ->
  (length k < MAX_KEY_SIZE)%nat ->
  ((forall i s, slots t !! i = Some s -> holds k s = false) ->
   Get cs k t
   = Done None t (probe_trace t (Hash cs k mod max_keys t) (max_keys t)) /\
   Has cs k t
   = Done false t (probe_trace t (Hash cs k mod max_keys t) (max_keys t)) /\
   Delete cs k t
   = Done false t (probe_trace t (Hash cs k mod max_keys t) (max_keys t))) /\
  ((forall i s, slots t !! i = Some s -> eligible k s = false) ->
   forall now v, (length v < MAX_VALUE_SIZE)%nat ->
   Set_ cs now k v t
   = Done false t (probe_trace t (Hash cs k mod max_keys t) (max_keys t))) /\
  (forall i s, slots t !! i = Some s -> holds k s = true ->
   exists j slot,
     0 <= j < max_keys t /\
     slots t !! Z.to_nat (probe_index t (Hash cs k mod max_keys t) j)
     = Some slot /\
     holds k slot = true /\
     (forall j', 0 <= j' < j ->
                 passed (holds k) t (Hash cs k mod max_keys t) j') /\
     Get cs k t
     = Done (Some (string_of_chars (value slot))) t
         (probe_trace t (Hash cs k mod max_keys t) (j + 1)) /\
     Has cs k t
     = Done true t (probe_trace t (Hash cs k mod max_keys t) (j + 1)) /\
     exists t',
       Delete cs k t
       = Done true t' (probe_trace t (Hash cs k mod max_keys t) (j + 1))).
Proof.
  intros Hlen Hpos Hk. split; [|split].
  - intros Hnone. rewrite Get_scan, Has_scan, Delete_scan by (auto; lia).
    destruct (probe_cases (holds k) t (Hash cs k mod max_keys t) Hlen Hpos)
      as [(l & index & slot & _ & _ & Hs & Hh)|(l & -> & -> & _)].
    + rewrite (Hnone _ _ Hs) in Hh. discriminate.
    + repeat split.
  - intros Hnone now v Hv. rewrite Set_scan by (auto; lia).
    destruct (probe_cases (eligible k) t (Hash cs k mod max_keys t) Hlen Hpos)
      as [(l & index & slot & _ & _ & Hs & Hh)|(l & -> & -> & _)].
    + rewrite (Hnone _ _ Hs) in Hh. discriminate.
    + reflexivity.
  - intros i s Hs Hh. rewrite Get_scan, Has_scan, Delete_scan by (auto; lia).
    destruct (probe_cases (holds k) t (Hash cs k mod max_keys t) Hlen Hpos)
      as [(l & index & slot & Hp & _ & Hslot & Hhit)|(l & _ & _ & Hnone)].
    + destruct (probe_Found_first _ _ _ Hpos _ _ _ Hp)
        as (j & Hj & -> & -> & Hpass).
      rewrite Hp. exists j, slot.
      split; [exact Hj|]. split; [exact Hslot|]. split; [exact Hhit|].
      split; [exact Hpass|]. split; [reflexivity|]. split; [reflexivity|].
      eexists. reflexivity.
    + rewrite (Hnone _ _ Hs) in Hh. discriminate.
Qed.

(** *** The hash *)

Lemma Hash_unsigned_fnv1a key : Hash false key = fnv1a_spec key.
Proof. reflexivity. Qed.

Lemma Hash_step_ascii h c :
  (Byte.to_N c < 128)%N ->
  Hash_step cs h c
  = (Z.lxor h (Z.of_N (Byte.to_N c)) * 0x01000193) mod 2 ^ 32.
Proof.
  intros Hc. unfold Hash_step, static_cast_uint32.
  replace (128 <=? Z.of_N (Byte.to_N c)) with false
    by (symmetry; apply Z.leb_gt; lia).
  rewrite andb_false_r. reflexivity.
Qed.

(** On keys of 7-bit bytes [Hash] is FNV-1a whatever the signedness of
    [char]. *)
Lemma Hash_ascii_fnv1a key :
  Forall (fun c => (Byte.to_N c < 128)%N) key -> Hash cs key = fnv1a_spec key.
Proof.
  unfold Hash, fnv1a_spec. change 0x811c9dc5 with FNV_OFFSET_BASIS.
  intros Hkey. generalize FNV_OFFSET_BASIS as h.
  induction Hkey as [|c key Hc _ IH]; intros h; cbn [fold_left].
  - reflexivity.
  - rewrite Hash_step_ascii by exact Hc. apply IH.
Qed.

(** *** More on [Set]: overwriting, the full table, the counter *)

Lemma write_slot_wf now k v slot :
  slot_wf slot ->
  (length k < MAX_KEY_SIZE)%nat -> (length v < MAX_VALUE_SIZE)%nat ->
  slot_wf (write_slot now k v slot).
Proof.
  intros Hs Hk Hv. rewrite write_slot_eq by auto. split; cbn [key value].
  - apply padded_length. lia.
  - apply padded_length. lia.
Qed.

(** [Set] keeps the layout of the segment. *)
Lemma Set_wf now k v t b t' locked :
  wf t -> Set_ cs now k v t = Done b t' locked -> wf t'.
Proof.
  intros Hwf. pose proof Hwf as [Hlen Hall]. unfold Set_.
  destruct (MAX_KEY_SIZE <=? length k)%nat eqn:Ek;
    [intros [= <- <- <-]; exact Hwf|].
  destruct (MAX_VALUE_SIZE <=? length v)%nat eqn:Ev;
    [intros [= <- <- <-]; exact Hwf|].
  apply Nat.leb_gt in Ek, Ev. cbn [orb].
  destruct (max_keys t =? 0); [discriminate|].
  destruct (probe _ t _ _ 0) as [l [index slot| |]] eqn:Hp;
    [|intros [= <- <- <-]; exact Hwf|discriminate].
  intros [= <- <- <-].
  apply probe_Found in Hp as (Hslot & _ & _).
  split; cbn [max_keys slots].
  - rewrite length_insert. exact Hlen.
  - apply Forall_insert; [exact Hall|].
    apply write_slot_wf; [eapply Forall_lookup_1; eauto | lia | lia].
Qed.

(** A slot that holds the key is eligible for [Set]. *)
Lemma holds_eligible k s : holds k s = true -> eligible k s = true.
Proof.
  unfold holds, eligible. destruct (occupied s), (same_key k s); auto.
Qed.

(** X1: writing a key again overwrites in place.  After a [Set] that
    returned [true], a second [Set] of the same key (with any accepted
    value, the same or another) returns [true], stops at the same slot,
    leaves [Size] as it was, and [Get] then returns the second value as
    stored. *)
Theorem Set_twice now1 now2 k v1 v2 t t1 locked :
  wf t ->
  Set_ cs now1 k v1 t = Done true t1 locked ->
  (length v2 < MAX_VALUE_SIZE)%nat ->
  exists t2,
    Set_ cs now2 k v2 t1 = Done true t2 locked /\
    Size t2 = Size t1 /\
    Get cs k t2 = Done (Some (string_of_chars v2)) t2 locked.
Proof.
  intros Hwf HSet Hv2. pose proof (Set_wf _ _ _ _ _ _ _ Hwf HSet) as Hwf1.
  destruct Hwf as [_ Hall].
  destruct (Set_true_lengths _ _ _ _ _ _ HSet) as [Hk Hv].
  assert (Hc : max_keys t <> 0).
  { intros E. unfold Set_ in HSet.
    rewrite key_guard_false, value_guard_false, E in HSet by auto.
    discriminate. }
  rewrite Set_scan in HSet by auto.
  destruct (probe _ t _ _ 0) as [l [index slot| |]] eqn:Hp;
    try discriminate.
  injection HSet as <- <-.
  pose proof (probe_Found _ _ _ _ _ _ _ _ Hp) as (Hslot & _ & _).
  pose proof (Forall_lookup_1 _ _ _ _ Hall Hslot) as Hswf.
  pose proof (holds_write_slot now1 k v1 slot Hswf Hk Hv) as Hnew.
  assert (HSet2 :
    Set_ cs now2 k v2
      {| max_keys := max_keys t;
         num_entries := if negb (occupied slot)
                        then (num_entries t + 1) mod SIZE_MOD
                        else num_entries t;
         slots := <[Z.to_nat index := write_slot now1 k v1 slot]> (slots t) |}
    = Done true
        {| max_keys := max_keys t;
           num_entries := if negb (occupied slot)
                          then (num_entries t + 1) mod SIZE_MOD
                          else num_entries t;
           slots := <[Z.to_nat index :=
                        write_slot now2 k v2 (write_slot now1 k v1 slot)]>
                      (<[Z.to_nat index := write_slot now1 k v1 slot]>
                         (slots t)) |}
        l).
  { rewrite Set_scan by auto. cbn [max_keys].
    rewrite (probe_after_write (eligible k) (eligible k) t _ _ _ _ _ _ _
               (write_slot now1 k v1 slot) (fun s H => H)
               (holds_eligible _ _ Hnew) Hp).
    reflexivity. }
  eexists. split; [exact HSet2|]. split; [reflexivity|].
  eapply Set_then_Get; [exact Hwf1 | exact HSet2].
Qed.

Lemma count_occupied_all sl :
  Forall (fun s => occupied s = true) sl -> count_occupied sl = length sl.
Proof.
  induction 1 as [|s sl Hs _ IH]; cbn [count_occupied length];
    [|rewrite Hs, IH]; reflexivity.
Qed.

(** X2: [Set] fails only on a full table that lacks the key.  For an
    accepted key and value on a reachable table of capacity at least 1,
    [Set] returns [false] exactly when [Size] equals the capacity and
    [Has] does not find the key; the table is then unchanged.  In every
    other case it returns [true]. *)
Theorem Set_false_iff_full now k v t :
  reachable cs t -> 0 < max_keys t ->
  (length k < MAX_KEY_SIZE)%nat -> (length v < MAX_VALUE_SIZE)%nat ->
  ((exists locked, Set_ cs now k v t = Done false t locked) <->
   (Size t = max_keys t /\
    exists locked, Has cs k t = Done false t locked)) /\
  ((exists locked, Set_ cs now k v t = Done false t locked) \/
   (exists t' locked, Set_ cs now k v t = Done true t' locked)).
Proof.
  intros Hr Hpos Hk Hv. pose proof (reachable_inv _ Hr) as Hinv.
  pose proof Hinv as (Hcap & Hlen & Hnum & Hok).
  rewrite Set_scan, Has_scan by (auto; lia). unfold Size.
  destruct (probe_cases (eligible k) t (Hash cs k mod max_keys t) Hlen Hpos)
    as [(l & index & slot & -> & _ & Hs & Hel)|(l & -> & _ & Hnone)].
  - split; [|right; eauto]. split.
    + intros [? [=]].
    + intros [Hfull [l' HH]]. exfalso.
      assert (Ho : occupied slot = true).
      { eapply count_occupied_full; [|exact Hs]. lia. }
      destruct (probe_cases (holds k) t (Hash cs k mod max_keys t) Hlen Hpos)
        as [(l2 & i2 & s2 & Hp2 & _)|(l2 & _ & _ & Hnone)].
      * rewrite Hp2 in HH. discriminate.
      * specialize (Hnone _ _ Hs). unfold eligible in Hel. unfold holds in Hnone.
        rewrite Ho in Hel, Hnone. cbn in Hel, Hnone. congruence.
  - split; [|left; eauto]. split; [|eauto]. intros _. split.
    + rewrite Hnum, <- Hlen. f_equal. apply count_occupied_all.
      apply Forall_lookup_2. intros i s Hs. specialize (Hnone _ _ Hs).
      unfold eligible in Hnone. destruct (occupied s); auto.
    + destruct (probe_cases (holds k) t (Hash cs k mod max_keys t) Hlen Hpos)
        as [(l2 & i2 & s2 & _ & _ & Hs2 & Hh2)|(l2 & -> & _)]; [|eauto].
      apply holds_eligible in Hh2. rewrite (Hnone _ _ Hs2) in Hh2.
      discriminate.
Qed.

(** X3: what a successful [Set] does to the counter.  On a reachable
    table a [Set] that returns [true] keeps the capacity and either
    leaves [Size] as it was or adds one to it; it adds one whenever
    [Has] did not find the key before. *)
Theorem Set_true_size now k v t t' locked :
  reachable cs t ->
  Set_ cs now k v t = Done true t' locked ->
  max_keys t' = max_keys t /\
  (Size t' = Size t \/ Size t' = Size t + 1) /\
  (forall locked', Has cs k t = Done false t locked' -> Size t' = Size t + 1).
Proof.
  intros Hr HSet. pose proof (reachable_inv _ Hr) as Hinv.
  pose proof (Set_inv _ _ _ _ _ _ _ Hinv HSet) as (_ & _ & Hnum' & _).
  pose proof Hinv as (Hcap & Hlen & Hnum & Hok).
  destruct (Set_true_lengths _ _ _ _ _ _ HSet) as [Hk Hv].
  assert (Hc : max_keys t <> 0).
  { intros E. unfold Set_ in HSet.
    rewrite key_guard_false, value_guard_false, E in HSet by auto.
    discriminate. }
  rewrite Set_scan in HSet by auto.
  destruct (probe _ t _ _ 0) as [l [index slot| |]] eqn:Hp;
    try discriminate.
  injection HSet as <- <-.
  pose proof (probe_Found _ _ _ _ _ _ _ _ Hp) as (Hslot & Hel & _).
  pose proof (count_occupied_insert _ _ _ (write_slot now k v slot) Hslot)
    as Hcount.
  unfold Size in *. cbn [max_keys num_entries slots occupied write_slot] in *.
  rewrite Hnum', Hnum. split; [reflexivity|]. split.
  - destruct (occupied slot); [left | right]; lia.
  - intros l' HH. destruct (occupied slot) eqn:Ho; [exfalso | lia].
    rewrite Has_scan in HH by auto.
    assert (Hpos : 0 < max_keys t) by lia.
    destruct (probe_cases (holds k) t (Hash cs k mod max_keys t) Hlen Hpos)
      as [(l2 & i2 & s2 & Hp2 & _)|(l2 & _ & _ & Hnone)].
    + rewrite Hp2 in HH. discriminate.
    + specialize (Hnone _ _ Hslot). unfold eligible in Hel.
      unfold holds in Hnone. rewrite Ho in Hel, Hnone. cbn in Hel, Hnone.
      congruence.
Qed.

(** *** [Has], [Get] and [Delete] see the same slot *)


(** X5: [Delete] removes what [Has] finds, one slot at a time.  On
    every table [Delete] returns the answer [Has] gives on that table,
    locking the same slots.  On a reachable table a [Delete] that
    returns [true] lowers [Size] by exactly one and keeps the capacity;
    one that returns [false] leaves the table as it was. *)
Theorem Delete_as_Has k t b t' locked :
  Delete cs k t = Done b t' locked ->
  Has cs k t = Done b t locked /\
  (b = false -> t' = t) /\
  (reachable cs t -> b = true ->
   Size t' = Size t - 1 /\ max_keys t' = max_keys t).
Proof.
  intros HD. split; [|split].
  - revert HD. unfold Delete, Has.
    destruct (MAX_KEY_SIZE <=? length k)%nat; [intros [= <- <- <-]; auto|].
    destruct (max_keys t =? 0); [discriminate|].
    destruct (probe _ t _ _ 0) as [l [index slot| |]];
      intros [= <- <- <-]; reflexivity.
  - intros ->. revert HD. unfold Delete.
    destruct (MAX_KEY_SIZE <=? length k)%nat; [intros [= <- <-]; auto|].
    destruct (max_keys t =? 0); [discriminate|].
    destruct (probe _ t _ _ 0) as [l [index slot| |]];
      [discriminate | intros [= <- <-]; reflexivity | discriminate].
  - intros Hr ->. pose proof (reachable_inv _ Hr) as Hinv.
    pose proof (Delete_inv _ _ _ _ _ Hinv HD) as (_ & _ & Hnum' & _).
    pose proof Hinv as (Hcap & Hlen & Hnum & Hok).
    revert HD Hnum'. unfold Delete.
    destruct (MAX_KEY_SIZE <=? length k)%nat; [discriminate|].
    destruct (max_keys t =? 0); [discriminate|].
    destruct (probe _ t _ _ 0) as [l [index slot| |]] eqn:Hp;
      try discriminate.
    intros [= <- <-] Hnum'.
    apply probe_Found in Hp as (Hslot & Hh & _).
    apply holds_occupied in Hh.
    pose proof (count_occupied_insert _ _ _ (wipe_slot slot) Hslot) as Hcount.
    rewrite Hh in Hcount.
    unfold Size. cbn [max_keys num_entries slots occupied wipe_slot] in *.
    split; [lia | reflexivity].
Qed.

(** Rewriting a slot on which a test fails, by a slot on which it fails
    too, does not change a scan for that test. *)
Lemma probe_insert_miss hit t n idx s new start_index fuel i :
  slots t !! idx = Some s -> hit s = false -> hit new = false ->
  probe hit
    {| max_keys := max_keys t; num_entries := n;
       slots := <[idx := new]> (slots t) |}
    start_index fuel i
  = match probe hit t start_index fuel i with
    | (locked, Found index slot) => (locked, Found index slot)
    | r => r
    end.
Proof.
  intros Hs Hold Hnew. revert i.
  induction fuel as [|fuel IH]; intros i; [reflexivity|].
  cbn [probe max_keys slots].
  destruct (decide (Z.to_nat ((start_index + i) mod max_keys t) = idx))
    as [E|E].
  - rewrite E, Hs, list_lookup_insert_eq by (eapply lookup_lt_Some; eauto).
    rewrite Hold, Hnew, IH.
    destruct (probe hit t start_index fuel (i + 1)) as [l [ | | ]];
      reflexivity.
  - rewrite list_lookup_insert_ne by auto.
    destruct (slots t !! Z.to_nat ((start_index + i) mod max_keys t))
      as [s'|]; [|reflexivity].
    destruct (hit s'); [reflexivity|]. rewrite IH.
    destruct (probe hit t start_index fuel (i + 1)) as [l [ | | ]];
      reflexivity.
Qed.

Lemma probe_insert_miss_eq hit t n idx s new start_index fuel i :
  slots t !! idx = Some s -> hit s = false -> hit new = false ->
  probe hit
    {| max_keys := max_keys t; num_entries := n;
       slots := <[idx := new]> (slots t) |}
    start_index fuel i
  = probe hit t start_index fuel i.
Proof.
  intros Hs Hold Hnew. rewrite (probe_insert_miss _ _ _ _ _ _ _ _ _ Hs Hold Hnew).
  destruct (probe hit t start_index fuel i) as [l [ | | ]]; reflexivity.
Qed.

(** [Get] depends on the slots and the capacity only. *)
Lemma Get_insert_miss k t n idx s new :
  slots t !! idx = Some s -> holds k s = false -> holds k new = false ->
  forall r locked,
    Get cs k t = Done r t locked ->
    Get cs k {| max_keys := max_keys t; num_entries := n;
                slots := <[idx := new]> (slots t) |}
    = Done r {| max_keys := max_keys t; num_entries := n;
                slots := <[idx := new]> (slots t) |} locked.
Proof.
  intros Hs Hold Hnew r locked. unfold Get. cbn [max_keys].
  destruct (MAX_KEY_SIZE <=? length k)%nat; [intros [= <- <-]; reflexivity|].
  destruct (max_keys t =? 0); [discriminate|].
  rewrite (probe_insert_miss_eq _ _ _ _ _ _ _ _ _ Hs Hold Hnew).
  destruct (probe _ t _ _ 0) as [l [index slot| |]];
    [intros [= <- <-] | intros [= <- <-] | discriminate]; reflexivity.
Qed.

(** A slot of a reachable table holds one C-string key at most. *)
Lemma holds_other_key k k' s :
  slot_ok s -> string_of_chars k' <> string_of_chars k ->
  holds k s = true -> holds k' s = false.
Proof.
  intros Hok Hne Hh. pose proof (holds_occupied _ _ Hh) as Ho.
  unfold holds in *. rewrite Ho in *. cbn [andb] in *.
  apply (same_key_ok _ _ Hok Ho) in Hh.
  destruct (same_key k' s) eqn:E; [|reflexivity].
  apply (same_key_ok _ _ Hok Ho) in E. congruence.
Qed.

Lemma Set_frame k k' t now v b t' locked r locked' :
  table_inv t ->
  string_of_chars k' <> string_of_chars k ->
  Set_ cs now k v t = Done b t' locked ->
  Get cs k' t = Done r t locked' ->
  Get cs k' t' = Done r t' locked'.
Proof.
  intros (Hcap & Hlen & Hnum & Hok) Hne. unfold Set_.
  destruct (MAX_KEY_SIZE <=? length k)%nat eqn:Ek;
    [intros [= <- <- <-]; auto|].
  destruct (MAX_VALUE_SIZE <=? length v)%nat eqn:Ev;
    [intros [= <- <- <-]; auto|].
  apply Nat.leb_gt in Ek, Ev. cbn [orb].
  destruct (max_keys t =? 0); [discriminate|].
  destruct (probe _ t _ _ 0) as [l [index slot| |]] eqn:Hp;
    [|intros [= <- <- <-]; auto|discriminate].
  intros [= <- <- <-].
  apply probe_Found in Hp as (Hslot & Hel & _).
  pose proof (Forall_lookup_1 _ _ _ _ Hok Hslot) as Hsok.
  apply Get_insert_miss with (s := slot); [exact Hslot| |].
  - destruct (holds k' slot) eqn:E; [|reflexivity].
    pose proof (holds_occupied _ _ E) as Ho.
    unfold eligible in Hel. rewrite Ho in Hel. cbn [negb orb] in Hel.
    assert (holds k slot = true) as Hh
      by (unfold holds; rewrite Ho, Hel; reflexivity).
    rewrite (holds_other_key _ _ _ Hsok Hne Hh) in E. discriminate.
  - rewrite write_slot_eq by (auto using slot_ok_wf; lia).
    unfold holds. cbn [occupied andb].
    destruct (same_key k' _) eqn:E; [|reflexivity].
    apply same_key_padded in E; [congruence | lia].
Qed.

Lemma Delete_frame k k' t b t' locked r locked' :
  table_inv t ->
  string_of_chars k' <> string_of_chars k ->
  Delete cs k t = Done b t' locked ->
  Get cs k' t = Done r t locked' ->
  Get cs k' t' = Done r t' locked'.
Proof.
  intros (Hcap & Hlen & Hnum & Hok) Hne. unfold Delete.
  destruct (MAX_KEY_SIZE <=? length k)%nat eqn:Ek;
    [intros [= <- <- <-]; auto|].
  destruct (max_keys t =? 0); [discriminate|].
  destruct (probe _ t _ _ 0) as [l [index slot| |]] eqn:Hp;
    [|intros [= <- <- <-]; auto|discriminate].
  intros [= <- <- <-].
  apply probe_Found in Hp as (Hslot & Hh & _).
  pose proof (Forall_lookup_1 _ _ _ _ Hok Hslot) as Hsok.
  apply Get_insert_miss with (s := slot); [exact Hslot| |].
  - eapply holds_other_key; eauto.
  - reflexivity.
Qed.

(** X6: a write or a delete of one key does not touch the others.  On a
    reachable table, after [Set] or [Delete] of a key [k], [Get] of any
    key whose C string differs from that of [k] returns what it returned
    before, locking the same slots. *)
Theorem other_keys_untouched k k' t :
  reachable cs t ->
  string_of_chars k' <> string_of_chars k ->
  (forall now v b t' locked r locked',
      Set_ cs now k v t = Done b t' locked ->
      Get cs k' t = Done r t locked' ->
      Get cs k' t' = Done r t' locked') /\
  (forall b t' locked r locked',
      Delete cs k t = Done b t' locked ->
      Get cs k' t = Done r t locked' ->
      Get cs k' t' = Done r t' locked').
Proof.
  intros Hr Hne. pose proof (reachable_inv _ Hr) as Hinv. split.
  - intros. eapply Set_frame; eauto.
  - intros. eapply Delete_frame; eauto.
Qed.

(** X7: a [Delete] makes room.  On a reachable table, after a [Delete]
    that returned [true], [Set] of any accepted key and value returns
    [true]. *)
Theorem Set_after_Delete k t t' locked now k' v' :
  reachable cs t ->
  Delete cs k t = Done true t' locked ->
  (length k' < MAX_KEY_SIZE)%nat -> (length v' < MAX_VALUE_SIZE)%nat ->
  exists t'' locked', Set_ cs now k' v' t' = Done true t'' locked'.
Proof.
  intros Hr HD Hk Hv. pose proof (reachable_inv _ Hr) as Hinv.
  pose proof Hinv as (Hcap & Hlen & _ & _).
  revert HD. unfold Delete.
  destruct (MAX_KEY_SIZE <=? length k)%nat; [discriminate|].
  destruct (max_keys t =? 0) eqn:E; [discriminate|]. apply Z.eqb_neq in E.
  destruct (probe _ t _ _ 0) as [l [index slot| |]] eqn:Hp;
    try discriminate.
  intros [= <- <-]. apply probe_Found in Hp as (Hslot & _ & _).
  rewrite Set_scan by auto. cbn [max_keys].
  match goal with
  | |- context [probe (eligible k') ?t2 ?s ?f 0] =>
      destruct (probe_cases (eligible k') t2 s)
        as [(l' & i' & s' & Hp' & _)|(l' & _ & _ & Hnone)]
  end.
  - cbn [slots max_keys]. rewrite length_insert. exact Hlen.
  - cbn [max_keys]. lia.
  - cbn [max_keys] in Hp'. rewrite Hp'. eauto.
  - exfalso.
    specialize (Hnone (Z.to_nat index) (wipe_slot slot)). cbn [slots] in Hnone.
    rewrite list_lookup_insert_eq in Hnone by (eapply lookup_lt_Some; eauto).
    specialize (Hnone eq_refl). discriminate.
Qed.

(** *** Enumerating the table *)

Lemma Keys_loop_spec t fuel i :
  0 <= i -> (Z.to_nat i + fuel <= length (slots t))%nat ->
  Keys_loop t fuel i
  = Some ((fun s => string_of_chars (key s))
            <$> List.filter occupied (take fuel (drop (Z.to_nat i) (slots t))),
          seqZ i (Z.of_nat fuel)).
Proof.
  revert i. induction fuel as [|fuel IH]; intros i Hi Hlen.
  - reflexivity.
  - cbn [Keys_loop].
    destruct (slots t !! Z.to_nat i) as [s|] eqn:Hs.
    2:{ apply lookup_ge_None in Hs. lia. }
    rewrite IH by lia. rewrite (drop_S _ _ _ Hs).
    replace (Z.to_nat (i + 1)) with (S (Z.to_nat i)) by lia.
    cbn [take List.filter]. rewrite (seqZ_cons i) by lia.
    replace (Z.succ i) with (i + 1) by lia.
    replace (Z.pred (Z.of_nat (S fuel))) with (Z.of_nat fuel) by lia.
    destruct (occupied s); reflexivity.
Qed.

Lemma Entries_loop_spec t fuel i :
  0 <= i -> (Z.to_nat i + fuel <= length (slots t))%nat ->
  Entries_loop t fuel i
  = Some ((fun s => (string_of_chars (key s), string_of_chars (value s)))
            <$> List.filter occupied (take fuel (drop (Z.to_nat i) (slots t))),
          seqZ i (Z.of_nat fuel)).
Proof.
  revert i. induction fuel as [|fuel IH]; intros i Hi Hlen.
  - reflexivity.
  - cbn [Entries_loop].
    destruct (slots t !! Z.to_nat i) as [s|] eqn:Hs.
    2:{ apply lookup_ge_None in Hs. lia. }
    rewrite IH by lia. rewrite (drop_S _ _ _ Hs).
    replace (Z.to_nat (i + 1)) with (S (Z.to_nat i)) by lia.
    cbn [take List.filter]. rewrite (seqZ_cons i) by lia.
    replace (Z.succ i) with (i + 1) by lia.
    replace (Z.pred (Z.of_nat (S fuel))) with (Z.of_nat fuel) by lia.
    destruct (occupied s); reflexivity.
Qed.

Lemma Keys_spec t :
  Z.of_nat (length (slots t)) = max_keys t ->
  Keys t
  = Done ((fun s => string_of_chars (key s))
            <$> List.filter occupied (slots t))
      t (seqZ 0 (max_keys t)).
Proof.
  intros Hlen. unfold Keys. rewrite Keys_loop_spec by lia.
  change (Z.to_nat 0) with 0%nat. rewrite drop_0, take_ge by lia.
  rewrite Z2Nat.id by lia. reflexivity.
Qed.

Lemma Entries_spec t :
  Z.of_nat (length (slots t)) = max_keys t ->
  Entries t
  = Done ((fun s => (string_of_chars (key s), string_of_chars (value s)))
            <$> List.filter occupied (slots t))
      t (seqZ 0 (max_keys t)).
Proof.
  intros Hlen. unfold Entries. rewrite Entries_loop_spec by lia.
  change (Z.to_nat 0) with 0%nat. rewrite drop_0, take_ge by lia.
  rewrite Z2Nat.id by lia. reflexivity.
Qed.

Lemma count_occupied_filter sl :
  count_occupied sl = length (List.filter occupied sl).
Proof.
  induction sl as [|s sl IH]; [reflexivity|].
  cbn [count_occupied List.filter]. destruct (occupied s); cbn [length]; lia.
Qed.

Lemma elem_of_filter_occupied (s : CacheSlot) sl :
  s ∈ List.filter occupied sl <-> s ∈ sl /\ occupied s = true.
Proof. rewrite !list_elem_of_In. apply filter_In. Qed.

(** X8: what [Keys] and [Entries] return.  On a reachable table both
    return, leave the table as it is and lock every slot once in index
    order; [Keys] lists the C-string key of each occupied slot in slot
    order, [Entries] lists the key and the value of the same slots in
    the same order (its first components are the result of [Keys]), and
    the number of keys listed is [Size]. *)
Theorem Keys_Entries_listing t :
  reachable cs t ->
  exists keys entries,
    Keys t = Done keys t (seqZ 0 (max_keys t)) /\
    Entries t = Done entries t (seqZ 0 (max_keys t)) /\
    keys = (fun s => string_of_chars (key s))
             <$> List.filter occupied (slots t) /\
    entries = (fun s => (string_of_chars (key s), string_of_chars (value s)))
                <$> List.filter occupied (slots t) /\
    keys = fst <$> entries /\
    Z.of_nat (length keys) = Size t.
Proof.
  intros Hr. pose proof (reachable_inv _ Hr) as (Hcap & Hlen & Hnum & Hok).
  eexists _, _. split; [apply Keys_spec; exact Hlen|].
  split; [apply Entries_spec; exact Hlen|].
  split; [reflexivity|]. split; [reflexivity|]. split.
  - rewrite <- list_fmap_compose. reflexivity.
  - rewrite length_fmap, <- count_occupied_filter. unfold Size. lia.
Qed.

(** The key of an occupied slot of a reachable table, read as a C
    string, is an accepted key that holds no NUL byte. *)
Lemma slot_key_accepted s :
  slot_ok s -> occupied s = true ->
  (length (string_of_chars (key s)) < MAX_KEY_SIZE)%nat /\
  string_of_chars (string_of_chars (key s)) = string_of_chars (key s).
Proof.
  intros Hok Ho. unfold slot_ok in Hok. rewrite Ho in Hok.
  destruct Hok as (k0 & v0 & Hk0 & _ & -> & _).
  rewrite padded_read by auto. pose proof (string_of_chars_length k0).
  split; [lia|]. apply string_of_chars_id, string_of_chars_nul_free.
Qed.

(** X9: [Keys] lists what [Has] finds.  On a reachable table every key
    listed by [Keys] is found by [Has], and every accepted key found by
    [Has] is listed by [Keys], as a C string. *)
Theorem Keys_iff_Has t keys locked :
  reachable cs t ->
  Keys t = Done keys t locked ->
  (forall k, k ∈ keys -> exists locked', Has cs k t = Done true t locked') /\
  (forall k, (length k < MAX_KEY_SIZE)%nat ->
     (exists locked', Has cs k t = Done true t locked') ->
     string_of_chars k ∈ keys).
Proof.
  intros Hr HK. pose proof (reachable_inv _ Hr) as Hinv.
  pose proof Hinv as (Hcap & Hlen & Hnum & Hok).
  rewrite Keys_spec in HK by exact Hlen. injection HK as <- <-. split.
  - intros k Hin. apply list_elem_of_fmap in Hin as (s & -> & Hs).
    apply elem_of_filter_occupied in Hs as [Hs Ho].
    apply list_elem_of_lookup_1 in Hs as [i Hs].
    pose proof (Forall_lookup_1 _ _ _ _ Hok Hs) as Hsok.
    destruct (slot_key_accepted _ Hsok Ho) as [Hl Hid].
    apply Has_true_iff; [exact Hinv | exact Hl |].
    exists i, s. rewrite Hid. auto.
  - intros k Hk HH. apply Has_true_iff in HH; [|exact Hinv|exact Hk].
    destruct HH as (i & s & Hs & Ho & <-).
    apply list_elem_of_fmap. exists s. split; [reflexivity|].
    apply elem_of_filter_occupied. split; [|exact Ho].
    eapply list_elem_of_lookup_2; eauto.
Qed.

(** X10: what [Get] returns is listed by [Entries].  On a reachable
    table, when [Get] returns a value for a key, [Entries] lists that
    value under the key's C string. *)
Theorem Get_in_Entries k v t locked entries locked' :
  reachable cs t ->
  Get cs k t = Done (Some v) t locked ->
  Entries t = Done entries t locked' ->
  (string_of_chars k, v) ∈ entries.
Proof.
  intros Hr HG HE. pose proof (reachable_inv _ Hr) as (Hcap & Hlen & Hnum & Hok).
  rewrite Entries_spec in HE by exact Hlen. injection HE as <- <-.
  revert HG. unfold Get.
  destruct (MAX_KEY_SIZE <=? length k)%nat; [discriminate|].
  destruct (max_keys t =? 0); [discriminate|].
  destruct (probe _ t _ _ 0) as [l [index slot| |]] eqn:Hp;
    try discriminate.
  intros [= <- <-]. apply probe_Found in Hp as (Hs & Hh & _).
  pose proof (holds_occupied _ _ Hh) as Ho.
  pose proof (Forall_lookup_1 _ _ _ _ Hok Hs) as Hsok.
  apply list_elem_of_fmap. exists slot. split.
  - f_equal. symmetry. apply same_key_ok; [exact Hsok | exact Ho |].
    unfold holds in Hh. rewrite Ho in Hh. exact Hh.
  - apply elem_of_filter_occupied. split; [|exact Ho].
    eapply list_elem_of_lookup_2; eauto.
Qed.

Lemma cleared_idemp s : cleared (cleared s) = cleared s.
Proof.
  unfold cleared. destruct (occupied s) eqn:E; [reflexivity|].
  rewrite E. reflexivity.
Qed.

Lemma filter_occupied_none sl :
  Forall (fun s => occupied s = false) sl -> List.filter occupied sl = [].
Proof.
  induction 1 as [|s sl Hs _ IH]; [reflexivity|].
  cbn [List.filter]. rewrite Hs. exact IH.
Qed.

(** X11: after [Clear] the table lists nothing, and clearing again
    changes nothing.  On a reachable table, after [Clear], [Keys] and
    [Entries] return the empty list and a second [Clear] returns the
    same table. *)
Theorem Clear_then_empty t t' locked :
  reachable cs t ->
  Clear t = Done tt t' locked ->
  Keys t' = Done [] t' (seqZ 0 (max_keys t')) /\
  Entries t' = Done [] t' (seqZ 0 (max_keys t')) /\
  Clear t' = Done tt t' locked /\
  max_keys t' = max_keys t.
Proof.
  intros Hr HC. pose proof (reachable_inv _ Hr) as Hinv.
  destruct (Clear_inv _ _ _ Hinv HC) as [(Hcap' & Hlen' & _ & _) Hfree].
  pose proof Hinv as (Hcap & Hlen & _ & _).
  rewrite Keys_spec, Entries_spec by exact Hlen'.
  rewrite (filter_occupied_none _ Hfree).
  split; [reflexivity|]. split; [reflexivity|].
  rewrite Clear_spec in HC by (auto; lia). injection HC as <- <-.
  split; [|reflexivity].
  rewrite Clear_spec by (cbn [max_keys slots]; rewrite ?length_fmap; lia).
  cbn [max_keys slots]. do 2 f_equal.
  rewrite <- list_fmap_compose. apply list_fmap_ext. intros i s _.
  apply cleared_idemp.
Qed.

(** *** Capacity, guards and the fresh table *)

Lemma step_max_keys c t b t' locked :
  step cs c t = Done b t' locked -> max_keys t' = max_keys t.
Proof.
  destruct c as [now k v|k|]; cbn [step].
  - unfold Set_. destruct (_ || _); [intros [= <- <- <-]; reflexivity|].
    destruct (max_keys t =? 0); [discriminate|].
    destruct (probe _ t _ _ 0) as [l [index slot| |]];
      [intros [= <- <- <-] | intros [= <- <- <-] | discriminate]; reflexivity.
  - unfold Delete.
    destruct (_ <=? _)%nat; [intros [= <- <- <-]; reflexivity|].
    destruct (max_keys t =? 0); [discriminate|].
    destruct (probe _ t _ _ 0) as [l [index slot| |]];
      [intros [= <- <- <-] | intros [= <- <- <-] | discriminate]; reflexivity.
  - unfold Clear. destruct (Clear_loop _ _ _) as [[sl l]|]; [|discriminate].
    intros [= <- <- <-]. reflexivity.
Qed.

Lemma run_max_keys calls t bs t' locked :
  run cs calls t = Done bs t' locked ->
  max_keys t' = max_keys t /\ length bs = length calls.
Proof.
  revert t bs locked. induction calls as [|c calls IH]; intros t bs locked.
  - intros [= <- <- <-]. auto.
  - cbn [run]. destruct (step cs c t) as [b t1 l1|] eqn:Hs; [|discriminate].
    destruct (run cs calls t1) as [bs' t2 l2|] eqn:Hrun; [|discriminate].
    intros [= <- <- <-]. destruct (IH _ _ _ Hrun) as [-> Hl].
    split; [eapply step_max_keys; eauto | cbn [length]; lia].
Qed.

(** X12: the capacity is fixed at creation.  Whatever sequence of [Set],
    [Delete] and [Clear] calls runs on the table created with capacity
    [n], each call returning, the table keeps capacity [n] and exactly
    [n] slots, one result is returned per call, and [Size] stays between
    0 and [n]. *)
Theorem capacity_fixed n calls bs t locked :
  0 <= n < UINT32_MOD ->
  run cs calls (InitializeSharedMemory n) = Done bs t locked ->
  max_keys t = n /\ Z.of_nat (length (slots t)) = n /\
  length bs = length calls /\ 0 <= Size t <= n.
Proof.
  intros Hn Hrun. destruct (run_max_keys _ _ _ _ _ Hrun) as [Hcap Hl].
  assert (Hr : reachable cs t).
  { eapply run_reachable; [|exact Hrun]. apply reach_init. exact Hn. }
  pose proof (reachable_inv _ Hr) as (_ & Hlen & Hnum & _).
  pose proof (count_occupied_le (slots t)).
  cbn [max_keys InitializeSharedMemory] in Hcap. unfold Size.
  split; [exact Hcap|]. split; [lia|]. split; [exact Hl | lia].
Qed.

(** X13: the length guard of the lookups.  For a key of [MAX_KEY_SIZE]
    bytes or more, on every table, of capacity 0 as well, [Get] returns
    absent and [Has] and [Delete] return [false], without locking a
    slot, computing a start index or changing the table. *)
Theorem long_key_rejected k t :
  (MAX_KEY_SIZE <= length k)%nat ->
  Get cs k t = Done None t [] /\
  Has cs k t = Done false t [] /\
  Delete cs k t = Done false t [].
Proof.
  intros H. apply Nat.leb_le in H. unfold Get, Has, Delete. rewrite H.
  repeat split.
Qed.

Lemma Get_all_free k t :
  table_inv t -> Forall (fun s => occupied s = false) (slots t) ->
  0 < max_keys t ->
  exists locked, Get cs k t = Done None t locked.
Proof.
  intros (_ & Hlen & _ & _) Hfree Hcap.
  destruct (le_lt_dec MAX_KEY_SIZE (length k)) as [Hk|Hk].
  - unfold Get. apply Nat.leb_le in Hk. rewrite Hk. eauto.
  - rewrite Get_scan by (auto; lia).
    destruct (probe_cases (holds k) t (Hash cs k mod max_keys t) Hlen Hcap)
      as [(l & index & slot & -> & _ & Hs & Hh)|(l & -> & _)].
    + apply holds_occupied in Hh.
      pose proof (Forall_lookup_1 _ _ _ _ Hfree Hs) as Hf. cbn in Hf.
      congruence.
    + eauto.
Qed.

(** X14: a new cache is empty.  The table the constructor creates has
    the capacity given by [maxKeys], reduced modulo 2^32, or 1024 when
    the option is absent; it is reachable, its [Size] is 0, [Keys] and
    [Entries] list nothing, and, when the capacity is not 0, [Has] and
    [Get] of every key report it absent. *)
Theorem new_cache_empty options :
  let t := FastShmCache options in
  max_keys t = match maxKeys options with
               | Some n => n mod 2 ^ 32
               | None => 1024
               end /\
  reachable cs t /\ Size t = 0 /\
  Keys t = Done [] t (seqZ 0 (max_keys t)) /\
  Entries t = Done [] t (seqZ 0 (max_keys t)) /\
  (max_keys t <> 0 ->
   forall k, (exists locked, Has cs k t = Done false t locked) /\
             (exists locked, Get cs k t = Done None t locked)).
Proof.
  intros t.
  assert (Hn : 0 <= max_keys t < UINT32_MOD).
  { unfold t, FastShmCache, Uint32Value, DEFAULT_MAX_KEYS, UINT32_MOD.
    cbn [max_keys InitializeSharedMemory].
    destruct (maxKeys options); [apply Z.mod_pos_bound|]; lia. }
  assert (Hr : reachable cs t) by (apply reach_init; exact Hn).
  pose proof (reachable_inv _ Hr) as Hinv.
  pose proof Hinv as (_ & Hlen & _ & _).
  assert (Hfree : Forall (fun s => occupied s = false) (slots t)).
  { apply Forall_replicate. reflexivity. }
  split; [reflexivity|]. split; [exact Hr|]. split; [reflexivity|].
  rewrite Keys_spec, Entries_spec by exact Hlen.
  rewrite (filter_occupied_none _ Hfree).
  split; [reflexivity|]. split; [reflexivity|].
  intros Hne k.
  split; [apply Has_all_free; auto; lia | apply Get_all_free; auto; lia].
Qed.

(** X15: what [Get] returns could be stored again.  On a reachable table
    a value returned by [Get] holds no NUL byte and is shorter than
    [MAX_VALUE_SIZE], so that [Set] accepts it and stores it whole. *)
Theorem Get_value_storable k v t locked :
  reachable cs t ->
  Get cs k t = Done (Some v) t locked ->
  nul_free v /\ (length v < MAX_VALUE_SIZE)%nat /\ string_of_chars v = v.
Proof.
  intros Hr. pose proof (reachable_inv _ Hr) as (_ & _ & _ & Hok).
  unfold Get.
  destruct (MAX_KEY_SIZE <=? length k)%nat; [discriminate|].
  destruct (max_keys t =? 0); [discriminate|].
  destruct (probe _ t _ _ 0) as [l [index slot| |]] eqn:Hp;
    try discriminate.
  intros [= <- <-]. apply probe_Found in Hp as (Hs & Hh & _).
  apply holds_occupied in Hh.
  pose proof (Forall_lookup_1 _ _ _ _ Hok Hs) as Hsok.
  unfold slot_ok in Hsok. rewrite Hh in Hsok.
  destruct Hsok as (k0 & v0 & _ & Hv0 & _ & ->).
  rewrite padded_read by auto. pose proof (string_of_chars_length v0).
  split; [apply string_of_chars_nul_free|]. split; [lia|].
  apply string_of_chars_id, string_of_chars_nul_free.
Qed.

(** The hash fits 32 bits, whatever the key and the signedness of
    [char]. *)
Lemma Hash_range key : 0 <= Hash cs key < 2 ^ 32.
Proof.
  unfold Hash.
  assert (H0 : 0 <= FNV_OFFSET_BASIS < 2 ^ 32)
    by (unfold FNV_OFFSET_BASIS; lia).
  revert H0. generalize FNV_OFFSET_BASIS as h.
  induction key as [|c key IH]; intros h Hh; cbn [fold_left].
  - exact Hh.
  - apply IH. unfold Hash_step, UINT32_MOD. apply Z.mod_pos_bound. lia.
Qed.

(** *** Without [Delete], keys stay unique *)

(** Rewriting a slot on which the test holds does not change a scan that
    stops at another slot: the scan never reached the rewritten one. *)
Lemma probe_insert_unseen hit t n idx old new start_index fuel i l j s :
  slots t !! idx = Some old -> hit old = true -> Z.to_nat j <> idx ->
  probe hit t start_index fuel i = (l, Found j s) ->
  probe hit
    {| max_keys := max_keys t; num_entries := n;
       slots := <[idx := new]> (slots t) |}
    start_index fuel i
  = (l, Found j s).
Proof.
  intros Hold Hhit Hne. revert i l.
  induction fuel as [|fuel IH]; intros i l; [discriminate|].
  cbn [probe max_keys slots].
  destruct (slots t !! Z.to_nat ((start_index + i) mod max_keys t))
    as [sx|] eqn:Hsx; [|discriminate].
  destruct (decide (Z.to_nat ((start_index + i) mod max_keys t) = idx))
    as [E|E].
  - rewrite E, Hold in Hsx. injection Hsx as <-. rewrite Hhit.
    intros [= <- <- <-]. contradiction.
  - rewrite list_lookup_insert_ne by auto. rewrite Hsx.
    destruct (hit sx); [auto|].
    destruct (probe hit t start_index fuel (i + 1)) as [l' r] eqn:Hp.
    intros [= <- ->]. rewrite (IH _ _ Hp). reflexivity.
Qed.

(** On an occupied slot of a reachable table, a key is eligible exactly
    when it is the stored one. *)
Lemma eligible_occupied k s :
  slot_ok s -> occupied s = true ->
  eligible k s = true <-> string_of_chars (key s) = string_of_chars k.
Proof.
  intros Hok Ho. unfold eligible. rewrite Ho. cbn [negb orb].
  apply same_key_ok; auto.
Qed.

Lemma at_home_init n : at_home cs (InitializeSharedMemory n).
Proof.
  intros j s Hs Ho. cbn [slots InitializeSharedMemory] in Hs.
  apply lookup_replicate in Hs as [-> _]. discriminate.
Qed.

Lemma at_home_Clear t t' locked :
  table_inv t -> Clear t = Done tt t' locked -> at_home cs t'.
Proof.
  intros Hinv HC. destruct (Clear_inv _ _ _ Hinv HC) as [_ Hfree].
  intros j s Hs Ho. pose proof (Forall_lookup_1 _ _ _ _ Hfree Hs) as Hf.
  cbn in Hf. congruence.
Qed.

Lemma at_home_Set now k v t b t' locked :
  table_inv t -> at_home cs t -> nul_free k ->
  Set_ cs now k v t = Done b t' locked -> at_home cs t'.
Proof.
  intros Hinv Hhome Hnul. pose proof Hinv as (Hcap & Hlen & Hnum & Hok).
  unfold Set_.
  destruct (MAX_KEY_SIZE <=? length k)%nat eqn:Ek;
    [intros [= <- <- <-]; exact Hhome|].
  destruct (MAX_VALUE_SIZE <=? length v)%nat eqn:Ev;
    [intros [= <- <- <-]; exact Hhome|].
  apply Nat.leb_gt in Ek, Ev. cbn [orb].
  destruct (max_keys t =? 0) eqn:E0; [discriminate|]. apply Z.eqb_neq in E0.
  destruct (probe _ t _ _ 0) as [l [index slot| |]] eqn:Hp;
    [|intros [= <- <- <-]; exact Hhome|discriminate].
  intros [= <- <- <-].
  pose proof (probe_Found _ _ _ _ _ _ _ _ Hp)
    as (Hslot & Hel & i0 & _ & Hidx & _).
  assert (Hidx0 : 0 <= index) by (rewrite Hidx; apply Z.mod_pos_bound; lia).
  pose proof (Forall_lookup_1 _ _ _ _ Hok Hslot) as Hsok.
  set (new := write_slot now k v slot) in *.
  assert (Hnew : new = mkSlot true (padded MAX_KEY_SIZE k)
                         (padded MAX_VALUE_SIZE v) now)
    by (apply write_slot_eq; auto using slot_ok_wf; lia).
  assert (Hnewok : slot_ok new)
    by (apply write_slot_ok; auto using slot_ok_wf; lia).
  assert (Hnewkey : string_of_chars (key new) = k).
  { rewrite Hnew. cbn [key]. rewrite padded_read by lia.
    apply string_of_chars_id. exact Hnul. }
  intros j s Hs Ho. cbn [slots max_keys] in *.
  destruct (decide (j = Z.to_nat index)) as [->|Hne].
  - rewrite list_lookup_insert_eq in Hs by (eapply lookup_lt_Some; eauto).
    injection Hs as <-. rewrite Hnewkey. exists l.
    rewrite Z2Nat.id by exact Hidx0.
    apply (probe_after_write (eligible k) (eligible k) t _ _ _ _ _ _ slot new
             (fun s H => H)); [|exact Hp].
    apply (eligible_occupied k new Hnewok); [rewrite Hnew; reflexivity|].
    rewrite Hnewkey. symmetry. apply string_of_chars_id. exact Hnul.
  - rewrite list_lookup_insert_ne in Hs by auto.
    destruct (Hhome _ _ Hs Ho) as [l' Hp'].
    pose proof (Forall_lookup_1 _ _ _ _ Hok Hs) as Hjok.
    set (ks := string_of_chars (key s)) in *.
    assert (Hks : string_of_chars ks = ks)
      by (apply string_of_chars_id, string_of_chars_nul_free).
    assert (Hkk : ks <> k).
    { intros Heq. rewrite Heq, Hp in Hp'. injection Hp' as _ Hi _.
      apply Hne. rewrite Hi. lia. }
    exists l'. destruct (occupied slot) eqn:Hos.
    + rewrite probe_insert_miss_eq with (s := slot); auto.
      * destruct (eligible ks slot) eqn:E; [|reflexivity].
        apply (eligible_occupied _ _ Hsok Hos) in E.
        apply (eligible_occupied _ _ Hsok Hos) in Hel.
        rewrite (string_of_chars_id k Hnul) in Hel. congruence.
      * destruct (eligible ks new) eqn:E; [|reflexivity].
        apply (eligible_occupied _ _ Hnewok) in E;
          [|rewrite Hnew; reflexivity].
        congruence.
    + apply probe_insert_unseen with (old := slot); auto.
      * unfold eligible. rewrite Hos. reflexivity.
      * lia.
Qed.

Lemma at_home_run calls : forall t bs t' locked,
  reachable cs t -> at_home cs t -> Forall keeps_keys calls ->
  run cs calls t = Done bs t' locked -> at_home cs t'.
Proof.
  induction calls as [|c calls IH]; intros t bs t' locked Hr Hh Hk.
  - intros [= <- <- <-]. exact Hh.
  - apply Forall_cons in Hk as [Hc Hk]. cbn [run].
    destruct (step cs c t) as [b t1 l1|] eqn:Hs; [|discriminate].
    destruct (run cs calls t1) as [bs' t2 l2|] eqn:Hrun; [|discriminate].
    intros [= <- <- <-].
    pose proof (reachable_inv _ Hr) as Hinv.
    destruct c as [now k v|k|]; cbn [step keeps_keys] in *.
    + eapply IH; [eapply reach_Set; eauto | | exact Hk | exact Hrun].
      eapply at_home_Set; eauto.
    + contradiction.
    + destruct (Clear t) as [[] t1' l1'|] eqn:HC; [|discriminate].
      injection Hs as <- <- <-.
      eapply IH; [eapply reach_Clear; eauto | | exact Hk | exact Hrun].
      eapply at_home_Clear; eauto.
Qed.

Lemma at_home_unique t i j si sj :
  at_home cs t ->
  slots t !! i = Some si -> slots t !! j = Some sj ->
  occupied si = true -> occupied sj = true ->
  string_of_chars (key si) = string_of_chars (key sj) ->
  i = j.
Proof.
  intros Hh Hi Hj Hoi Hoj Hkey.
  destruct (Hh _ _ Hi Hoi) as [li Hpi]. destruct (Hh _ _ Hj Hoj) as [lj Hpj].
  rewrite Hkey, Hpj in Hpi. injection Hpi as _ Hij _. lia.
Qed.

(** X16: without [Delete], keys stay unique.  In every table reached
    from a freshly created one by [Set] calls whose keys hold no NUL
    byte and by [Clear] calls, no two occupied slots store the same
    key. *)
Theorem keys_unique_without_Delete n calls bs t locked :
  0 <= n < UINT32_MOD ->
  Forall keeps_keys calls ->
  run cs calls (InitializeSharedMemory n) = Done bs t locked ->
  forall i j si sj,
    slots t !! i = Some si -> slots t !! j = Some sj ->
    occupied si = true -> occupied sj = true ->
    string_of_chars (key si) = string_of_chars (key sj) ->
    i = j.
Proof.
  intros Hn Hk Hrun i j si sj. apply at_home_unique.
  eapply at_home_run; [apply reach_init; exact Hn | apply at_home_init
                      | exact Hk | exact Hrun].
Qed.

(** X25: the first [Delete] removes the key.  In a table reached from a
    freshly created one by [Set] calls whose keys hold no NUL byte and by
    [Clear] calls, after a [Set] of such a key that returned [true], the
    [Delete] of that key returns [true], stops at the slot [Set] wrote,
    and afterwards [Has] and [Get] report the key absent. *)
Theorem first_Delete_removes n calls bs t locked now k v t1 locked1 :
  0 <= n < UINT32_MOD ->
  Forall keeps_keys calls ->
  run cs calls (InitializeSharedMemory n) = Done bs t locked ->
  nul_free k ->
  Set_ cs now k v t = Done true t1 locked1 ->
  exists t2,
    Delete cs k t1 = Done true t2 locked1 /\
    (exists locked', Has cs k t2 = Done false t2 locked') /\
    (exists locked', Get cs k t2 = Done None t2 locked').
Proof.
  intros Hn Hk Hrun Hnul HSet.
  assert (Hr : reachable cs t).
  { eapply run_reachable; [apply reach_init; exact Hn | exact Hrun]. }
  pose proof (reachable_inv _ Hr) as Hinv.
  assert (Hh : at_home cs t).
  { eapply at_home_run; [apply reach_init; exact Hn | apply at_home_init
                        | exact Hk | exact Hrun]. }
  pose proof (at_home_Set _ _ _ _ _ _ _ Hinv Hh Hnul HSet) as Hh1.
  pose proof (Set_inv _ _ _ _ _ _ _ Hinv HSet) as (_ & _ & _ & Hok1).
  eapply Delete_after_Set_unique; [apply table_inv_wf; exact Hinv
                                  | exact HSet |].
  intros i j si sj Hi Hj Hhi Hhj.
  pose proof (holds_occupied _ _ Hhi) as Hoi.
  pose proof (holds_occupied _ _ Hhj) as Hoj.
  apply (at_home_unique t1 i j si sj Hh1 Hi Hj Hoi Hoj).
  unfold holds in Hhi, Hhj. rewrite Hoi in Hhi. rewrite Hoj in Hhj.
  cbn [andb] in Hhi, Hhj.
  apply (same_key_ok k si (Forall_lookup_1 _ _ _ _ Hok1 Hi) Hoi) in Hhi.
  apply (same_key_ok k sj (Forall_lookup_1 _ _ _ _ Hok1 Hj) Hoj) in Hhj.
  congruence.
Qed.

(** *** A write stays readable *)

Lemma Get_run_frame k calls : forall t bs t' locked r locked',
  reachable cs t -> Forall (other_key k) calls ->
  run cs calls t = Done bs t' locked ->
  Get cs k t = Done r t locked' ->
  Get cs k t' = Done r t' locked'.
Proof.
  induction calls as [|c calls IH]; intros t bs t' locked r locked' Hr Hk.
  - intros [= <- <- <-]. auto.
  - apply Forall_cons in Hk as [Hc Hk]. cbn [run].
    destruct (step cs c t) as [b t1 l1|] eqn:Hs; [|discriminate].
    destruct (run cs calls t1) as [bs' t2 l2|] eqn:Hrun; [|discriminate].
    intros [= <- <- <-] HG. pose proof (reachable_inv _ Hr) as Hinv.
    destruct c as [now k' v|k'|]; cbn [step other_key] in *.
    + eapply IH; [eapply reach_Set; eauto | exact Hk | exact Hrun |].
      eapply Set_frame; eauto.
    + eapply IH; [eapply reach_Delete; eauto | exact Hk | exact Hrun |].
      eapply Delete_frame; eauto.
    + contradiction.
Qed.

(** X24: a write stays readable until its key is touched.  On a
    reachable table, after a [Set] of key [k] that returned [true],
    followed by any sequence of [Set] and [Delete] calls on keys whose C
    strings differ from that of [k], whatever they return, [Get] of [k]
    returns the value written, as stored. *)
Theorem write_survives_other_calls now k v t calls bs t' locked :
  reachable cs t ->
  Forall (other_key k) calls ->
  run cs (SetCall now k v :: calls) t = Done (true :: bs) t' locked ->
  exists locked',
    Get cs k t' = Done (Some (string_of_chars v)) t' locked'.
Proof.
  intros Hr Hk. cbn [run step].
  destruct (Set_ cs now k v t) as [b t1 l1|] eqn:HSet; [|discriminate].
  destruct (run cs calls t1) as [bs' t2 l2|] eqn:Hrun; [|discriminate].
  intros [= -> <- <- <-]. exists l1.
  eapply Get_run_frame; [eapply reach_Set; eauto | exact Hk | exact Hrun |].
  eapply Set_then_Get; [|exact HSet].
  apply table_inv_wf, reachable_inv. exact Hr.
Qed.

End EngineFacts.

(** ** Concrete tables *)

Lemma table_one_reachable sgn : reachable sgn table_one.
Proof.
  apply (run_reachable sgn [SetCall 1 ["a"%byte] ["1"%byte]]
           (InitializeSharedMemory 1) [true] table_one [0]).
  - apply reach_init. unfold UINT32_MOD. lia.
  - destruct sgn; vm_compute; reflexivity.
Qed.

Lemma table_hole_reachable sgn : reachable sgn table_hole.
Proof.
  apply (run_reachable sgn
           [SetCall 1 ["a"%byte] ["1"%byte]; SetCall 2 ["c"%byte] ["2"%byte];
            DeleteCall ["a"%byte]]
           (InitializeSharedMemory 2) [true; true; true] table_hole
           [0; 0; 1; 0]).
  - apply reach_init. unfold UINT32_MOD. lia.
  - destruct sgn; vm_compute; reflexivity.
Qed.

Lemma table_dup_reachable sgn : reachable sgn table_dup.
Proof.
  apply (reach_Set sgn table_hole 4 ["c"%byte] ["4"%byte] true table_dup [0]).
  - apply table_hole_reachable.
  - destruct sgn; vm_compute; reflexivity.
Qed.

(** ** Uniqueness of keys *)

(** C1 fails on the code.  With capacity 2, [set("a","1")],
    [set("c","2")], [delete("a")], [set("c","4")] all return [true] and
    lead to a reachable table whose two slots are both occupied and
    hold the same key "c": [Set] takes the first free slot of the probe
    sequence without looking for the key in the slots behind it. *)
Theorem Set_duplicates_key sgn :
  run sgn
    [SetCall 1 ["a"%byte] ["1"%byte]; SetCall 2 ["c"%byte] ["2"%byte];
     DeleteCall ["a"%byte]; SetCall 4 ["c"%byte] ["4"%byte]]
    (InitializeSharedMemory 2)
  = Done [true; true; true; true] table_dup [0; 0; 1; 0; 0] /\
  reachable sgn table_dup /\
  exists s0 s1,
    slots table_dup !! 0%nat = Some s0 /\ slots table_dup !! 1%nat = Some s1 /\
    occupied s0 = true /\ occupied s1 = true /\ key s0 = key s1 /\
    string_of_chars (key s0) = ["c"%byte].
Proof.
  split; [destruct sgn; vm_compute; reflexivity|].
  split; [apply table_dup_reachable|].
  eexists _, _. repeat split; reflexivity.
Qed.

(** C2 fails on the code.  On the reachable table [table_hole],
    [set("c","4")] returns [true], the [delete("c")] that follows
    returns [true], and then [has("c")] is still [true] and [get("c")]
    returns the older value "2": the delete removed the copy [Set] had
    just written into the hole and left the one in slot 1. *)
Theorem Delete_after_Set_key_remains sgn :
  reachable sgn table_hole /\
  Set_ sgn 4 ["c"%byte] ["4"%byte] table_hole = Done true table_dup [0] /\
  Delete sgn ["c"%byte] table_dup = Done true table_stale [0] /\
  Has sgn ["c"%byte] table_stale = Done true table_stale [0; 1] /\
  Get sgn ["c"%byte] table_stale = Done (Some ["2"%byte]) table_stale [0; 1].
Proof.
  split; [apply table_hole_reachable|].
  destruct sgn; repeat split; vm_compute; reflexivity.
Qed.

(** ** The hash on bytes of 0x80 and above *)

(** C8 fails on the code where plain [char] is signed.  For the key
    made of the euro sign (UTF-8 bytes E2 82 AC) [Hash] returns
    0x308c2e2b, whereas 32-bit FNV-1a of these three bytes is 0x298f832b:
    the conversion of a negative [char] to [uint32_t] sign-extends, so
    the XOR flips the upper 24 bits as well.  With the default capacity
    of 1024 the probe starts at index 555 instead of 811. *)
Theorem Hash_sign_extends_high_bytes :
  Hash true [xe2; x82; xac] = 0x308c2e2b /\
  fnv1a_spec [xe2; x82; xac] = 0x298f832b /\
  Hash true [xe2; x82; xac] <> fnv1a_spec [xe2; x82; xac] /\
  Hash true [xe2; x82; xac] mod DEFAULT_MAX_KEYS = 555 /\
  fnv1a_spec [xe2; x82; xac] mod DEFAULT_MAX_KEYS = 811.
Proof. repeat split; try reflexivity; vm_compute; discriminate. Qed.

(** ** The claims that fail as stated, on concrete inputs *)

(** Counterexample to C3 as stated.  On [table_hole] the probe of "c"
    starts at index 0; slot 0 is unoccupied and slot 1, the next index
    of the probe sequence, holds "c".  [Set] of "c" locks slot 0 only:
    it ends its scan at the unoccupied slot and does not visit slot 1.
    And on [table_dup] a [Get] of "c" returns at slot 0, where it finds
    the key, without visiting slot 1. *)
Lemma scan_counterexample :
  reachable true table_hole /\
  Hash true ["c"%byte] mod max_keys table_hole = 0 /\
  slots table_hole !! 0%nat = Some (free_slot 1) /\
  occupied (free_slot 1) = false /\
  slots table_hole !! 1%nat = Some (slot_of ["c"%byte] ["2"%byte] 2) /\
  holds ["c"%byte] (slot_of ["c"%byte] ["2"%byte] 2) = true /\
  Set_ true 4 ["c"%byte] ["4"%byte] table_hole = Done true table_dup [0] /\
  ~ full_scan_as_claimed true ["c"%byte] table_hole [0] /\
  Get true ["c"%byte] table_dup = Done (Some ["4"%byte]) table_dup [0] /\
  ~ full_scan_as_claimed true ["c"%byte] table_dup [0].
Proof.
  split; [apply table_hole_reachable|].
  repeat split; try (vm_compute; reflexivity); vm_compute; discriminate.
Qed.

(** Counterexample to C4 as stated: on the empty table of capacity 1,
    [set("a", v)] with the three-byte value [v] = 'x', NUL, 'y' returns
    [true], and [get("a")] then returns "x", not [v]. *)
Lemma get_after_set_counterexample :
  wf (InitializeSharedMemory 1) /\
  (length ["a"%byte] < MAX_KEY_SIZE)%nat /\
  (length ["x"%byte; x00; "y"%byte] < MAX_VALUE_SIZE)%nat /\
  Set_ true 1 ["a"%byte] ["x"%byte; x00; "y"%byte] (InitializeSharedMemory 1)
  = Done true (mkTable 1 1 [slot_of ["a"%byte] ["x"%byte] 1]) [0] /\
  Get true ["a"%byte] (mkTable 1 1 [slot_of ["a"%byte] ["x"%byte] 1])
  = Done (Some ["x"%byte]) (mkTable 1 1 [slot_of ["a"%byte] ["x"%byte] 1]) [0] /\
  ~ get_after_set_as_claimed true 1 ["a"%byte] ["x"%byte; x00; "y"%byte]
      (InitializeSharedMemory 1).
Proof.
  split; [split; [reflexivity | repeat constructor]|].
  split; [unfold MAX_KEY_SIZE; cbn; lia|].
  split; [unfold MAX_VALUE_SIZE; cbn; lia|].
  split; [vm_compute; reflexivity|].
  split; [vm_compute; reflexivity|].
  intros H.
  destruct (H (mkTable 1 1 [slot_of ["a"%byte] ["x"%byte] 1]) [0])
    as [l Hl]; [vm_compute; reflexivity|].
  vm_compute in Hl. discriminate.
Qed.

(** Counterexample to C6 as stated: capacity 1, [set("a", "1")], then a
    [Set] of the second, distinct key made of 'a' and a NUL byte.  This
    call returns [true], not [false], and overwrites the value of "a". *)
Lemma table_full_counterexample :
  NoDup [["a"%byte]; ["a"%byte; x00]] /\
  Forall accepted [mkSetArgs 1 ["a"%byte] ["1"%byte]] /\
  (length ["a"%byte; x00] < MAX_KEY_SIZE)%nat /\
  run true (set_call <$> [mkSetArgs 1 ["a"%byte] ["1"%byte]])
    (InitializeSharedMemory 1)
  = Done [true] table_one [0] /\
  Set_ true 2 ["a"%byte; x00] ["2"%byte] table_one
  = Done true (mkTable 1 1 [slot_of ["a"%byte] ["2"%byte] 2]) [0] /\
  ~ table_full_as_claimed true 1 [mkSetArgs 1 ["a"%byte] ["1"%byte]]
      2 ["a"%byte; x00] ["2"%byte].
Proof.
  split.
  { apply NoDup_cons. split; [|apply NoDup_singleton].
    intros H. apply list_elem_of_singleton in H. discriminate. }
  split; [repeat constructor; unfold MAX_KEY_SIZE, MAX_VALUE_SIZE; cbn; lia|].
  split; [unfold MAX_KEY_SIZE; cbn; lia|].
  split; [vm_compute; reflexivity|].
  split; [vm_compute; reflexivity|].
  intros (t & locked & Hrun & (l' & HSet) & _).
  vm_compute in Hrun. injection Hrun as <- <-.
  vm_compute in HSet. discriminate.
Qed.

(** Counterexample to C7 as stated: after [set("a", "1")] on the empty
    table of capacity 1, [size()] is 1 while [has] is true for the two
    different keys "a" and 'a' followed by a NUL byte. *)
Lemma size_key_count_counterexample :
  reachable true table_one /\
  Size table_one = 1 /\
  Has true ["a"%byte] table_one = Done true table_one [0] /\
  Has true ["a"%byte; x00] table_one = Done true table_one [0] /\
  ~ size_is_key_count true table_one.
Proof.
  split; [apply table_one_reachable|].
  split; [reflexivity|].
  split; [vm_compute; reflexivity|].
  split; [vm_compute; reflexivity|].
  intros (keys & Hnd & Hiff & Hsize).
  assert (H1 : ["a"%byte] ∈ keys).
  { apply Hiff. exists [0]. vm_compute. reflexivity. }
  assert (H2 : ["a"%byte; x00] ∈ keys).
  { apply Hiff. exists [0]. vm_compute. reflexivity. }
  change (Size table_one) with 1 in Hsize.
  destruct keys as [|x [|y keys]]; cbn [length] in Hsize; try lia.
  apply list_elem_of_singleton in H1, H2. congruence.
Qed.

(** On [table_dup] the count is off through the duplicate as well:
    [size()] is 2 while every key that [has] finds is the one key "c". *)
Lemma table_dup_size_two_one_key :
  Size table_dup = 2 /\
  forall k, (length k < MAX_KEY_SIZE)%nat ->
    (exists locked, Has true k table_dup = Done true table_dup locked) ->
    string_of_chars k = ["c"%byte].
Proof.
  split; [reflexivity|]. intros k Hk HH.
  apply Has_true_iff in HH;
    [|apply reachable_inv with (cs := true); apply table_dup_reachable
     |exact Hk].
  destruct HH as (i & s & Hs & _ & Hkey). rewrite <- Hkey.
  destruct i as [|[|i]]; cbn in Hs; [| |discriminate];
    injection Hs as <-; reflexivity.
Qed.

(** ** The theorems at concrete inputs *)

Lemma Set_length_guard_witness :
  Set_ true 0 (replicate 64 "k"%byte) ["v"%byte] table_one
  = Done false table_one [] /\
  Set_ true 0 ["k"%byte] (replicate 256 "v"%byte) table_one
  = Done false table_one [] /\
  exists t' locked,
    Set_ true 0 (replicate 63 "k"%byte) (replicate 255 "v"%byte)
      (InitializeSharedMemory 1)
    = Done true t' locked /\
    Get true (replicate 63 "k"%byte) t'
    = Done (Some (replicate 255 "v"%byte)) t' locked.
Proof.
  pose proof (Set_length_guard true) as [Hrej Hacc].
  split; [apply Hrej; left; vm_compute; lia|].
  split; [apply Hrej; right; vm_compute; lia|].
  destruct (Hacc 0 (replicate 63 "k"%byte) (replicate 255 "v"%byte)
              (InitializeSharedMemory 1))
    as (t' & locked & HSet & HGet & Hv).
  - reflexivity.
  - reflexivity.
  - split; [reflexivity | repeat constructor].
  - reflexivity.
  - exists 0%nat, zero_slot. split; reflexivity.
  - exists t', locked. split; [exact HSet|].
    rewrite <- Hv at 1; [exact HGet|].
    apply Forall_replicate. reflexivity.
Defined.

Lemma Get_after_Set_witness :
  wf (InitializeSharedMemory 1) /\
  Set_ true 1 ["a"%byte] ["1"%byte] (InitializeSharedMemory 1)
  = Done true table_one [0] /\
  Get true ["a"%byte] table_one = Done (Some ["1"%byte]) table_one [0].
Proof.
  assert (Hwf : wf (InitializeSharedMemory 1))
    by (split; [reflexivity | repeat constructor]).
  assert (HSet : Set_ true 1 ["a"%byte] ["1"%byte] (InitializeSharedMemory 1)
                 = Done true table_one [0])
    by (vm_compute; reflexivity).
  split; [exact Hwf|]. split; [exact HSet|].
  exact (proj1 (Get_after_Set true 1 ["a"%byte] ["1"%byte]
                  (InitializeSharedMemory 1) table_one [0] Hwf HSet)).
Defined.

Lemma Clear_empties_witness :
  reachable true table_dup /\
  exists t' locked,
    Clear table_dup = Done tt t' locked /\
    locked = seqZ 0 (max_keys table_dup) /\
    max_keys t' = max_keys table_dup /\
    length (slots t') = length (slots table_dup) /\
    Size t' = 0 /\
    (forall i s, slots table_dup !! i = Some s ->
       exists s', slots t' !! i = Some s' /\
                  occupied s' = false /\
                  key s' = replicate MAX_KEY_SIZE x00 /\
                  value s' = replicate MAX_VALUE_SIZE x00 /\
                  timestamp s' = timestamp s) /\
    Forall (fun s => occupied s = false /\
                     key s = replicate MAX_KEY_SIZE x00 /\
                     value s = replicate MAX_VALUE_SIZE x00) (slots t') /\
    forall k locked0,
      Has true k table_dup = Done true table_dup locked0 ->
      exists locked1, Has true k t' = Done false t' locked1.
Proof.
  split; [apply table_dup_reachable|].
  apply (Clear_empties true table_dup). apply table_dup_reachable.
Defined.

Lemma slot_indices_in_bounds_witness :
  wf table_dup /\ 1 <= max_keys table_dup /\
  (forall now k v, exists b t' n, 0 <= n <= max_keys table_dup /\
      Set_ true now k v table_dup
      = Done b t' (probe_trace table_dup
                     (Hash true k mod max_keys table_dup) n) /\
      in_bounds table_dup
        (probe_trace table_dup (Hash true k mod max_keys table_dup) n)) /\
  (exists keys, Keys table_dup = Done keys table_dup [0; 1]).
Proof.
  assert (Hwf : wf table_dup) by (split; [reflexivity | repeat constructor]).
  assert (Hcap : 1 <= max_keys table_dup) by (cbn; lia).
  split; [exact Hwf|]. split; [exact Hcap|].
  destruct (proj1 (slot_indices_in_bounds true) table_dup Hwf Hcap)
    as (_ & HSet & _ & _ & _ & HKeys & _).
  split; [exact HSet | exact HKeys].
Defined.

Lemma Size_counts_occupied_witness :
  reachable true table_dup /\
  Size table_dup = Z.of_nat (count_occupied (slots table_dup)) /\
  0 <= Size table_dup <= max_keys table_dup.
Proof.
  split; [apply table_dup_reachable|].
  destruct (Size_counts_occupied true table_dup (table_dup_reachable true))
    as (Hsize & Hrange & _).
  split; [exact Hsize | exact Hrange].
Defined.

(** The scenario of capacity 2: "a" and "b" go in, "c" is refused, and
    "a" and "b" are read back. *)
Lemma table_full_keeps_entries_witness :
  exists t locked,
    run true
      (set_call <$> [mkSetArgs 1 ["a"%byte] ["1"%byte];
                     mkSetArgs 2 ["b"%byte] ["2"%byte]])
      (InitializeSharedMemory 2)
    = Done [true; true] t locked /\
    (exists locked', Set_ true 3 ["c"%byte] ["3"%byte] t = Done false t locked') /\
    (exists locked', Get true ["a"%byte] t = Done (Some ["1"%byte]) t locked') /\
    (exists locked', Get true ["b"%byte] t = Done (Some ["2"%byte]) t locked').
Proof.
  destruct (table_full_keeps_entries true 2
              [mkSetArgs 1 ["a"%byte] ["1"%byte];
               mkSetArgs 2 ["b"%byte] ["2"%byte]]
              3 ["c"%byte] ["3"%byte])
    as (t & locked & Hrun & HSet & HGet).
  - unfold UINT32_MOD. lia.
  - reflexivity.
  - repeat constructor; unfold MAX_KEY_SIZE, MAX_VALUE_SIZE; cbn; lia.
  - apply NoDup_cons. split; [|apply NoDup_singleton].
    intros H. apply list_elem_of_singleton in H. discriminate.
  - unfold MAX_KEY_SIZE. cbn. lia.
  - unfold MAX_VALUE_SIZE. cbn. lia.
  - intros H. apply elem_of_cons in H as [H|H]; [discriminate|].
    apply list_elem_of_singleton in H. discriminate.
  - exists t, locked. split; [exact Hrun|]. split; [exact HSet|].
    apply Forall_cons in HGet as [[Ha _] HGet].
    apply Forall_cons in HGet as [[Hb _] _].
    split; [exact Ha | exact Hb].
Defined.

(** The key "c" behind the hole of [table_hole] is found by [Get], [Has]
    and [Delete]. *)
Lemma scan_skips_holes_witness :
  exists j slot,
    0 <= j < 2 /\
    slots table_hole
      !! Z.to_nat (probe_index table_hole (Hash true ["c"%byte] mod 2) j)
    = Some slot /\
    Get true ["c"%byte] table_hole
    = Done (Some (string_of_chars (value slot))) table_hole
        (probe_trace table_hole (Hash true ["c"%byte] mod 2) (j + 1)) /\
    Has true ["c"%byte] table_hole
    = Done true table_hole
        (probe_trace table_hole (Hash true ["c"%byte] mod 2) (j + 1)) /\
    exists t',
      Delete true ["c"%byte] table_hole
      = Done true t'
          (probe_trace table_hole (Hash true ["c"%byte] mod 2) (j + 1)).
Proof.
  destruct (scan_skips_holes true ["c"%byte] table_hole) as (_ & _ & Hfound).
  - reflexivity.
  - reflexivity.
  - unfold MAX_KEY_SIZE. cbn. lia.
  - destruct (Hfound 1%nat (slot_of ["c"%byte] ["2"%byte] 2))
      as (j & slot & Hj & Hslot & _ & _ & HGet & HHas & HDel).
    + reflexivity.
    + vm_compute. reflexivity.
    + exists j, slot. split; [exact Hj|]. split; [exact Hslot|].
      split; [exact HGet|]. split; [exact HHas | exact HDel].
Defined.

(** ** The life cycle of an instance *)

Section LifecycleFacts.

(** [sizeof(SharedMemoryHeader)] and [sizeof(CacheSlot)]. *)
Variables (header_size slot_size : Z).

(** The ways [InitializeSharedMemory] ends, read off its branches. *)
Lemma InitializeSharedMemory_posix_cases env name maxkeys persist :
  let shm_name := "/"%byte :: name in
  let shm_size := (header_size + maxkeys * slot_size) mod SIZE_MOD in
  let fd := shm_open_fd env in
  let r := InitializeSharedMemory_posix header_size slot_size env
             initial_instance name maxkeys persist in
  (fd = -1 /\
   r = (false,
        mkInstance nullptr shm_size shm_name fd false false None,
        [sys_shm_open shm_name])) \/
  (fd <> -1 /\ found_fresh env = true /\ ftruncate_result env = -1 /\
   r = (false,
        mkInstance nullptr shm_size shm_name fd true false None,
        [sys_shm_open shm_name; sys_fstat fd; sys_ftruncate fd shm_size;
         sys_close fd])) \/
  (fd <> -1 /\ (found_fresh env = true -> ftruncate_result env <> -1) /\
   mmap_ok env = false /\
   r = (false,
        mkInstance MAP_FAILED shm_size shm_name fd (found_fresh env) false
          None,
        [sys_shm_open shm_name; sys_fstat fd]
        ++ (if found_fresh env then [sys_ftruncate fd shm_size] else [])
        ++ [sys_mmap shm_size fd; sys_close fd])) \/
  (fd <> -1 /\ (found_fresh env = true -> ftruncate_result env <> -1) /\
   mmap_ok env = true /\
   r = (true,
        mkInstance Mapped shm_size shm_name fd (found_fresh env) persist
          (Some (if found_fresh env
                 then InitializeSharedMemory maxkeys
                 else segment env)),
        [sys_shm_open shm_name; sys_fstat fd]
        ++ (if found_fresh env then [sys_ftruncate fd shm_size] else [])
        ++ [sys_mmap shm_size fd])).
Proof.
  intros shm_name shm_size fd r. unfold r, InitializeSharedMemory_posix.
  fold shm_name shm_size fd. cbn [initial_instance shm_ptr_ is_creator_
                                  persist_ table_].
  destruct (fd =? -1) eqn:Efd.
  { left. apply Z.eqb_eq in Efd. auto. }
  apply Z.eqb_neq in Efd. right.
  destruct (found_fresh env) eqn:Ef; cbn [andb].
  - destruct (ftruncate_result env =? -1) eqn:Et.
    + left. apply Z.eqb_eq in Et. auto.
    + apply Z.eqb_neq in Et. right.
      destruct (mmap_ok env); [right | left];
        (split; [exact Efd|]); (split; [auto|]); (split; [reflexivity|]);
        rewrite <- app_assoc; reflexivity.
  - right.
    destruct (mmap_ok env); [right | left];
      (split; [exact Efd|]); (split; [discriminate|]);
      (split; [reflexivity|]); rewrite <- app_assoc; reflexivity.
Qed.

(** X17: when [InitializeSharedMemory] succeeds and what a failure
    leaves.  It returns [true] exactly when [shm_open] gives a
    descriptor, [ftruncate] (called on a fresh object only) does not
    fail, and [mmap] succeeds.  On success the region is mapped, the
    table is set, and no descriptor is closed.  On failure nothing is
    mapped, no table is set, [persist_] keeps its initial [false], and
    the descriptor, if one was opened, has been closed as the last
    call. *)
Theorem InitializeSharedMemory_outcome env name maxkeys persist ok this calls :
  InitializeSharedMemory_posix header_size slot_size env initial_instance
    name maxkeys persist = (ok, this, calls) ->
  (ok = true <->
   shm_open_fd env <> -1 /\
   (found_fresh env = true -> ftruncate_result env <> -1) /\
   mmap_ok env = true) /\
  (ok = true ->
   shm_ptr_ this = Mapped /\ is_Some (table_ this) /\
   persist_ this = persist /\ shm_fd_ this = shm_open_fd env /\
   forall fd, sys_close fd ∉ calls) /\
  (ok = false ->
   shm_ptr_ this <> Mapped /\ table_ this = None /\ persist_ this = false /\
   (shm_open_fd env <> -1 ->
    exists before, calls = before ++ [sys_close (shm_open_fd env)] /\
                   forall fd, sys_close fd ∉ before)).
Proof.
  intros Hr.
  destruct (InitializeSharedMemory_posix_cases env name maxkeys persist)
    as [(Hfd & E)|[(Hfd & Hf & Ht & E)|[(Hfd & Ht & Hm & E)|(Hfd & Ht & Hm & E)]]];
    rewrite Hr in E; injection E as -> -> ->.
  - split; [split; [discriminate | intros (H & _); contradiction]|].
    split; [discriminate|]. intros _. cbn.
    split; [discriminate|]. split; [reflexivity|]. split; [reflexivity|].
    intros H. contradiction.
  - split; [split; [discriminate|]|].
    { intros (_ & H & _). exfalso. exact (H Hf Ht). }
    split; [discriminate|]. intros _. cbn.
    split; [discriminate|]. split; [reflexivity|]. split; [reflexivity|].
    intros _. eexists [_; _; _]. split; [reflexivity|].
    intros fd H. repeat (apply elem_of_cons in H as [H|H]; [discriminate|]).
    inversion H.
  - split; [split; [discriminate | intros (_ & _ & H); congruence]|].
    split; [discriminate|]. intros _. cbn.
    split; [discriminate|]. split; [reflexivity|]. split; [reflexivity|].
    intros _.
    exists ([sys_shm_open ("/"%byte :: name); sys_fstat (shm_open_fd env)]
            ++ (if found_fresh env
                then [sys_ftruncate (shm_open_fd env)
                        ((header_size + maxkeys * slot_size) mod SIZE_MOD)]
                else [])
            ++ [sys_mmap ((header_size + maxkeys * slot_size) mod SIZE_MOD)
                  (shm_open_fd env)]).
    split; [rewrite <- !app_assoc; reflexivity|].
    intros fd H. destruct (found_fresh env); cbn in H;
      repeat (apply elem_of_cons in H as [H|H]; [discriminate|]);
      inversion H.
  - split; [split; [auto | reflexivity]|].
    split; [|discriminate]. intros _. cbn.
    split; [reflexivity|]. split; [eauto|]. split; [reflexivity|].
    split; [reflexivity|].
    intros fd H. destruct (found_fresh env); cbn in H;
      repeat (apply elem_of_cons in H as [H|H]; [discriminate|]);
      inversion H.
Qed.

(** X18: attaching does not initialise.  When [InitializeSharedMemory]
    succeeds on an object that is not fresh, the instance is no creator,
    its table is the one found in the region, unchanged, whatever
    capacity was asked for, and neither [ftruncate] nor [shm_unlink] is
    called; the size it maps is computed from the capacity asked for. *)
Theorem attach_keeps_segment env name maxkeys persist this calls :
  InitializeSharedMemory_posix header_size slot_size env initial_instance
    name maxkeys persist = (true, this, calls) ->
  found_fresh env = false ->
  is_creator_ this = false /\
  table_ this = Some (segment env) /\
  shm_size_ this = (header_size + maxkeys * slot_size) mod SIZE_MOD /\
  calls = [sys_shm_open ("/"%byte :: name); sys_fstat (shm_open_fd env);
           sys_mmap (shm_size_ this) (shm_open_fd env)].
Proof.
  intros Hr Hf.
  destruct (InitializeSharedMemory_posix_cases env name maxkeys persist)
    as [(Hfd & E)|[(Hfd & _ & Ht & E)|[(Hfd & Ht & Hm & E)|(Hfd & Ht & Hm & E)]]];
    rewrite Hr in E; try discriminate.
  injection E as -> ->. rewrite Hf. cbn. auto.
Qed.

(** X19: creating initialises.  When [InitializeSharedMemory] succeeds
    on a fresh object, the instance is the creator, the object is sized
    by [ftruncate] to the size that is then mapped, and the table is the
    empty table of the capacity asked for, whatever the region held: a
    reachable table of [Size] 0. *)
Theorem create_initialises (sgn : bool) env name maxkeys persist this calls :
  InitializeSharedMemory_posix header_size slot_size env initial_instance
    name maxkeys persist = (true, this, calls) ->
  found_fresh env = true ->
  0 <= maxkeys < UINT32_MOD ->
  is_creator_ this = true /\
  table_ this = Some (InitializeSharedMemory maxkeys) /\
  reachable sgn (InitializeSharedMemory maxkeys) /\
  Size (InitializeSharedMemory maxkeys) = 0 /\
  calls = [sys_shm_open ("/"%byte :: name); sys_fstat (shm_open_fd env);
           sys_ftruncate (shm_open_fd env) (shm_size_ this);
           sys_mmap (shm_size_ this) (shm_open_fd env)].
Proof.
  intros Hr Hf Hn.
  destruct (InitializeSharedMemory_posix_cases env name maxkeys persist)
    as [(Hfd & E)|[(Hfd & _ & Ht & E)|[(Hfd & Ht & Hm & E)|(Hfd & Ht & Hm & E)]]];
    rewrite Hr in E; try discriminate.
  injection E as -> ->. rewrite Hf. cbn.
  split; [reflexivity|]. split; [reflexivity|].
  split; [apply reach_init; exact Hn|]. split; reflexivity.
Qed.

(** X20: who removes the name.  After a successful
    [InitializeSharedMemory], [CleanupSharedMemory] unmaps the size that
    was mapped, closes the descriptor, and then calls [shm_unlink] on
    the name exactly when the instance created the object and [persist]
    is [false]: an instance that attached never unlinks. *)
Theorem Cleanup_after_success env name maxkeys persist this calls :
  InitializeSharedMemory_posix header_size slot_size env initial_instance
    name maxkeys persist = (true, this, calls) ->
  CleanupSharedMemory this
  = [sys_munmap ((header_size + maxkeys * slot_size) mod SIZE_MOD);
     sys_close (shm_open_fd env)]
    ++ (if found_fresh env && negb persist
        then [sys_shm_unlink ("/"%byte :: name)]
        else []).
Proof.
  intros Hr.
  destruct (InitializeSharedMemory_posix_cases env name maxkeys persist)
    as [(Hfd & E)|[(Hfd & _ & Ht & E)|[(Hfd & Ht & Hm & E)|(Hfd & Ht & Hm & E)]]];
    rewrite Hr in E; try discriminate.
  injection E as -> ->. unfold CleanupSharedMemory.
  cbn [shm_ptr_ shm_size_ shm_fd_ is_creator_ shm_name_ persist_].
  apply Z.eqb_neq in Hfd. rewrite Hfd.
  destruct (found_fresh env), persist; reflexivity.
Qed.

(** X21: the mapping of an instance that attached is sized by its own
    [maxKeys].  With a slot size above 0 and sizes that do not wrap, an
    instance that attached with capacity argument [maxkeys] to a region
    whose header stores a capacity [c] maps fewer bytes than the table
    spans exactly when [maxkeys < c]; the operations go by [c]. *)
Theorem attach_mapping_short env name maxkeys persist this calls :
  InitializeSharedMemory_posix header_size slot_size env initial_instance
    name maxkeys persist = (true, this, calls) ->
  found_fresh env = false ->
  0 < slot_size -> 0 <= header_size -> 0 <= maxkeys ->
  header_size + maxkeys * slot_size < SIZE_MOD ->
  exists t, table_ this = Some t /\ max_keys t = max_keys (segment env) /\
    (shm_size_ this < table_span header_size slot_size t <->
     maxkeys < max_keys (segment env)).
Proof.
  intros Hr Hf HS HH Hm Hov.
  destruct (InitializeSharedMemory_posix_cases env name maxkeys persist)
    as [(Hfd & E)|[(Hfd & _ & Ht & E)|[(Hfd & Ht & Hmm & E)|(Hfd & Ht & Hmm & E)]]];
    rewrite Hr in E; try discriminate.
  injection E as -> ->. rewrite Hf. cbn [table_ shm_size_].
  exists (segment env). split; [reflexivity|]. split; [reflexivity|].
  unfold table_span. rewrite Z.mod_small by nia. nia.
Qed.

(** X22: cleanup after a failed initialisation.  When
    [InitializeSharedMemory] fails after [shm_open] gave a descriptor,
    it has closed that descriptor; [CleanupSharedMemory] run on the
    instance it leaves unmaps nothing, closes the same descriptor a
    second time, and unlinks the name exactly when the object was found
    fresh, whatever [persist] was asked for. *)
Theorem Cleanup_after_failure env name maxkeys persist this calls :
  InitializeSharedMemory_posix header_size slot_size env initial_instance
    name maxkeys persist = (false, this, calls) ->
  shm_open_fd env <> -1 ->
  sys_close (shm_open_fd env) ∈ calls /\
  CleanupSharedMemory this
  = sys_close (shm_open_fd env)
    :: (if found_fresh env then [sys_shm_unlink ("/"%byte :: name)] else []).
Proof.
  intros Hr Hfd'.
  destruct (InitializeSharedMemory_posix_cases env name maxkeys persist)
    as [(Hfd & E)|[(Hfd & Hf & Ht & E)|[(Hfd & Ht & Hmm & E)|(Hfd & Ht & Hmm & E)]]];
    rewrite Hr in E; try discriminate; try contradiction;
    injection E as -> ->; unfold CleanupSharedMemory;
    cbn [shm_ptr_ shm_size_ shm_fd_ is_creator_ shm_name_ persist_];
    apply Z.eqb_neq in Hfd; rewrite Hfd.
  - rewrite Hf. split; [|reflexivity].
    do 3 apply list_elem_of_further. apply list_elem_of_here.
  - split.
    + do 2 apply list_elem_of_further. apply elem_of_app. right.
      apply list_elem_of_further, list_elem_of_here.
    + destruct (found_fresh env); reflexivity.
Qed.

(** X23: the constructor.  Without an options object it ends in a type
    error having issued no system call, and cleanup of the instance it
    leaves issues none.  With one, it never ends in a type error; the
    members it leaves and the system calls it issues are those of
    [InitializeSharedMemory] run on the new instance with the [name]
    option (default [node_cache]), the [maxKeys] option converted by
    [Uint32Value] (default 1024) and the [persist] option (default
    [false]); it ends constructed exactly when that call returns [true],
    which is when [shm_open] gives a descriptor, [ftruncate] (called on
    a fresh object only) does not fail and [mmap] succeeds, and in
    [Error] exactly when the call returns [false], the table pointers
    then being unset.  When it ends constructed on a fresh object the
    table of the instance is the table [FastShmCache] builds from the
    options, and on an existing object the table is the one found,
    [maxKeys] having no effect on it. *)
Theorem construct_outcome env :
  (construct header_size slot_size env None = (TypeError, initial_instance, [])
   /\ CleanupSharedMemory initial_instance = []) /\
  (forall name_option options r this calls,
      construct header_size slot_size env (Some (name_option, options))
      = (r, this, calls) ->
      r <> TypeError /\
      InitializeSharedMemory_posix header_size slot_size env initial_instance
        match name_option with Some n => n | None => default_name end
        match maxKeys options with
        | Some n => Uint32Value n
        | None => DEFAULT_MAX_KEYS
        end
        match persist options with Some b => b | None => false end
      = (match r with Constructed => true | TypeError | Error => false end,
         this, calls) /\
      (r = Constructed <->
       shm_open_fd env <> -1 /\
       (found_fresh env = true -> ftruncate_result env <> -1) /\
       mmap_ok env = true) /\
      (r = Error <->
       shm_open_fd env = -1 \/
       (found_fresh env = true /\ ftruncate_result env = -1) \/
       mmap_ok env = false) /\
      (r = Constructed ->
       table_ this = Some (if found_fresh env
                           then FastShmCache options
                           else segment env) /\
       persist_ this = match persist options with
                       | Some b => b
                       | None => false
                       end /\
       shm_name_ this = "/"%byte :: match name_option with
                                    | Some n => n
                                    | None => default_name
                                    end) /\
      (r = Error -> table_ this = None)).
Proof.
  split; [split; reflexivity|].
  intros name_option options r this calls. cbn [construct].
  set (name := match name_option with Some n => n | None => default_name end).
  set (maxkeys := match maxKeys options with
                  | Some n => Uint32Value n
                  | None => DEFAULT_MAX_KEYS
                  end).
  set (p := match persist options with Some b => b | None => false end).
  destruct (InitializeSharedMemory_posix_cases env name maxkeys p)
    as [(Hfd & E)|[(Hfd & Hf & Ht & E)|[(Hfd & Ht & Hmm & E)
                                       |(Hfd & Ht & Hmm & E)]]];
    rewrite E; intros [= <- <- <-];
    (split; [discriminate|]); (split; [reflexivity|]).
  - split; [split; [discriminate | intros (H & _); contradiction]|].
    split; [split; auto|]. split; [discriminate | reflexivity].
  - split; [split; [discriminate | intros (_ & H & _); exfalso; exact (H Hf Ht)]|].
    split; [split; auto|]. split; [discriminate | reflexivity].
  - split; [split; [discriminate | intros (_ & _ & H); congruence]|].
    split; [split; auto|]. split; [discriminate | reflexivity].
  - split; [split; auto|].
    split.
    { split; [discriminate|].
      intros [H|[[Hf H]|H]]; [contradiction | exfalso; exact (Ht Hf H) | congruence]. }
    split; [|discriminate]. intros _. cbn [table_ persist_ shm_name_].
    split; [|split; reflexivity].
    destruct (found_fresh env); reflexivity.
Qed.

End LifecycleFacts.

(** ** [Hash] on 7-bit keys *)

(** X26: on 7-bit keys the hash does not depend on the platform.  For a
    key whose bytes are all below 128, [Hash] is the 32-bit FNV-1a of the
    key's bytes whether [char] is signed or not, so that processes built
    either way start their scans at the same slot. *)
Theorem Hash_ascii_any_char key t :
  Forall (fun c => (Byte.to_N c < 128)%N) key ->
  Hash true key = fnv1a_spec key /\
  Hash false key = fnv1a_spec key /\
  Hash true key mod max_keys t = Hash false key mod max_keys t.
Proof.
  intros Hkey.
  pose proof (Hash_ascii_fnv1a true key Hkey) as Ht.
  pose proof (Hash_ascii_fnv1a false key Hkey) as Hf.
  split; [exact Ht|]. split; [exact Hf|]. rewrite Ht, Hf. reflexivity.
Qed.

(** ** Examples of the further properties *)

Lemma Set_twice_witness :
  exists t2,
    Set_ true 2 ["a"%byte] ["2"%byte] table_one = Done true t2 [0] /\
    Size t2 = Size table_one /\
    Get true ["a"%byte] t2 = Done (Some (string_of_chars ["2"%byte])) t2 [0].
Proof.
  apply (Set_twice true 1 2 ["a"%byte] ["1"%byte] ["2"%byte]
           (InitializeSharedMemory 1) table_one [0]).
  - split; [reflexivity | repeat constructor].
  - vm_compute. reflexivity.
  - vm_compute. lia.
Defined.

Lemma Set_false_iff_full_witness :
  ((exists locked,
       Set_ true 5 ["b"%byte] ["9"%byte] table_one
       = Done false table_one locked) <->
   (Size table_one = max_keys table_one /\
    exists locked, Has true ["b"%byte] table_one
                   = Done false table_one locked)) /\
  ((exists locked,
       Set_ true 5 ["b"%byte] ["9"%byte] table_one
       = Done false table_one locked) \/
   (exists t' locked,
       Set_ true 5 ["b"%byte] ["9"%byte] table_one = Done true t' locked)).
Proof.
  apply (Set_false_iff_full true 5 ["b"%byte] ["9"%byte] table_one).
  - apply table_one_reachable.
  - reflexivity.
  - vm_compute. lia.
  - vm_compute. lia.
Defined.

Lemma Set_true_size_witness :
  max_keys table_one = max_keys (InitializeSharedMemory 1) /\
  (Size table_one = Size (InitializeSharedMemory 1) \/
   Size table_one = Size (InitializeSharedMemory 1) + 1) /\
  (forall locked',
      Has true ["a"%byte] (InitializeSharedMemory 1)
      = Done false (InitializeSharedMemory 1) locked' ->
      Size table_one = Size (InitializeSharedMemory 1) + 1).
Proof.
  apply (Set_true_size true 1 ["a"%byte] ["1"%byte]
           (InitializeSharedMemory 1) table_one [0]).
  - apply reach_init. vm_compute. split; [discriminate | reflexivity].
  - vm_compute. reflexivity.
Defined.

Lemma Delete_as_Has_witness :
  Has true ["c"%byte] table_dup = Done true table_dup [0] /\
  (true = false -> table_stale = table_dup) /\
  (reachable true table_dup -> true = true ->
   Size table_stale = Size table_dup - 1 /\
   max_keys table_stale = max_keys table_dup).
Proof.
  apply (Delete_as_Has true ["c"%byte] table_dup true table_stale [0]).
  vm_compute. reflexivity.
Defined.

Lemma other_keys_untouched_witness :
  (forall now v b t' locked r locked',
      Set_ true now ["a"%byte] v table_hole = Done b t' locked ->
      Get true ["c"%byte] table_hole = Done r table_hole locked' ->
      Get true ["c"%byte] t' = Done r t' locked') /\
  (forall b t' locked r locked',
      Delete true ["a"%byte] table_hole = Done b t' locked ->
      Get true ["c"%byte] table_hole = Done r table_hole locked' ->
      Get true ["c"%byte] t' = Done r t' locked').
Proof.
  apply (other_keys_untouched true ["a"%byte] ["c"%byte] table_hole).
  - apply table_hole_reachable.
  - vm_compute. discriminate.
Defined.

Lemma Set_after_Delete_witness :
  exists t'' locked',
    Set_ true 7 ["a"%byte] ["1"%byte] table_stale = Done true t'' locked'.
Proof.
  apply (Set_after_Delete true ["c"%byte] table_dup table_stale [0]
           7 ["a"%byte] ["1"%byte]).
  - apply table_dup_reachable.
  - vm_compute. reflexivity.
  - vm_compute. lia.
  - vm_compute. lia.
Defined.

Lemma Keys_Entries_listing_witness :
  exists keys entries,
    Keys table_dup = Done keys table_dup (seqZ 0 (max_keys table_dup)) /\
    Entries table_dup
    = Done entries table_dup (seqZ 0 (max_keys table_dup)) /\
    keys = (fun s => string_of_chars (key s))
             <$> List.filter occupied (slots table_dup) /\
    entries = (fun s => (string_of_chars (key s), string_of_chars (value s)))
                <$> List.filter occupied (slots table_dup) /\
    keys = fst <$> entries /\
    Z.of_nat (length keys) = Size table_dup.
Proof.
  apply (Keys_Entries_listing true table_dup). apply table_dup_reachable.
Defined.

Lemma Keys_iff_Has_witness :
  (forall k, k ∈ [["c"%byte]; ["c"%byte]] ->
     exists locked', Has true k table_dup = Done true table_dup locked') /\
  (forall k, (length k < MAX_KEY_SIZE)%nat ->
     (exists locked', Has true k table_dup = Done true table_dup locked') ->
     string_of_chars k ∈ [["c"%byte]; ["c"%byte]]).
Proof.
  apply (Keys_iff_Has true table_dup [["c"%byte]; ["c"%byte]] [0; 1]).
  - apply table_dup_reachable.
  - vm_compute. reflexivity.
Defined.

Lemma Get_in_Entries_witness :
  (string_of_chars ["c"%byte], ["4"%byte])
  ∈ [(["c"%byte], ["4"%byte]); (["c"%byte], ["2"%byte])].
Proof.
  apply (Get_in_Entries true ["c"%byte] ["4"%byte] table_dup [0]
           [(["c"%byte], ["4"%byte]); (["c"%byte], ["2"%byte])] [0; 1]).
  - apply table_dup_reachable.
  - vm_compute. reflexivity.
  - vm_compute. reflexivity.
Defined.

Lemma Clear_then_empty_witness :
  let t' := mkTable 2 0 [free_slot 4; free_slot 2] in
  Keys t' = Done [] t' (seqZ 0 (max_keys t')) /\
  Entries t' = Done [] t' (seqZ 0 (max_keys t')) /\
  Clear t' = Done tt t' [0; 1] /\
  max_keys t' = max_keys table_dup.
Proof.
  apply (Clear_then_empty true table_dup
           (mkTable 2 0 [free_slot 4; free_slot 2]) [0; 1]).
  - apply table_dup_reachable.
  - vm_compute. reflexivity.
Defined.

Lemma capacity_fixed_witness :
  max_keys table_hole = 2 /\ Z.of_nat (length (slots table_hole)) = 2 /\
  length [true; true; true] = 3%nat /\ 0 <= Size table_hole <= 2.
Proof.
  apply (capacity_fixed true 2
           [SetCall 1 ["a"%byte] ["1"%byte]; SetCall 2 ["c"%byte] ["2"%byte];
            DeleteCall ["a"%byte]]
           [true; true; true] table_hole [0; 0; 1; 0]).
  - vm_compute. split; [discriminate | reflexivity].
  - vm_compute. reflexivity.
Defined.

Lemma long_key_rejected_witness :
  Get true (replicate 64 "k"%byte) table_one = Done None table_one [] /\
  Has true (replicate 64 "k"%byte) table_one = Done false table_one [] /\
  Delete true (replicate 64 "k"%byte) table_one = Done false table_one [].
Proof.
  apply (long_key_rejected true (replicate 64 "k"%byte) table_one).
  vm_compute. lia.
Defined.

Lemma new_cache_empty_witness :
  (exists locked,
      Has true ["a"%byte] (FastShmCache (mkOptions (Some 2) None))
      = Done false (FastShmCache (mkOptions (Some 2) None)) locked) /\
  (exists locked,
      Get true ["a"%byte] (FastShmCache (mkOptions (Some 2) None))
      = Done None (FastShmCache (mkOptions (Some 2) None)) locked).
Proof.
  destruct (new_cache_empty true (mkOptions (Some 2) None))
    as (_ & _ & _ & _ & _ & Habsent).
  apply Habsent. vm_compute. discriminate.
Defined.

Lemma Get_value_storable_witness :
  nul_free ["4"%byte] /\ (length ["4"%byte] < MAX_VALUE_SIZE)%nat /\
  string_of_chars ["4"%byte] = ["4"%byte].
Proof.
  apply (Get_value_storable true ["c"%byte] ["4"%byte] table_dup [0]).
  - apply table_dup_reachable.
  - vm_compute. reflexivity.
Defined.

Lemma keys_unique_without_Delete_witness :
  run true [SetCall 1 ["a"%byte] ["1"%byte]; SetCall 2 ["c"%byte] ["2"%byte]]
    (InitializeSharedMemory 2)
  = Done [true; true]
      (mkTable 2 2
         [slot_of ["a"%byte] ["1"%byte] 1; slot_of ["c"%byte] ["2"%byte] 2])
      [0; 0; 1] /\
  1%nat = 1%nat.
Proof.
  assert (Hrun :
    run true
      [SetCall 1 ["a"%byte] ["1"%byte]; SetCall 2 ["c"%byte] ["2"%byte]]
      (InitializeSharedMemory 2)
    = Done [true; true]
        (mkTable 2 2
           [slot_of ["a"%byte] ["1"%byte] 1;
            slot_of ["c"%byte] ["2"%byte] 2])
        [0; 0; 1])
    by (vm_compute; reflexivity).
  split; [exact Hrun|].
  apply (keys_unique_without_Delete true 2
           [SetCall 1 ["a"%byte] ["1"%byte]; SetCall 2 ["c"%byte] ["2"%byte]]
           [true; true]
           (mkTable 2 2
              [slot_of ["a"%byte] ["1"%byte] 1;
               slot_of ["c"%byte] ["2"%byte] 2])
           [0; 0; 1]
           ltac:(vm_compute; split; [discriminate | reflexivity])
           ltac:(repeat constructor)
           Hrun 1%nat 1%nat
           (slot_of ["c"%byte] ["2"%byte] 2)
           (slot_of ["c"%byte] ["2"%byte] 2));
    reflexivity.
Defined.

Lemma first_Delete_removes_witness :
  exists t2,
    Delete true ["c"%byte]
      (mkTable 2 2
         [slot_of ["a"%byte] ["1"%byte] 1; slot_of ["c"%byte] ["2"%byte] 2])
    = Done true t2 [0; 1] /\
    (exists locked', Has true ["c"%byte] t2 = Done false t2 locked') /\
    (exists locked', Get true ["c"%byte] t2 = Done None t2 locked').
Proof.
  apply (first_Delete_removes true 2 [SetCall 1 ["a"%byte] ["1"%byte]]
           [true]
           (mkTable 2 1 [slot_of ["a"%byte] ["1"%byte] 1; zero_slot]) [0]
           2 ["c"%byte] ["2"%byte]).
  - vm_compute. split; [discriminate | reflexivity].
  - repeat constructor.
  - vm_compute. reflexivity.
  - repeat constructor.
  - vm_compute. reflexivity.
Defined.

Lemma write_survives_other_calls_witness :
  exists locked',
    Get true ["c"%byte] table_hole
    = Done (Some (string_of_chars ["2"%byte])) table_hole locked'.
Proof.
  apply (write_survives_other_calls true 2 ["c"%byte] ["2"%byte]
           (mkTable 2 1 [slot_of ["a"%byte] ["1"%byte] 1; zero_slot])
           [DeleteCall ["a"%byte]] [true] table_hole [0; 1; 0]).
  - apply (reach_Set true (InitializeSharedMemory 2) 1 ["a"%byte] ["1"%byte]
             true _ [0]).
    + apply reach_init. vm_compute. split; [discriminate | reflexivity].
    + vm_compute. reflexivity.
  - constructor; [|constructor]. vm_compute. discriminate.
  - vm_compute. reflexivity.
Defined.

Lemma Hash_ascii_any_char_witness :
  Hash true ["a"%byte] = fnv1a_spec ["a"%byte] /\
  Hash false ["a"%byte] = fnv1a_spec ["a"%byte] /\
  Hash true ["a"%byte] mod max_keys table_dup
  = Hash false ["a"%byte] mod max_keys table_dup.
Proof.
  apply (Hash_ascii_any_char ["a"%byte] table_dup).
  repeat constructor.
Defined.

Lemma InitializeSharedMemory_outcome_witness :
  shm_ptr_
    (mkInstance Mapped 808 ("/"%byte :: name_db) 3 true false
       (Some (InitializeSharedMemory 2)))
  = Mapped /\
  is_Some (Some (InitializeSharedMemory 2)) /\
  false = false /\ 3 = shm_open_fd answers_fresh /\
  forall fd,
    sys_close fd
    ∉ [sys_shm_open ("/"%byte :: name_db); sys_fstat 3; sys_ftruncate 3 808;
       sys_mmap 808 3].
Proof.
  destruct (InitializeSharedMemory_outcome header_size_x86_64 slot_size_x86_64
              answers_fresh name_db 2 false true
              (mkInstance Mapped 808 ("/"%byte :: name_db) 3 true false
                 (Some (InitializeSharedMemory 2)))
              [sys_shm_open ("/"%byte :: name_db); sys_fstat 3;
               sys_ftruncate 3 808; sys_mmap 808 3])
    as (_ & Hok & _).
  - vm_compute. reflexivity.
  - apply Hok. reflexivity.
Defined.

Lemma attach_keeps_segment_witness :
  let this := mkInstance Mapped 432 ("/"%byte :: name_db) 3 false true
                (Some table_dup) in
  is_creator_ this = false /\
  table_ this = Some (segment answers_attach) /\
  shm_size_ this
  = (header_size_x86_64 + 1 * slot_size_x86_64) mod SIZE_MOD /\
  [sys_shm_open ("/"%byte :: name_db); sys_fstat 3; sys_mmap 432 3]
  = [sys_shm_open ("/"%byte :: name_db);
     sys_fstat (shm_open_fd answers_attach);
     sys_mmap (shm_size_ this) (shm_open_fd answers_attach)].
Proof.
  apply (attach_keeps_segment header_size_x86_64 slot_size_x86_64
           answers_attach name_db 1 true
           (mkInstance Mapped 432 ("/"%byte :: name_db) 3 false true
              (Some table_dup))
           [sys_shm_open ("/"%byte :: name_db); sys_fstat 3; sys_mmap 432 3]).
  - vm_compute. reflexivity.
  - reflexivity.
Defined.

Lemma create_initialises_witness :
  let this := mkInstance Mapped 808 ("/"%byte :: name_db) 3 true false
                (Some (InitializeSharedMemory 2)) in
  is_creator_ this = true /\
  table_ this = Some (InitializeSharedMemory 2) /\
  reachable true (InitializeSharedMemory 2) /\
  Size (InitializeSharedMemory 2) = 0 /\
  [sys_shm_open ("/"%byte :: name_db); sys_fstat 3; sys_ftruncate 3 808;
   sys_mmap 808 3]
  = [sys_shm_open ("/"%byte :: name_db);
     sys_fstat (shm_open_fd answers_fresh);
     sys_ftruncate (shm_open_fd answers_fresh) (shm_size_ this);
     sys_mmap (shm_size_ this) (shm_open_fd answers_fresh)].
Proof.
  apply (create_initialises header_size_x86_64 slot_size_x86_64 true
           answers_fresh name_db 2 false
           (mkInstance Mapped 808 ("/"%byte :: name_db) 3 true false
              (Some (InitializeSharedMemory 2)))
           [sys_shm_open ("/"%byte :: name_db); sys_fstat 3;
            sys_ftruncate 3 808; sys_mmap 808 3]).
  - vm_compute. reflexivity.
  - reflexivity.
  - vm_compute. split; [discriminate | reflexivity].
Defined.

Lemma Cleanup_after_success_witness :
  CleanupSharedMemory
    (mkInstance Mapped 808 ("/"%byte :: name_db) 3 true false
       (Some (InitializeSharedMemory 2)))
  = [sys_munmap ((header_size_x86_64 + 2 * slot_size_x86_64) mod SIZE_MOD);
     sys_close (shm_open_fd answers_fresh)]
    ++ (if found_fresh answers_fresh && negb false
        then [sys_shm_unlink ("/"%byte :: name_db)]
        else []).
Proof.
  apply (Cleanup_after_success header_size_x86_64 slot_size_x86_64
           answers_fresh name_db 2 false
           (mkInstance Mapped 808 ("/"%byte :: name_db) 3 true false
              (Some (InitializeSharedMemory 2)))
           [sys_shm_open ("/"%byte :: name_db); sys_fstat 3;
            sys_ftruncate 3 808; sys_mmap 808 3]).
  vm_compute. reflexivity.
Defined.

Lemma attach_mapping_short_witness :
  exists t,
    Some table_dup = Some t /\ max_keys t = max_keys (segment answers_attach) /\
    (432 < table_span header_size_x86_64 slot_size_x86_64 t <->
     1 < max_keys (segment answers_attach)).
Proof.
  apply (attach_mapping_short header_size_x86_64 slot_size_x86_64
           answers_attach name_db 1 true
           (mkInstance Mapped 432 ("/"%byte :: name_db) 3 false true
              (Some table_dup))
           [sys_shm_open ("/"%byte :: name_db); sys_fstat 3; sys_mmap 432 3]).
  - vm_compute. reflexivity.
  - reflexivity.
  - reflexivity.
  - vm_compute. discriminate.
  - vm_compute. discriminate.
  - reflexivity.
Defined.

Lemma Cleanup_after_failure_witness :
  sys_close (shm_open_fd answers_mmap_fails)
  ∈ [sys_shm_open ("/"%byte :: name_db); sys_fstat 3; sys_ftruncate 3 808;
     sys_mmap 808 3; sys_close 3] /\
  CleanupSharedMemory
    (mkInstance MAP_FAILED 808 ("/"%byte :: name_db) 3 true false None)
  = sys_close (shm_open_fd answers_mmap_fails)
    :: (if found_fresh answers_mmap_fails
        then [sys_shm_unlink ("/"%byte :: name_db)]
        else []).
Proof.
  apply (Cleanup_after_failure header_size_x86_64 slot_size_x86_64
           answers_mmap_fails name_db 2 true
           (mkInstance MAP_FAILED 808 ("/"%byte :: name_db) 3 true false None)
           [sys_shm_open ("/"%byte :: name_db); sys_fstat 3;
            sys_ftruncate 3 808; sys_mmap 808 3; sys_close 3]).
  - vm_compute. reflexivity.
  - vm_compute. discriminate.
Defined.

Lemma construct_outcome_witness :
  let this := mkInstance Mapped 808 ("/"%byte :: name_db) 3 true true
                (Some (InitializeSharedMemory 2)) in
  let calls := [sys_shm_open ("/"%byte :: name_db); sys_fstat 3;
                sys_ftruncate 3 808; sys_mmap 808 3] in
  construct header_size_x86_64 slot_size_x86_64 answers_fresh
    (Some (Some name_db, mkOptions (Some 2) (Some true)))
  = (Constructed, this, calls) /\
  InitializeSharedMemory_posix header_size_x86_64 slot_size_x86_64
    answers_fresh initial_instance name_db (Uint32Value 2) true
  = (true, this, calls) /\
  (Constructed = Constructed <->
   shm_open_fd answers_fresh <> -1 /\
   (found_fresh answers_fresh = true ->
    ftruncate_result answers_fresh <> -1) /\
   mmap_ok answers_fresh = true) /\
  table_ this = Some (FastShmCache (mkOptions (Some 2) (Some true))) /\
  persist_ this = true /\
  shm_name_ this = "/"%byte :: name_db.
Proof.
  intros this calls.
  assert (Hc : construct header_size_x86_64 slot_size_x86_64 answers_fresh
                 (Some (Some name_db, mkOptions (Some 2) (Some true)))
               = (Constructed, this, calls))
    by (vm_compute; reflexivity).
  destruct (construct_outcome header_size_x86_64 slot_size_x86_64
              answers_fresh) as [_ Hopt].
  destruct (Hopt (Some name_db) (mkOptions (Some 2) (Some true)) Constructed
              this calls Hc) as (_ & Hinit & Hiff & _ & Hok & _).
  split; [exact Hc|]. split; [exact Hinit|]. split; [exact Hiff|].
  exact (Hok eq_refl).
Defined.

(** ** An attached instance and the slots it maps *)

(** The loops over the whole table leave a slot array that is shorter
    than the stored capacity. *)
Lemma Keys_loop_short t fuel : forall i,
  0 <= i -> (Z.to_nat i <= length (slots t) < Z.to_nat i + fuel)%nat ->
  Keys_loop t fuel i = None.
Proof.
  induction fuel as [|fuel IH]; intros i Hi Hlen; cbn [Keys_loop].
  - lia.
  - destruct (slots t !! Z.to_nat i) as [slot|] eqn:Hs; [|reflexivity].
    apply lookup_lt_Some in Hs. rewrite IH by lia. reflexivity.
Qed.

Lemma Entries_loop_short t fuel : forall i,
  0 <= i -> (Z.to_nat i <= length (slots t) < Z.to_nat i + fuel)%nat ->
  Entries_loop t fuel i = None.
Proof.
  induction fuel as [|fuel IH]; intros i Hi Hlen; cbn [Entries_loop].
  - lia.
  - destruct (slots t !! Z.to_nat i) as [slot|] eqn:Hs; [|reflexivity].
    apply lookup_lt_Some in Hs. rewrite IH by lia. reflexivity.
Qed.

Lemma Clear_loop_short fuel : forall sl i,
  0 <= i -> (Z.to_nat i <= length sl < Z.to_nat i + fuel)%nat ->
  Clear_loop sl fuel i = None.
Proof.
  induction fuel as [|fuel IH]; intros sl i Hi Hlen; cbn [Clear_loop].
  - lia.
  - destruct (sl !! Z.to_nat i) as [slot|] eqn:Hs; [|reflexivity].
    apply lookup_lt_Some in Hs.
    rewrite IH by (rewrite ?length_insert; lia). reflexivity.
Qed.

Lemma short_array_undefined t :
  Z.of_nat (length (slots t)) < max_keys t ->
  Keys t = Undefined /\ Entries t = Undefined /\ Clear t = Undefined.
Proof.
  intros Hlen. unfold Keys, Entries, Clear.
  rewrite Keys_loop_short, Entries_loop_short, Clear_loop_short
    by (cbn; lia).
  auto.
Qed.

(** C10: an instance that attaches with [maxKeys = 1] to an object
    created with capacity 100 is constructed; it maps 432 bytes, the
    header and one slot, while the capacity its operations go by is the
    stored 100.  The loop index 1 and the start index 20 of the key "a"
    are below the capacity, and the slots they address lie outside the
    mapping: [Keys], [Entries], [Clear], [Get], [Has], [Set] and
    [Delete] all leave it. *)
Theorem attacher_reads_past_mapping :
  exists this calls t,
    construct header_size_x86_64 slot_size_x86_64 answers_attach_100
      (Some (Some name_db, mkOptions (Some 1) None))
    = (Constructed, this, calls) /\
    calls = [sys_shm_open ("/"%byte :: name_db); sys_fstat 3;
             sys_mmap 432 3] /\
    table_ this = Some (InitializeSharedMemory 100) /\
    mapped_slots header_size_x86_64 slot_size_x86_64 this = 1 /\
    addressable header_size_x86_64 slot_size_x86_64 this = Some t /\
    max_keys t = 100 /\ length (slots t) = 1%nat /\
    (0 <= 1 < max_keys t /\ slots t !! 1%nat = None) /\
    ~ in_bounds t (seqZ 0 (max_keys t)) /\
    Keys t = Undefined /\ Entries t = Undefined /\ Clear t = Undefined /\
    Hash true ["a"%byte] mod max_keys t = 20 /\
    slots t !! 20%nat = None /\
    Get true ["a"%byte] t = Undefined /\
    Has true ["a"%byte] t = Undefined /\
    Set_ true 1 ["a"%byte] ["1"%byte] t = Undefined /\
    Delete true ["a"%byte] t = Undefined.
Proof.
  eexists _, _, _. split; [vm_compute; reflexivity|].
  split; [reflexivity|]. split; [reflexivity|]. split; [reflexivity|].
  split; [vm_compute; reflexivity|].
  split; [reflexivity|]. split; [reflexivity|].
  split; [split; [cbn; lia | reflexivity]|].
  split.
  { intros Hb. unfold in_bounds in Hb.
    assert (H1 : 1 ∈ seqZ 0 100) by (apply elem_of_seqZ; lia).
    destruct (proj1 (Forall_forall _ _) Hb 1 H1) as [_ [s Hs]].
    discriminate Hs. }
  repeat (split; [vm_compute; reflexivity|]). vm_compute. reflexivity.
Qed.
